(** * Gossher: document repository and inventory manager

    A shallow embedding of [internal/storage/repository.go] and of the
    [internal/inventory] package (entities, groups, manager), with the
    properties of the design document stated and proved over it,
    followed by further properties of the same code, of the entity
    loader ([internal/inventory/entity.go]) and of the application
    configuration ([internal/config/config.go]).

    Conventions of the embedding:
    - a Go [string] is a [string]; a Go [int] is a [Z] (64-bit range written
      out where a decoder checks it); a [[]string] is a [list string] (the
      nil slice and the empty slice are both [[]]); a [map[string]T] is a
      [gmap string T];
    - a [*T] that may be nil is an [option T];
    - an [error] result is an [option error] ([None] is Go's [nil]);
    - the file system under the repository's base directory and the
      manager's three maps are passed explicitly;
    - locks are not modelled: every operation runs alone. *)

From Stdlib Require Import Ascii String ZArith.
From stdpp Require Import gmap strings list fin_maps pretty relations.

Set Warnings "-clear-no-such-hyp".

Open Scope Z_scope.
Open Scope string_scope.

(** ** Document types ([inventory.DocumentType]) *)

Abbreviation DocumentType := string (only parsing).

Definition TypeHost : DocumentType := "host".
Definition TypeGroup : DocumentType := "group".
Definition TypeCredential : DocumentType := "credential".
Definition TypeConfig : DocumentType := "config".

(** ** Errors

    One constructor per [fmt.Errorf] format of the modelled functions; the
    arguments are the values the format prints. *)

Inductive os_error := ENOENT | EACCES | EISDIR | ENOTEMPTY.

Inductive error :=
  (* repository.go *)
  | ErrFileNotFound (filename : string)            (* "file not found: %s" *)
  | ErrReadFile (filename : string) (e : os_error) (* "failed to read file %s: %w" *)
  | ErrExtractType                                 (* "failed to extract type: %w" *)
  | ErrUnknownDocumentType (t : string)            (* "unknown document type: %s" *)
  | ErrUnmarshal                                   (* "failed to unmarshal YAML: %w" *)
  | ErrWriteFile (path : string) (e : os_error)    (* "failed to write file %s: %w" *)
  | ErrDeleteFile (path : string) (e : os_error)   (* "failed to delete file %s: %w" *)
  | ErrListDirectory (e : os_error)                (* "failed to list directory: %w" *)
  (* credential.go, host, group.go: Validate *)
  | ErrInvalid (what : string)
  (* manager.go *)
  | ErrNilCredential                               (* "credential cannot be nil" *)
  | ErrNilHost                                     (* "host cannot be nil" *)
  | ErrNilGroup                                    (* "group cannot be nil" *)
  | ErrCredentialNotFound (id : string)            (* "credential %s not found" *)
  | ErrHostNotFound (id : string)                  (* "host %s not found" *)
  | ErrGroupNotFound (name : string)               (* "group %s not found" *)
  | ErrChildGroupNotFound (name : string)          (* "child group %s not found" *)
  | ErrCredentialInUse (id host : string)          (* "credential %s is in use by host %s" *)
  | ErrGroupIsChild (name parent : string).        (* "group %s is a child of group %s" *)

Inductive result (A : Type) :=
  | Ok (a : A)
  | Err (e : error).
Arguments Ok {A} a.
Arguments Err {A} e.

(** The error taxonomy of the design document, as predicates on [error]. *)



Definition is_IO (e : error) : bool :=
  match e with
  | ErrReadFile _ _ | ErrWriteFile _ _ | ErrDeleteFile _ _
  | ErrListDirectory _ => true
  | _ => false
  end.

Definition is_InUse (e : error) : bool :=
  match e with ErrCredentialInUse _ _ | ErrGroupIsChild _ _ => true | _ => false end.

Definition is_Validation (e : error) : bool :=
  match e with ErrInvalid _ => true | _ => false end.

(** ** Entities *)

Module Credential.
Record t := mk {
  ID : string;
  Name : string;
  Description : string;
  User : string;
  KeyPath : string;
  Password : string;
  Passphrase : string
}.

(** [func (c *Credential) Validate() error] *)
Definition Validate (c : t) : option error :=
  if decide (ID c = "") then Some (ErrInvalid "credential ID cannot be empty")
  else if decide (Name c = "") then Some (ErrInvalid "name cannot be empty")
  else if decide (User c = "") then Some (ErrInvalid "user cannot be empty")
  else if decide (KeyPath c = "" ∧ Password c = "")
    then Some (ErrInvalid "must have either key_path or password")
  else None.

(** [type CredentialType int] *)
Inductive CredentialType := CredentialTypeKey | CredentialTypePassword.

(** [func NewCredential(id, name, user string) *Credential] *)
Definition NewCredential (id name user : string) : t :=
  mk id name "" user "" "" "".

(** [func (c *Credential) Type() CredentialType] *)
Definition Type_of (c : t) : CredentialType :=
  if decide (KeyPath c ≠ "") then CredentialTypeKey else CredentialTypePassword.
End Credential.

Inductive HostStatus :=
  | HostStatusUnknown
  | HostStatusOnline
  | HostStatusOffline
  | HostStatusConnecting.

Module Host.
Record t := mk {
  Type_ : string;
  ID : string;
  Name : string;
  Description : string;
  Address : string;
  Port : Z;
  CredentialID : string;
  User : string;
  KeyPath : string;
  Password : string;
  Tags : list string;
  Vars : gmap string string;
  (* Runtime state (not saved to YAML) *)
  Status : HostStatus;
  LastPingTime : Z
}.

(** [func (h *Host) Validate() error] *)
Definition Validate (h : t) : option error :=
  if decide (ID h = "") then Some (ErrInvalid "host ID cannot be empty")
  else if decide (Name h = "") then Some (ErrInvalid "name cannot be empty")
  else if decide (Address h = "") then Some (ErrInvalid "address cannot be empty")
  else if decide (Port h ≤ 0 ∨ Port h > 65535)%Z then Some (ErrInvalid "invalid port")
  else
    let hasCredential := bool_decide (CredentialID h ≠ "") in
    let hasInlineAuth := bool_decide (User h ≠ "") in
    if negb hasCredential && negb hasInlineAuth
    then Some (ErrInvalid "must have either credential_id or user")
    else None.

(** What a value keeps when it goes through the YAML document: the two
    fields tagged [yaml:"-"] come back as Go zero values. *)
Definition persisted (h : t) : t :=
  mk (Type_ h) (ID h) (Name h) (Description h) (Address h) (Port h)
     (CredentialID h) (User h) (KeyPath h) (Password h) (Tags h) (Vars h)
     HostStatusUnknown 0.

(** [func NewHost(id, name, address string) *Host] *)
Definition NewHost (id name address : string) : t :=
  mk TypeHost id name "" address 22 "" "" "" "" [] ∅ HostStatusUnknown 0.

(** [func NewHostWithCredential(id, name, address, credentialID string) *Host] *)
Definition NewHostWithCredential (id name address credentialID : string) : t :=
  let h := NewHost id name address in
  mk (Type_ h) (ID h) (Name h) (Description h) (Address h) (Port h)
     credentialID (User h) (KeyPath h) (Password h) (Tags h) (Vars h)
     (Status h) (LastPingTime h).

(** [func (h *Host) UsesCredential() bool] *)
Definition UsesCredential (h : t) : bool := bool_decide (CredentialID h ≠ "").

(** The loop of [HasTag]. *)
Fixpoint has_tag (tags : list string) (tag : string) : bool :=
  match tags with
  | [] => false
  | t :: rest => if decide (t = tag) then true else has_tag rest tag
  end.

(** [func (h *Host) HasTag(tag string) bool] *)
Definition HasTag (h : t) (tag : string) : bool := has_tag (Tags h) tag.

Definition set_Tags (tags : list string) (h : t) : t :=
  mk (Type_ h) (ID h) (Name h) (Description h) (Address h) (Port h)
     (CredentialID h) (User h) (KeyPath h) (Password h) tags (Vars h)
     (Status h) (LastPingTime h).

(** [func (h *Host) AddTag(tag string)] *)
Definition AddTag (h : t) (tag : string) : t :=
  if negb (HasTag h tag) then set_Tags (Tags h ++ [tag]) h else h.

(** The loop of [RemoveTag]: the first match is cut out and the method
    returns. *)
Fixpoint remove_tag (tags : list string) (tag : string) : list string :=
  match tags with
  | [] => []
  | t :: rest => if decide (t = tag) then rest else t :: remove_tag rest tag
  end.

(** [func (h *Host) RemoveTag(tag string)] *)
Definition RemoveTag (h : t) (tag : string) : t :=
  set_Tags (remove_tag (Tags h) tag) h.
End Host.

Module Group.
Record t := mk {
  Name : string;
  Description : string;
  HostIDs : list string;
  Vars : gmap string string;
  ChildGroupNames : list string
}.

(** [func (g *Group) Validate() error] *)
Definition Validate (g : t) : option error :=
  if decide (Name g = "") then Some (ErrInvalid "group name cannot be empty")
  else None.

(** [func (g *Group) HasHost(hostID string) bool] *)
Fixpoint has (ids : list string) (x : string) : bool :=
  match ids with
  | [] => false
  | id :: rest => if decide (id = x) then true else has rest x
  end.

Definition HasHost (g : t) (hostID : string) : bool := has (HostIDs g) hostID.

(** [func (g *Group) HasChildGroup(groupName string) bool] *)
Definition HasChildGroup (g : t) (groupName : string) : bool :=
  has (ChildGroupNames g) groupName.

(** [func NewGroup(name string) *Group] *)
Definition NewGroup (name : string) : t := mk name "" [] ∅ [].

(** [func (g *Group) AddHost(hostID string)] *)
Definition AddHost (g : t) (hostID : string) : t :=
  if negb (HasHost g hostID)
  then mk (Name g) (Description g) (HostIDs g ++ [hostID]) (Vars g)
          (ChildGroupNames g)
  else g.

(** The loop of [RemoveHost]: at the first index [i] with
    [ids[i] == x] the slice becomes [append(ids[:i], ids[i+1:]...)] and
    the method returns. *)
Fixpoint remove_first (ids : list string) (x : string) : list string :=
  match ids with
  | [] => []
  | id :: rest => if decide (id = x) then rest else id :: remove_first rest x
  end.

(** [func (g *Group) RemoveHost(hostID string)] *)
Definition RemoveHost (g : t) (hostID : string) : t :=
  mk (Name g) (Description g) (remove_first (HostIDs g) hostID) (Vars g)
     (ChildGroupNames g).



(** [func (g *Group) HostCount() int] *)
Definition HostCount (g : t) : Z := Z.of_nat (length (HostIDs g)).
End Group.

Module Config.
Record t := mk {
  Type_ : string;
  DataDir : string;
  Theme : string;
  Language : string;
  DefaultSSHPort : Z;
  SSHTimeout : Z;
  (* Runtime - not saved *)
  BaseDir : string;
  ConfigPath : string
}.

Definition persisted (c : t) : t :=
  mk (Type_ c) (DataDir c) (Theme c) (Language c) (DefaultSSHPort c)
     (SSHTimeout c) "" "".
End Config.

(** The values [Repository.Write] receives and [Repository.Read] returns
    (Go's [any], restricted to the four shapes [Read] can build). *)
Inductive Entity :=
  | EHost (h : Host.t)
  | EGroup (g : Group.t)
  | ECredential (c : Credential.t)
  | EConfig (c : Config.t).

(** ** YAML documents

    [gopkg.in/yaml.v3] is outside the repository.  A file's bytes are
    modelled by what the parser makes of them: a mapping from keys to
    values, or something [yaml.Unmarshal] into a struct rejects (a syntax
    error, a top-level scalar or sequence).  The empty file is the empty
    mapping: [Unmarshal] accepts it and leaves the target untouched. *)

Inductive yval :=
  | YStr (s : string)               (* scalar resolved as !!str *)
  | YInt (n : Z)                    (* scalar resolved as !!int, in decimal *)
  | YSeq (l : list string)          (* sequence of scalars *)
  | YMap (m : gmap string string).  (* mapping of scalars *)

Abbreviation Doc := (gmap string yval) (only parsing).

Inductive Data :=
  | Mapping (d : gmap string yval)
  | Garbage.

Module Yaml.
(** Decoding one struct field. A key that is absent leaves the zero
    value; a value of the wrong kind is a type error, which makes
    [Unmarshal] return an error. *)

Definition in_int_range (n : Z) : bool :=
  bool_decide (- 2 ^ 63 ≤ n < 2 ^ 63)%Z.

(* any scalar decodes into a string field, by its text *)
Definition get_string (d : gmap string yval) (k : string) : option string :=
  match d !! k with
  | None => Some ""
  | Some (YStr s) => Some s
  | Some (YInt n) => Some (pretty n)
  | Some _ => None
  end.

Definition get_int (d : gmap string yval) (k : string) : option Z :=
  match d !! k with
  | None => Some 0
  | Some (YInt n) => if in_int_range n then Some n else None
  | Some _ => None
  end.

Definition get_seq (d : gmap string yval) (k : string) : option (list string) :=
  match d !! k with
  | None => Some []
  | Some (YSeq l) => Some l
  | Some _ => None
  end.

Definition get_map (d : gmap string yval) (k : string) : option (gmap string string) :=
  match d !! k with
  | None => Some ∅
  | Some (YMap m) => Some m
  | Some _ => None
  end.

(** Encoding one struct field; the [omit_] variants are the fields
    tagged [omitempty]. *)
Definition put_string (k s : string) (d : gmap string yval) := <[k := YStr s]> d.
Definition put_int (k : string) (n : Z) (d : gmap string yval) := <[k := YInt n]> d.
Definition put_seq (k : string) (l : list string) (d : gmap string yval) :=
  <[k := YSeq l]> d.
Definition omit_string (k s : string) (d : gmap string yval) :=
  if decide (s = "") then d else <[k := YStr s]> d.
Definition omit_seq (k : string) (l : list string) (d : gmap string yval) :=
  match l with [] => d | _ => <[k := YSeq l]> d end.
Definition omit_map (k : string) (m : gmap string string) (d : gmap string yval) :=
  if decide (m = ∅) then d else <[k := YMap m]> d.

(** [yaml.Marshal], per struct, following the field tags. *)

Definition marshal_Host (h : Host.t) : gmap string yval :=
  put_string "type" (Host.Type_ h)
  (put_string "id" (Host.ID h)
  (put_string "name" (Host.Name h)
  (omit_string "description" (Host.Description h)
  (put_string "address" (Host.Address h)
  (put_int "port" (Host.Port h)
  (omit_string "credential_id" (Host.CredentialID h)
  (omit_string "user" (Host.User h)
  (omit_string "key_path" (Host.KeyPath h)
  (omit_string "password" (Host.Password h)
  (omit_seq "tags" (Host.Tags h)
  (omit_map "vars" (Host.Vars h) ∅))))))))))).

Definition marshal_Group (g : Group.t) : gmap string yval :=
  put_string "name" (Group.Name g)
  (omit_string "description" (Group.Description g)
  (put_seq "host_ids" (Group.HostIDs g)
  (omit_map "vars" (Group.Vars g)
  (omit_seq "child_groups" (Group.ChildGroupNames g) ∅)))).

Definition marshal_Credential (c : Credential.t) : gmap string yval :=
  put_string "id" (Credential.ID c)
  (put_string "name" (Credential.Name c)
  (omit_string "description" (Credential.Description c)
  (put_string "user" (Credential.User c)
  (omit_string "key_path" (Credential.KeyPath c)
  (omit_string "password" (Credential.Password c)
  (omit_string "passphrase" (Credential.Passphrase c) ∅)))))).

Definition marshal_Config (c : Config.t) : gmap string yval :=
  put_string "type" (Config.Type_ c)
  (put_string "data_dir" (Config.DataDir c)
  (put_string "theme" (Config.Theme c)
  (put_string "language" (Config.Language c)
  (put_int "default_ssh_port" (Config.DefaultSSHPort c)
  (put_int "ssh_timeout" (Config.SSHTimeout c) ∅))))).

Definition Marshal (v : Entity) : Data :=
  Mapping match v with
          | EHost h => marshal_Host h
          | EGroup g => marshal_Group g
          | ECredential c => marshal_Credential c
          | EConfig c => marshal_Config c
          end.

(** [yaml.Unmarshal] into a zero value of each struct. *)

Definition unmarshal_Host (d : gmap string yval) : option Host.t :=
  ty ← get_string d "type";
  id ← get_string d "id";
  name ← get_string d "name";
  desc ← get_string d "description";
  addr ← get_string d "address";
  port ← get_int d "port";
  cred ← get_string d "credential_id";
  user ← get_string d "user";
  key ← get_string d "key_path";
  pw ← get_string d "password";
  tags ← get_seq d "tags";
  vars ← get_map d "vars";
  Some (Host.mk ty id name desc addr port cred user key pw tags vars
                HostStatusUnknown 0).

Definition unmarshal_Group (d : gmap string yval) : option Group.t :=
  name ← get_string d "name";
  desc ← get_string d "description";
  ids ← get_seq d "host_ids";
  vars ← get_map d "vars";
  children ← get_seq d "child_groups";
  Some (Group.mk name desc ids vars children).

Definition unmarshal_Credential (d : gmap string yval) : option Credential.t :=
  id ← get_string d "id";
  name ← get_string d "name";
  desc ← get_string d "description";
  user ← get_string d "user";
  key ← get_string d "key_path";
  pw ← get_string d "password";
  pp ← get_string d "passphrase";
  Some (Credential.mk id name desc user key pw pp).

Definition unmarshal_Config (d : gmap string yval) : option Config.t :=
  ty ← get_string d "type";
  dir ← get_string d "data_dir";
  theme ← get_string d "theme";
  lang ← get_string d "language";
  port ← get_int d "default_ssh_port";
  timeout ← get_int d "ssh_timeout";
  Some (Config.mk ty dir theme lang port timeout "" "").

(** [var typeDoc struct { Type DocumentType `yaml:"type"` }] and
    [yaml.Unmarshal(data, &typeDoc)]: [None] is the error return. *)
Definition unmarshal_typeDoc (data : Data) : option string :=
  match data with
  | Garbage => None
  | Mapping d => get_string d "type"
  end.
End Yaml.

(** ** The file system under the base directory

    [os] and [path/filepath] are outside the repository.  The base
    directory is a finite map from entry names to entries;
    [filepath.Join(r.baseDir, filename)] is the entry named [filename].
    That is so for a file name that is one path element
    ([filepath.plain_name] below); statements that relate two file
    names, or a file name and a directory listing, are made for such
    names.
    The base directory itself exists and can be read ([Init] creates it).
    An entry is an ordinary file, a file whose permissions refuse both
    reading and writing, or a sub-directory. *)

Inductive entry :=
  | Regular (data : Data)
  | Protected (data : Data)
  | Directory (empty : bool).

Module os.
Definition IsNotExist (e : os_error) : bool :=
  match e with ENOENT => true | _ => false end.

Definition ReadFile (fs : gmap string entry) (path : string) : os_error + Data :=
  match fs !! path with
  | None => inl ENOENT
  | Some (Regular data) => inr data
  | Some (Protected _) => inl EACCES
  | Some (Directory _) => inl EISDIR
  end.

(** A refused write leaves the directory as it was (the open fails
    before the file is truncated). *)
Definition WriteFile (fs : gmap string entry) (path : string) (data : Data)
  : gmap string entry * option os_error :=
  match fs !! path with
  | None | Some (Regular _) => (<[path := Regular data]> fs, None)
  | Some (Protected _) => (fs, Some EACCES)
  | Some (Directory _) => (fs, Some EISDIR)
  end.

Definition Remove (fs : gmap string entry) (path : string)
  : gmap string entry * option os_error :=
  match fs !! path with
  | None => (fs, Some ENOENT)
  | Some (Directory false) => (fs, Some ENOTEMPTY)
  | Some _ => (delete path fs, None)
  end.

Definition Stat (fs : gmap string entry) (path : string) : option os_error :=
  match fs !! path with
  | None => Some ENOENT
  | Some _ => None
  end.

(** [entry.Name()] and [entry.IsDir()] of every entry.  Go returns them
    sorted by name; here they come in the order of [map_to_list]. *)
Definition IsDir (e : entry) : bool :=
  match e with Directory _ => true | _ => false end.

Definition ReadDir (fs : gmap string entry) : os_error + list (string * bool) :=
  inr ((λ ne : string * entry, (ne.1, IsDir ne.2)) <$> map_to_list fs).
End os.

Module filepath.
(** [filepath.Ext]: scanning from the end and stopping at a path
    separator, the suffix that starts at the last dot; written as a
    recursion from the front that reports what the rest of the scan
    met. *)
Inductive scan := NoDot | HitSeparator | Found (ext : string).

Fixpoint scan_ext (path : string) : scan :=
  match path with
  | EmptyString => NoDot
  | String c rest =>
      match scan_ext rest with
      | Found e => Found e
      | HitSeparator => HitSeparator
      | NoDot =>
          if decide (c = "/"%char) then HitSeparator
          else if decide (c = "."%char) then Found (String c rest)
          else NoDot
      end
  end.

Definition Ext (path : string) : string :=
  match scan_ext path with Found e => e | _ => "" end.

(** A file name that is one path element: not empty, not [.] or [..],
    without a separator or a zero byte, and of at most 255 bytes, the
    longest name a directory takes.  For such a name
    [filepath.Join(baseDir, name)] is the entry [name] of the base
    directory, and no other such name leads to the same entry; a name
    of any other form is cleaned by [Join] and may lead to the base
    directory itself, below it or out of it, or is refused by the
    system whatever the directory holds. *)
Fixpoint has_byte (c : ascii) (name : string) : bool :=
  match name with
  | EmptyString => false
  | String c' rest => bool_decide (c' = c) || has_byte c rest
  end.

Definition plain_name (name : string) : bool :=
  bool_decide (name ≠ "" ∧ name ≠ "." ∧ name ≠ "..")
  && negb (has_byte "/"%char name)
  && negb (has_byte Ascii.zero name)
  && bool_decide (String.length name ≤ 255)%nat.
End filepath.

(** ** The document repository ([internal/storage/repository.go]) *)

Module Repository.
(** [func isYAMLFile(filename string) bool] *)
Definition isYAMLFile (filename : string) : bool :=
  let ext := filepath.Ext filename in
  bool_decide (ext = ".yaml") || bool_decide (ext = ".yml").

(** [func (r *Repository) Write(filename string, v any) error].
    [yaml.Marshal] does not fail on the four entity structs. *)
Definition Write (filename : string) (v : Entity) (fs : gmap string entry)
  : gmap string entry * option error :=
  let data := Yaml.Marshal v in
  match os.WriteFile fs filename data with
  | (fs', Some e) => (fs', Some (ErrWriteFile filename e))
  | (fs', None) => (fs', None)
  end.

(** Step 2 and step 3 of [Read]: the struct chosen by the tag, then the
    full decode into it. [None] at the outer level is the [default:]
    branch of the switch. *)
Definition decode_as (t : string) (data : Data) : option (option Entity) :=
  let body (f : gmap string yval → option Entity) :=
    match data with Mapping d => f d | Garbage => None end in
  if decide (t = TypeHost) then
    Some (body (λ d, EHost <$> Yaml.unmarshal_Host d))
  else if decide (t = TypeGroup) then
    Some (body (λ d, EGroup <$> Yaml.unmarshal_Group d))
  else if decide (t = TypeCredential) then
    Some (body (λ d, ECredential <$> Yaml.unmarshal_Credential d))
  else if decide (t = TypeConfig) then
    Some (body (λ d, EConfig <$> Yaml.unmarshal_Config d))
  else None.

(** [func (r *Repository) Read(filename string) (DocumentType, any, error)] *)
Definition Read (fs : gmap string entry) (filename : string)
  : result (string * Entity) :=
  match os.ReadFile fs filename with
  | inl err =>
      if os.IsNotExist err then Err (ErrFileNotFound filename)
      else Err (ErrReadFile filename err)
  | inr data =>
      match Yaml.unmarshal_typeDoc data with
      | None => Err ErrExtractType
      | Some t =>
          match decode_as t data with
          | None => Err (ErrUnknownDocumentType t)
          | Some None => Err ErrUnmarshal
          | Some (Some v) => Ok (t, v)
          end
      end
  end.

(** [func (r *Repository) Delete(filename string) error] *)
Definition Delete (filename : string) (fs : gmap string entry)
  : gmap string entry * option error :=
  match os.Remove fs filename with
  | (fs', Some e) =>
      if negb (os.IsNotExist e) then (fs', Some (ErrDeleteFile filename e))
      else (fs', None)
  | (fs', None) => (fs', None)
  end.

(** [func (r *Repository) Exists(filename string) bool] *)
Definition Exists (fs : gmap string entry) (filename : string) : bool :=
  match os.Stat fs filename with None => true | Some _ => false end.

(** [func (r *Repository) List() ([]string, error)] *)
Definition List (fs : gmap string entry) : result (list string) :=
  match os.ReadDir fs with
  | inl err => if os.IsNotExist err then Ok [] else Err (ErrListDirectory err)
  | inr entries =>
      Ok (fst <$> filter (λ e : string * bool, negb e.2 && isYAMLFile e.1 = true)
                         entries)
  end.

(** The loop of [ListByType] over [allFiles]. *)
Fixpoint filter_by_type (fs : gmap string entry) (docType : string)
    (allFiles : list string) : list string :=
  match allFiles with
  | [] => []
  | filename :: rest =>
      match os.ReadFile fs filename with
      | inl _ => filter_by_type fs docType rest       (* continue *)
      | inr data =>
          match Yaml.unmarshal_typeDoc data with
          | None => filter_by_type fs docType rest    (* continue *)
          | Some t =>
              if decide (t = docType)
              then filename :: filter_by_type fs docType rest
              else filter_by_type fs docType rest
          end
      end
  end.

(** [func (r *Repository) ListByType(docType DocumentType) ([]string, error)] *)
Definition ListByType (fs : gmap string entry) (docType : string)
  : result (list string) :=
  match List fs with
  | Err e => Err e
  | Ok allFiles => Ok (filter_by_type fs docType allFiles)
  end.



End Repository.

(** Further error formats: [validateRelationships], [LoadAll],
    [GetHostCredential] (manager.go) and [loadEntity] (entity.go).
    [Plain] carries an error of the formats above. *)
Inductive error2 :=
  | Plain (e : error)
  (* "host %s references non-existent credential: %s" *)
  | ErrHostReferencesCredential (host credential : string)
  (* "group %s references non-existent host: %s" *)
  | ErrGroupReferencesHost (group host : string)
  (* "group %s references non-existent child group: %s" *)
  | ErrGroupReferencesChild (group child : string)
  (* "host %s has no valid authentication" *)
  | ErrNoValidAuthentication (host : string)
  (* "failed to load credentials: %w", "... hosts: %w", "... groups: %w" *)
  | ErrLoadCredentials (e : error)
  | ErrLoadHosts (e : error)
  | ErrLoadGroups (e : error)
  (* "failed to parse entity header: %w" *)
  | ErrParseHeader
  (* "failed to parse host: %w", "... credential: %w", "... group: %w" *)
  | ErrParseEntity (kind : string)
  (* "unknown entity type: %s" *)
  | ErrUnknownEntityType (t : string)
  (* "invalid entity: %w" *)
  | ErrInvalidEntity (e : error).

(** ** Entity files ([internal/inventory/entity.go]) *)

(** [strings.Split(s, sep)] for a separator that is not empty: the
    pieces between the occurrences of [sep], found from left to right,
    each search starting behind the occurrence before. *)
Module strings.
(** [strings.CutPrefix]: what follows [sep] at the start of [s]. *)
Fixpoint CutPrefix (s sep : string) {struct sep} : option string :=
  match sep, s with
  | EmptyString, _ => Some s
  | String a sep', String b s' =>
      if decide (a = b) then CutPrefix s' sep' else None
  | String _ _, EmptyString => None
  end.

(** [m := Index(s, sep)] with the two slices [s[:m]] and
    [s[m+len(sep):]] that [genSplit] takes; [None] is [m < 0]. *)
Fixpoint Cut (s sep : string) : option (string * string) :=
  match CutPrefix s sep with
  | Some after => Some (EmptyString, after)
  | None =>
      match s with
      | EmptyString => None
      | String c s' =>
          match Cut s' sep with
          | Some (before, after) => Some (String c before, after)
          | None => None
          end
      end
  end.

(** The loop of [genSplit]; it runs at most [n - 1] times, where [n] is
    one more than the number of occurrences counted beforehand. *)
Fixpoint genSplit (n : nat) (s sep : string) : list string :=
  match n with
  | O => [s]
  | S n' =>
      match Cut s sep with
      | None => [s]
      | Some (before, after) => before :: genSplit n' after sep
      end
  end.

(** [strings.Count(s, sep)] is at most the length of [s]. *)
Definition Split (s sep : string) : list string :=
  genSplit (String.length s) s sep.

(** [strings.Join] *)
Fixpoint Join (elems : list string) (sep : string) : string :=
  match elems with
  | [] => EmptyString
  | [x] => x
  | x :: rest => x ++ sep ++ Join rest sep
  end.

(** [strings.Contains] *)
Definition Contains (s sep : string) : bool :=
  match Cut s sep with Some _ => true | None => false end.
End strings.

(** The separator of [splitYAMLDocuments]: a line feed and three
    dashes. *)
Definition document_separator : string :=
  String (Ascii.ascii_of_nat 10) "---".

(** [func splitYAMLDocuments(content string) []string]: both branches
    of its loop append the part. *)
Definition splitYAMLDocuments (content : string) : list string :=
  strings.Split content document_separator.

(** [func loadEntity(data []byte) (Entity, error)].  The header is read
    like the type document of [Repository.Read]; [entity.Validate()]
    runs on the struct the [switch] decoded. *)
Definition validated (entity : Entity) (err : option error) : error2 + Entity :=
  match err with
  | Some e => inl (ErrInvalidEntity e)
  | None => inr entity
  end.

Definition loadEntity (data : Data) : error2 + Entity :=
  match Yaml.unmarshal_typeDoc data with
  | None => inl ErrParseHeader
  | Some t =>
      let body {T} (f : gmap string yval → option T) : option T :=
        match data with Mapping d => f d | Garbage => None end in
      if decide (t = "host") then
        match body Yaml.unmarshal_Host with
        | None => inl (ErrParseEntity "host")
        | Some h => validated (EHost h) (Host.Validate h)
        end
      else if decide (t = "credential") then
        match body Yaml.unmarshal_Credential with
        | None => inl (ErrParseEntity "credential")
        | Some c => validated (ECredential c) (Credential.Validate c)
        end
      else if decide (t = "group") then
        match body Yaml.unmarshal_Group with
        | None => inl (ErrParseEntity "group")
        | Some g => validated (EGroup g) (Group.Validate g)
        end
      else inl (ErrUnknownEntityType t)
  end.

(** ** The inventory manager ([internal/inventory/manager.go]) *)

(** [inventory.EntityType] *)
Inductive EntityType :=
  | EntityTypeHost
  | EntityTypeCredential
  | EntityTypeGroup.

Module Manager.
(** [type Manager struct]: the three maps.  The maps hold pointers in
    Go; here they hold the values the pointers lead to, and a method
    that mutates an entity through its pointer updates the map entry. *)
Record t := mk {
  credentials : gmap string Credential.t;
  hosts : gmap string Host.t;
  groups : gmap string Group.t
}.

(** [NewManager] *)
Definition NewManager : t := mk ∅ ∅ ∅.

Definition set_credentials (cs : gmap string Credential.t) (m : t) : t :=
  mk cs (hosts m) (groups m).
Definition set_hosts (hs : gmap string Host.t) (m : t) : t :=
  mk (credentials m) hs (groups m).
Definition set_groups (gs : gmap string Group.t) (m : t) : t :=
  mk (credentials m) (hosts m) gs.

(** The manager together with the files under its base path. *)
Record state := mkState {
  mem : t;
  disk : gmap string entry
}.

Section WithLayout.
(** The entities' persistence methods [Save], [Delete] and
    [SetBasePath] are called by the manager but their file is not among
    the sources.  The design document has every mutation persist "to
    disk via the Repository", one document per entity under the base
    directory.  Which file name an entity of a given kind and id gets is
    left open: it is a parameter.  [SetBasePath] changes no field of the
    model. *)
Variable entityFile : EntityType → string → string.

(** Modelled from the spec: [func (c *Credential) Save() error], missing
    from the sources; [Repository.Write] of the credential to its file. *)
Definition Credential_Save (c : Credential.t) (fs : gmap string entry) :=
  Repository.Write (entityFile EntityTypeCredential (Credential.ID c))
                   (ECredential c) fs.

(** Modelled from the spec: [func (c *Credential) Delete() error], missing
    from the sources; [Repository.Delete] of the credential's file. *)
Definition Credential_Delete (c : Credential.t) (fs : gmap string entry) :=
  Repository.Delete (entityFile EntityTypeCredential (Credential.ID c)) fs.

(** Modelled from the spec: [func (h *Host) Save() error], missing
    from the sources; [Repository.Write] of the host to its file. *)
Definition Host_Save (h : Host.t) (fs : gmap string entry) :=
  Repository.Write (entityFile EntityTypeHost (Host.ID h)) (EHost h) fs.

(** Modelled from the spec: [func (h *Host) Delete() error], missing
    from the sources; [Repository.Delete] of the host's file. *)
Definition Host_Delete (h : Host.t) (fs : gmap string entry) :=
  Repository.Delete (entityFile EntityTypeHost (Host.ID h)) fs.

(** Modelled from the spec: [func (g *Group) Save() error], missing
    from the sources; [Repository.Write] of the group to its file. *)
Definition Group_Save (g : Group.t) (fs : gmap string entry) :=
  Repository.Write (entityFile EntityTypeGroup (Group.Name g)) (EGroup g) fs.

(** Modelled from the spec: [func (g *Group) Delete() error], missing
    from the sources; [Repository.Delete] of the group's file. *)
Definition Group_Delete (g : Group.t) (fs : gmap string entry) :=
  Repository.Delete (entityFile EntityTypeGroup (Group.Name g)) fs.

(** *** Credential operations *)

(** [func (m *Manager) AddCredential(c *Credential) error] *)
Definition AddCredential (c : option Credential.t) (st : state)
  : option error * state :=
  match c with
  | None => (Some ErrNilCredential, st)
  | Some c =>
      match Credential_Save c (disk st) with
      | (fs', Some err) => (Some err, mkState (mem st) fs')
      | (fs', None) =>
          (None,
           mkState (set_credentials
                      (<[Credential.ID c := c]> (credentials (mem st)))
                      (mem st)) fs')
      end
  end.

(** [func (m *Manager) UpdateCredential(c *Credential) error] *)
Definition UpdateCredential (c : option Credential.t) (st : state)
  : option error * state :=
  match c with
  | None => (Some ErrNilCredential, st)
  | Some c =>
      match Credential_Save c (disk st) with
      | (fs', Some err) => (Some err, mkState (mem st) fs')
      | (fs', None) =>
          (None,
           mkState (set_credentials
                      (<[Credential.ID c := c]> (credentials (mem st)))
                      (mem st)) fs')
      end
  end.

(** [for _, host := range m.hosts { if host.CredentialID == id ... } ]:
    the first host met that uses the credential.  Go ranges over a map
    in an unspecified order; the model takes the order of
    [map_to_list]. *)
Fixpoint first_user (id : string) (hs : list (string * Host.t))
  : option Host.t :=
  match hs with
  | [] => None
  | (_, host) :: rest =>
      if decide (Host.CredentialID host = id) then Some host
      else first_user id rest
  end.

(** [func (m *Manager) RemoveCredential(id string) error] *)
Definition RemoveCredential (id : string) (st : state)
  : option error * state :=
  match first_user id (map_to_list (hosts (mem st))) with
  | Some host => (Some (ErrCredentialInUse id (Host.ID host)), st)
  | None =>
      match credentials (mem st) !! id with
      | None => (Some (ErrCredentialNotFound id), st)
      | Some c =>
          match Credential_Delete c (disk st) with
          | (fs', Some err) => (Some err, mkState (mem st) fs')
          | (fs', None) =>
              (None,
               mkState (set_credentials (delete id (credentials (mem st)))
                                        (mem st)) fs')
          end
      end
  end.

(** *** Host operations *)

(** [if h.CredentialID != "" { if _, exists := m.credentials[...]; !exists ...] *)
Definition credential_reference_ok (m : t) (h : Host.t) : bool :=
  if decide (Host.CredentialID h ≠ "")
  then bool_decide (is_Some (credentials m !! Host.CredentialID h))
  else true.

(** [func (m *Manager) AddHost(h *Host) error] *)
Definition AddHost (h : option Host.t) (st : state) : option error * state :=
  match h with
  | None => (Some ErrNilHost, st)
  | Some h =>
      if negb (credential_reference_ok (mem st) h)
      then (Some (ErrCredentialNotFound (Host.CredentialID h)), st)
      else
        match Host_Save h (disk st) with
        | (fs', Some err) => (Some err, mkState (mem st) fs')
        | (fs', None) =>
            (None,
             mkState (set_hosts (<[Host.ID h := h]> (hosts (mem st)))
                                (mem st)) fs')
        end
  end.

(** [func (m *Manager) UpdateHost(h *Host) error] *)
Definition UpdateHost (h : option Host.t) (st : state)
  : option error * state :=
  match h with
  | None => (Some ErrNilHost, st)
  | Some h =>
      if negb (credential_reference_ok (mem st) h)
      then (Some (ErrCredentialNotFound (Host.CredentialID h)), st)
      else
        match Host_Save h (disk st) with
        | (fs', Some err) => (Some err, mkState (mem st) fs')
        | (fs', None) =>
            (None,
             mkState (set_hosts (<[Host.ID h := h]> (hosts (mem st)))
                                (mem st)) fs')
        end
  end.

(** One turn of the loop in [RemoveHost]:
    [if group.HasHost(id) { group.RemoveHost(id); group.Save() }].
    The group is changed through its pointer, so the map entry it was
    read from changes; the error of [Save] is dropped.  The groups are
    values here: every group is taken to be owned by its entry of the
    map, with a [HostIDs] slice that shares no array with another
    group's.  [Heap.cascade] below is the same loop without that
    assumption, and [RemoveHost_refines] relates the two. *)
Definition cascade (id : string)
    (acc : gmap string Group.t * gmap string entry)
    (ng : string * Group.t) : gmap string Group.t * gmap string entry :=
  if Group.HasHost ng.2 id then
    let group := Group.RemoveHost ng.2 id in
    (<[ng.1 := group]> acc.1, (Group_Save group acc.2).1)
  else acc.

(** [func (m *Manager) RemoveHost(id string) error] *)
Definition RemoveHost (id : string) (st : state) : option error * state :=
  match hosts (mem st) !! id with
  | None => (Some (ErrHostNotFound id), st)
  | Some h =>
      let '(gs, fs1) :=
        foldl (cascade id) (groups (mem st), disk st)
              (map_to_list (groups (mem st))) in
      match Host_Delete h fs1 with
      | (fs2, Some err) => (Some err, mkState (set_groups gs (mem st)) fs2)
      | (fs2, None) =>
          (None,
           mkState (set_hosts (delete id (hosts (mem st)))
                              (set_groups gs (mem st))) fs2)
      end
  end.

(** *** Group operations *)

(** [for _, x := range names { if _, exists := m[x]; !exists { return ... x } }]:
    the first name without an entry. *)
Fixpoint first_missing {A} (names : list string) (m : gmap string A)
  : option string :=
  match names with
  | [] => None
  | x :: rest =>
      match m !! x with
      | None => Some x
      | Some _ => first_missing rest m
      end
  end.

(** [func (m *Manager) AddGroup(g *Group) error] *)
Definition AddGroup (g : option Group.t) (st : state) : option error * state :=
  match g with
  | None => (Some ErrNilGroup, st)
  | Some g =>
      match first_missing (Group.HostIDs g) (hosts (mem st)) with
      | Some hostID => (Some (ErrHostNotFound hostID), st)
      | None =>
          match first_missing (Group.ChildGroupNames g) (groups (mem st)) with
          | Some childName => (Some (ErrChildGroupNotFound childName), st)
          | None =>
              match Group_Save g (disk st) with
              | (fs', Some err) => (Some err, mkState (mem st) fs')
              | (fs', None) =>
                  (None,
                   mkState (set_groups (<[Group.Name g := g]> (groups (mem st)))
                                       (mem st)) fs')
              end
          end
      end
  end.

(** [func (m *Manager) UpdateGroup(g *Group) error] *)
Definition UpdateGroup (g : option Group.t) (st : state)
  : option error * state :=
  match g with
  | None => (Some ErrNilGroup, st)
  | Some g =>
      match first_missing (Group.HostIDs g) (hosts (mem st)) with
      | Some hostID => (Some (ErrHostNotFound hostID), st)
      | None =>
          match Group_Save g (disk st) with
          | (fs', Some err) => (Some err, mkState (mem st) fs')
          | (fs', None) =>
              (None,
               mkState (set_groups (<[Group.Name g := g]> (groups (mem st)))
                                   (mem st)) fs')
          end
      end
  end.

(** [for _, group := range m.groups { if group.HasChildGroup(name) ... }]:
    the first group met that lists [name] as a child. *)
Fixpoint first_parent (name : string) (gs : list (string * Group.t))
  : option Group.t :=
  match gs with
  | [] => None
  | (_, group) :: rest =>
      if Group.HasChildGroup group name then Some group
      else first_parent name rest
  end.

(** [func (m *Manager) RemoveGroup(name string) error] *)
Definition RemoveGroup (name : string) (st : state) : option error * state :=
  match first_parent name (map_to_list (groups (mem st))) with
  | Some group => (Some (ErrGroupIsChild name (Group.Name group)), st)
  | None =>
      match groups (mem st) !! name with
      | None => (Some (ErrGroupNotFound name), st)
      | Some g =>
          match Group_Delete g (disk st) with
          | (fs', Some err) => (Some err, mkState (mem st) fs')
          | (fs', None) =>
              (None,
               mkState (set_groups (delete name (groups (mem st))) (mem st))
                       fs')
          end
      end
  end.
End WithLayout.

(** *** Queries *)

(** [for _, hostID := range g.HostIDs { if h, ok := m.hosts[hostID]; ok
    { hostMap[hostID] = h } }] *)
Definition add_direct (m : t) (hostMap : gmap string Host.t) (hostID : string)
  : gmap string Host.t :=
  match hosts m !! hostID with
  | Some h => <[hostID := h]> hostMap
  | None => hostMap
  end.

(** [for _, childName := range g.ChildGroupNames { if childGroup, ok :=
    m.groups[childName]; ok { collectHosts(childGroup) } }]: one turn,
    with the recursive call as a parameter; [None] is a call that did
    not return. *)
Definition visit_child (m : t)
    (collect : Group.t → gmap string Host.t → option (gmap string Host.t))
    (acc : option (gmap string Host.t)) (childName : string)
  : option (gmap string Host.t) :=
  hostMap ← acc;
  match groups m !! childName with
  | Some childGroup => collect childGroup hostMap
  | None => Some hostMap
  end.

(** The closure [collectHosts] of [GetAllHostsInGroup].  Go recurses
    with no bound; the model counts the depth of the calls still
    allowed and answers [None] when a call would go deeper. *)
Fixpoint collectHosts (depth : nat) (m : t) (g : Group.t)
    (hostMap : gmap string Host.t) : option (gmap string Host.t) :=
  match depth with
  | O => None
  | S depth' =>
      let hostMap1 := foldl (add_direct m) hostMap (Group.HostIDs g) in
      foldl (visit_child m (collectHosts depth' m)) (Some hostMap1)
            (Group.ChildGroupNames g)
  end.

(** [func (m *Manager) GetAllHostsInGroup(groupName string) ([]*Host, error)];
    the outer [option] is [None] when the recursion needs more than
    [depth] nested calls. The result slice is filled by ranging over
    [hostMap]. *)
Definition GetAllHostsInGroup (depth : nat) (m : t) (groupName : string)
  : option (result (list Host.t)) :=
  match groups m !! groupName with
  | None => Some (Err (ErrGroupNotFound groupName))
  | Some group =>
      hostMap ← collectHosts depth m group ∅;
      Some (Ok ((map_to_list hostMap).*2))
  end.

(** *** Relationships *)

(** The first loop of [validateRelationships], over [m.hosts] (in the
    order of [map_to_list]). *)
Fixpoint check_hosts (m : t) (hs : list (string * Host.t)) : option error2 :=
  match hs with
  | [] => None
  | (_, host) :: rest =>
      if decide (Host.CredentialID host ≠ "") then
        match credentials m !! Host.CredentialID host with
        | None =>
            Some (ErrHostReferencesCredential (Host.ID host)
                    (Host.CredentialID host))
        | Some _ => check_hosts m rest
        end
      else check_hosts m rest
  end.

(** The body of the second loop, for one group: its host ids, then its
    child names. *)
Definition check_group (m : t) (group : Group.t) : option error2 :=
  match first_missing (Group.HostIDs group) (hosts m) with
  | Some hostID => Some (ErrGroupReferencesHost (Group.Name group) hostID)
  | None =>
      match first_missing (Group.ChildGroupNames group) (groups m) with
      | Some childName =>
          Some (ErrGroupReferencesChild (Group.Name group) childName)
      | None => None
      end
  end.

(** The second loop of [validateRelationships], over [m.groups]. *)
Fixpoint check_groups (m : t) (gs : list (string * Group.t)) : option error2 :=
  match gs with
  | [] => None
  | (_, group) :: rest =>
      match check_group m group with
      | Some err => Some err
      | None => check_groups m rest
      end
  end.

(** [func (m *Manager) validateRelationships() error] *)
Definition validateRelationships (m : t) : option error2 :=
  match check_hosts m (map_to_list (hosts m)) with
  | Some err => Some err
  | None => check_groups m (map_to_list (groups m))
  end.

(** [for _, c := range credentials { c.SetBasePath(m.basePath);
    m.credentials[c.ID] = c }], and the same loop for hosts and groups. *)
Definition load_credentials (cs : list Credential.t)
    (m : gmap string Credential.t) : gmap string Credential.t :=
  foldl (λ acc c, <[Credential.ID c := c]> acc) m cs.
Definition load_hosts (hs : list Host.t) (m : gmap string Host.t)
  : gmap string Host.t :=
  foldl (λ acc h, <[Host.ID h := h]> acc) m hs.
Definition load_groups (gs : list Group.t) (m : gmap string Group.t)
  : gmap string Group.t :=
  foldl (λ acc g, <[Group.Name g := g]> acc) m gs.

(** [func (m *Manager) LoadAll() error].  The loaders
    [LoadAllCredentials], [LoadAllHosts] and [LoadAllGroups] are not among
    the sources; they take no argument and only read, so what each of
    them returns is a parameter here.  A loader after a failed one is not
    called. *)
Definition LoadAll (loadedCredentials : result (list Credential.t))
    (loadedHosts : result (list Host.t)) (loadedGroups : result (list Group.t))
    (m : t) : option error2 * t :=
  match loadedCredentials with
  | Err err => (Some (ErrLoadCredentials err), m)
  | Ok cs =>
      let m1 := set_credentials (load_credentials cs (credentials m)) m in
      match loadedHosts with
      | Err err => (Some (ErrLoadHosts err), m1)
      | Ok hs =>
          let m2 := set_hosts (load_hosts hs (hosts m1)) m1 in
          match loadedGroups with
          | Err err => (Some (ErrLoadGroups err), m2)
          | Ok gs =>
              let m3 := set_groups (load_groups gs (groups m2)) m2 in
              (validateRelationships m3, m3)
          end
      end
  end.

(** *** Lookups *)

(** [func (m *Manager) GetCredential(id string) (c *Credential, err error)] *)
Definition GetCredential (m : t) (id : string) : result Credential.t :=
  match credentials m !! id with
  | Some c => Ok c
  | None => Err (ErrCredentialNotFound id)
  end.

(** [func (m *Manager) GetHost(id string) (h *Host, err error)] *)
Definition GetHost (m : t) (id : string) : result Host.t :=
  match hosts m !! id with
  | Some h => Ok h
  | None => Err (ErrHostNotFound id)
  end.

(** [func (m *Manager) GetGroup(name string) (g *Group, err error)] *)
Definition GetGroup (m : t) (name : string) : result Group.t :=
  match groups m !! name with
  | Some g => Ok g
  | None => Err (ErrGroupNotFound name)
  end.

(** [func (m *Manager) ListCredentials() []*Credential], [ListHosts],
    [ListGroups]: the values, in the order the map is ranged over. *)
Definition ListCredentials (m : t) : list Credential.t :=
  (map_to_list (credentials m)).*2.
Definition ListHosts (m : t) : list Host.t := (map_to_list (hosts m)).*2.
Definition ListGroups (m : t) : list Group.t := (map_to_list (groups m)).*2.

(** [func (m *Manager) GetHostsByGroup(groupName string) ([]*Host, error)] *)
Definition GetHostsByGroup (m : t) (groupName : string) : result (list Host.t) :=
  match groups m !! groupName with
  | None => Err (ErrGroupNotFound groupName)
  | Some group => Ok (omap (λ id, hosts m !! id) (Group.HostIDs group))
  end.

(** [func (m *Manager) FindHostsByTag(tag string) []*Host] *)
Definition FindHostsByTag (m : t) (tag : string) : list Host.t :=
  filter (λ h, Host.HasTag h tag = true) (map_to_list (hosts m)).*2.

(** [func (m *Manager) FindHostsByCredential(credentialID string) []*Host] *)
Definition FindHostsByCredential (m : t) (credentialID : string) : list Host.t :=
  filter (λ h, Host.CredentialID h = credentialID) (map_to_list (hosts m)).*2.

(** The credential [GetHostCredential] makes up from a host's inline
    fields. *)
Definition inline_credential (hostID : string) (host : Host.t) : Credential.t :=
  Credential.mk ("inline-" ++ hostID) ("Inline auth for " ++ Host.Name host) ""
                (Host.User host) (Host.KeyPath host) (Host.Password host) "".

(** [func (m *Manager) GetHostCredential(hostID string) (c *Credential, err error)] *)
Definition GetHostCredential (m : t) (hostID : string) : error2 + Credential.t :=
  match hosts m !! hostID with
  | None => inl (Plain (ErrHostNotFound hostID))
  | Some host =>
      if decide (Host.CredentialID host ≠ "") then
        match credentials m !! Host.CredentialID host with
        | Some cred => inr cred
        | None => inl (Plain (ErrCredentialNotFound (Host.CredentialID host)))
        end
      else if decide (Host.User host ≠ "") then inr (inline_credential hostID host)
      else inl (ErrNoValidAuthentication hostID)
  end.

(** [type InventoryStats struct] *)
Record InventoryStats := mkStats {
  CredentialCount : Z;
  HostCount : Z;
  GroupCount : Z
}.

(** [func (m *Manager) Stats() InventoryStats] *)
Definition Stats (m : t) : InventoryStats :=
  mkStats (Z.of_nat (size (credentials m))) (Z.of_nat (size (hosts m)))
          (Z.of_nat (size (groups m))).
End Manager.

(** ** Groups behind their pointers

    [m.groups] is a [map[string]*Group] and [Group.HostIDs] a slice:
    two names of the map can lead to one [Group], and two slices can
    lie in one backing array.  [RemoveHost] is the one operation of the
    manager that writes through both, so it is modelled a second time
    here, on the pointers and the arrays.  The design document has
    every entity "exclusively owned by the Manager's corresponding map";
    [Manager.RemoveHost] above is the same operation under that
    assumption. *)

Module Slice.
(** A slice value: pointer (an array and a place in it), length and
    capacity. *)
Record t := mk {
  array : nat;
  offset : nat;
  len : nat;
  cap : nat
}.

(** The backing arrays, by address. *)
Abbreviation store := (gmap nat (list string)) (only parsing).

Definition content (arrays : store) (a : nat) : list string :=
  default [] (arrays !! a).

(** The elements of [s]: [len(s)] places of its array from its pointer
    on. *)
Definition elements (arrays : store) (s : t) : list string :=
  take (len s) (drop (offset s) (content arrays (array s))).

(** [s[:i]] and [s[i:]] *)
Definition upto (s : t) (i : nat) : t := mk (array s) (offset s) i (cap s).
Definition from (s : t) (i : nat) : t :=
  mk (array s) (offset s + i) (len s - i) (cap s - i).

(** [append(s, elems...)]: when the capacity of [s] has room for the
    elements they are written into the array of [s], behind its last
    element; otherwise a new array is made.  (Go may give the new array
    more room than is needed; nothing modelled here looks at it.) *)
Definition append (arrays : store) (s : t) (elems : list string) : store * t :=
  if decide (len s + length elems ≤ cap s)%nat then
    (<[array s := list_inserts (offset s + len s) elems
                    (content arrays (array s))]> arrays,
     mk (array s) (offset s) (len s + length elems) (cap s))
  else
    let a : nat := fresh (dom arrays) in
    (<[a := (elements arrays s ++ elems)%list]> arrays,
     mk a 0 (len s + length elems) (len s + length elems)).

(** The slice lies within its array. *)
Definition fits (arrays : store) (s : t) : bool :=
  bool_decide (len s ≤ cap s
               ∧ offset s + cap s ≤ length (content arrays (array s)))%nat.

(** No place of an array is an element of both slices. *)
Definition apart (s1 s2 : t) : bool :=
  bool_decide (array s1 ≠ array s2
               ∨ offset s1 + len s1 ≤ offset s2
               ∨ offset s2 + len s2 ≤ offset s1)%nat.

(** A slice without elements, as [nil] is. *)
Definition empty : t := mk 0 0 0 0.
End Slice.

Module Heap.
(** [type Group struct], with [HostIDs] and [ChildGroupNames] as the
    slices of strings they are, in the same store of arrays.  ([Vars]
    is a map; [RemoveHost] does not touch it.) *)
Record group := mkGroup {
  Name : string;
  Description : string;
  HostIDs : Slice.t;
  Vars : gmap string string;
  ChildGroupNames : Slice.t
}.

Definition set_HostIDs (s : Slice.t) (g : group) : group :=
  mkGroup (Name g) (Description g) s (Vars g) (ChildGroupNames g).

(** The group as a value: what its fields hold at the moment. *)
Definition value (arrays : Slice.store) (g : group) : Group.t :=
  Group.mk (Name g) (Description g) (Slice.elements arrays (HostIDs g))
           (Vars g) (Slice.elements arrays (ChildGroupNames g)).

(** [func (g *Group) HasHost(hostID string) bool] *)
Definition Group_HasHost (arrays : Slice.store) (g : group) (hostID : string)
  : bool :=
  Group.has (Slice.elements arrays (HostIDs g)) hostID.

(** [for i, id := range g.HostIDs { if id == hostID { ... } }]: the
    first index that matches. *)
Fixpoint first_index (ids : list string) (x : string) : option nat :=
  match ids with
  | [] => None
  | id :: rest => if decide (id = x) then Some O else S <$> first_index rest x
  end.

(** [func (g *Group) RemoveHost(hostID string)]:
    [g.HostIDs = append(g.HostIDs[:i], g.HostIDs[i+1:]...)] at the first
    match; [append] copies as [memmove] does, so the elements it writes
    are the ones the second slice held before the call. *)
Definition Group_RemoveHost (arrays : Slice.store) (g : group) (hostID : string)
  : Slice.store * group :=
  match first_index (Slice.elements arrays (HostIDs g)) hostID with
  | None => (arrays, g)
  | Some i =>
      let (arrays', s) :=
        Slice.append arrays (Slice.upto (HostIDs g) i)
          (Slice.elements arrays (Slice.from (HostIDs g) (S i))) in
      (arrays', set_HostIDs s g)
  end.

(** The manager with its group pointers, the [Group] structs they lead
    to, the arrays of the [HostIDs] slices, and the files. *)
Record state := mkState {
  credentials : gmap string Credential.t;
  hosts : gmap string Host.t;
  groups : gmap string nat;
  objects : gmap nat group;
  arrays : gmap nat (list string);
  disk : gmap string entry
}.

(** The group a name of the map leads to, as a value. *)
Definition group_at (st : state) (name : string) : option Group.t :=
  p ← groups st !! name; value (arrays st) <$> objects st !! p.

(** The group map as values. *)
Definition group_values (st : state) : gmap string Group.t :=
  omap (λ p, value (arrays st) <$> objects st !! p) (groups st).

(** The state as [Manager.state] has it. *)
Definition lower (st : state) : Manager.state :=
  Manager.mkState
    (Manager.mk (credentials st) (hosts st) (group_values st)) (disk st).

Section WithLayout.
Variable entityFile : EntityType → string → string.

(** One turn of the loop in [RemoveHost], for the entry [name] of the
    map: [if group.HasHost(id) { group.RemoveHost(id); group.Save() }].
    [Save] writes the group as it is after the removal; its error is
    dropped. *)
Definition cascade (id : string) (st : state) (name : string) : state :=
  match groups st !! name with
  | None => st
  | Some p =>
      match objects st !! p with
      | None => st
      | Some g =>
          if Group_HasHost (arrays st) g id then
            let (arrays', g') := Group_RemoveHost (arrays st) g id in
            mkState (credentials st) (hosts st) (groups st)
                    (<[p := g']> (objects st)) arrays'
                    (Manager.Group_Save entityFile (value arrays' g') (disk st)).1
          else st
      end
  end.

(** [func (m *Manager) RemoveHost(id string) error].  Go ranges over a
    map in an order it does not specify: [order] is the order in which
    the loop meets the names of [m.groups]. *)
Definition RemoveHost (order : list string) (id : string) (st : state)
  : option error * state :=
  match hosts st !! id with
  | None => (Some (ErrHostNotFound id), st)
  | Some h =>
      let st1 := foldl (cascade id) st order in
      match Manager.Host_Delete entityFile h (disk st1) with
      | (fs2, Some err) =>
          (Some err,
           mkState (credentials st1) (hosts st1) (groups st1) (objects st1)
                   (arrays st1) fs2)
      | (fs2, None) =>
          (None,
           mkState (credentials st1) (delete id (hosts st1)) (groups st1)
                   (objects st1) (arrays st1) fs2)
      end
  end.
End WithLayout.

(** The entries of the group map with the struct behind each pointer. *)
Definition entries (st : state) : list (string * nat * group) :=
  omap (λ np : string * nat, (λ g, (np, g)) <$> objects st !! np.2)
       (map_to_list (groups st)).

(** Every pointer of the map leads to a struct whose slices lie within
    their arrays. *)
Definition well_formed (st : state) : bool :=
  forallb (λ np : string * nat,
             match objects st !! np.2 with
             | Some g =>
                 Slice.fits (arrays st) (HostIDs g)
                 && Slice.fits (arrays st) (ChildGroupNames g)
             | None => false
             end) (map_to_list (groups st)).

(** Every group is owned by one name of the map: two names lead to two
    structs, and no place of an array that is an element of the
    [HostIDs] of a group is an element of another slice, be it the
    [HostIDs] of another group or the [ChildGroupNames] of any. *)
Definition unshared (st : state) : bool :=
  forallb (λ e1 : string * nat * group,
    forallb (λ e2 : string * nat * group,
      Slice.apart (HostIDs e1.2) (ChildGroupNames e2.2)
      && (bool_decide (e1.1.1 = e2.1.1)
          || (bool_decide (e1.1.2 ≠ e2.1.2)
              && Slice.apart (HostIDs e1.2) (HostIDs e2.2))))
      (entries st)) (entries st).

(** No group lists a host twice. *)
Definition no_repetition (st : state) : bool :=
  forallb (λ e : string * nat * group,
             bool_decide (NoDup (Slice.elements (arrays st) (HostIDs e.2))))
          (entries st).

(** Every group has a file of its own, which is not the file of the
    host [h] either; the file names are names of entries of the base
    directory, so that two of them are one file only when they are
    equal. *)
Definition distinct_files (entityFile : EntityType → string → string)
    (h : Host.t) (st : state) : bool :=
  filepath.plain_name (entityFile EntityTypeHost (Host.ID h))
  && forallb (λ e1 : string * nat * group,
    filepath.plain_name (entityFile EntityTypeGroup (Name e1.2))
    && bool_decide (entityFile EntityTypeGroup (Name e1.2)
                    ≠ entityFile EntityTypeHost (Host.ID h))
    && forallb (λ e2 : string * nat * group,
         bool_decide (e1.1.1 = e2.1.1)
         || bool_decide (entityFile EntityTypeGroup (Name e1.2)
                         ≠ entityFile EntityTypeGroup (Name e2.2)))
         (entries st)) (entries st).
End Heap.

(** ** The application configuration ([internal/config/config.go],
    the version that holds the [Config] struct of the repository) *)

Inductive config_error :=
  | ErrConfigNotLoaded                          (* "config not loaded" *)
  | ErrInvalidPort (port : Z)                   (* "invalid port: %d" *)
  | ErrInvalidTimeout (timeout : Z)             (* "invalid timeout: %d" *)
  | ErrCreateBaseDirectory (e : os_error)       (* "failed to create base directory: %w" *)
  | ErrWriteConfig (e : os_error)               (* "failed to write config: %w" *)
  | ErrSaveDefaultConfig (e : config_error)     (* "failed to save default config: %w" *)
  | ErrReadConfig (e : os_error)                (* "failed to read config: %w" *)
  | ErrParseConfig                              (* "failed to parse config: %w" *)
  | ErrOfCaller (message : string).             (* an error made by the function given to [Update] *)

(** [type ConfigEditor struct { cfg *Config }]: the methods write through
    the pointer; here they take the struct and return it. *)
Module ConfigEditor.
Definition SetDataDir (dir : string) (cfg : Config.t) : Config.t :=
  Config.mk (Config.Type_ cfg) dir (Config.Theme cfg) (Config.Language cfg)
            (Config.DefaultSSHPort cfg) (Config.SSHTimeout cfg)
            (Config.BaseDir cfg) (Config.ConfigPath cfg).

Definition SetTheme (theme : string) (cfg : Config.t) : Config.t :=
  Config.mk (Config.Type_ cfg) (Config.DataDir cfg) theme (Config.Language cfg)
            (Config.DefaultSSHPort cfg) (Config.SSHTimeout cfg)
            (Config.BaseDir cfg) (Config.ConfigPath cfg).

Definition SetLanguage (lang : string) (cfg : Config.t) : Config.t :=
  Config.mk (Config.Type_ cfg) (Config.DataDir cfg) (Config.Theme cfg) lang
            (Config.DefaultSSHPort cfg) (Config.SSHTimeout cfg)
            (Config.BaseDir cfg) (Config.ConfigPath cfg).

(* the two assignments, without the range checks *)
Definition assign_DefaultSSHPort (port : Z) (cfg : Config.t) : Config.t :=
  Config.mk (Config.Type_ cfg) (Config.DataDir cfg) (Config.Theme cfg)
            (Config.Language cfg) port (Config.SSHTimeout cfg)
            (Config.BaseDir cfg) (Config.ConfigPath cfg).

Definition assign_SSHTimeout (timeout : Z) (cfg : Config.t) : Config.t :=
  Config.mk (Config.Type_ cfg) (Config.DataDir cfg) (Config.Theme cfg)
            (Config.Language cfg) (Config.DefaultSSHPort cfg) timeout
            (Config.BaseDir cfg) (Config.ConfigPath cfg).

Definition SetDefaultSSHPort (port : Z) (cfg : Config.t)
  : option config_error * Config.t :=
  if decide (port ≤ 0 ∨ port > 65535)%Z then (Some (ErrInvalidPort port), cfg)
  else (None, assign_DefaultSSHPort port cfg).

Definition SetSSHTimeout (timeout : Z) (cfg : Config.t)
  : option config_error * Config.t :=
  if decide (timeout ≤ 0)%Z then (Some (ErrInvalidTimeout timeout), cfg)
  else (None, assign_SSHTimeout timeout cfg).

(** A function [fn func(e *ConfigEditor) error] that returns: outside the
    package it reaches the configuration through the five methods only.
    It calls a method and goes on according to what the method
    returned, or it returns its own result. *)
Inductive call :=
  | CallSetDataDir (dir : string)
  | CallSetTheme (theme : string)
  | CallSetLanguage (lang : string)
  | CallSetDefaultSSHPort (port : Z)
  | CallSetSSHTimeout (timeout : Z).

Inductive fn :=
  | Return (err : option config_error)
  | Call (c : call) (next : option config_error → fn).

Definition invoke (c : call) (cfg : Config.t) : option config_error * Config.t :=
  match c with
  | CallSetDataDir dir => (None, SetDataDir dir cfg)
  | CallSetTheme theme => (None, SetTheme theme cfg)
  | CallSetLanguage lang => (None, SetLanguage lang cfg)
  | CallSetDefaultSSHPort port => SetDefaultSSHPort port cfg
  | CallSetSSHTimeout timeout => SetSSHTimeout timeout cfg
  end.

Fixpoint run (f : fn) (cfg : Config.t) : option config_error * Config.t :=
  match f with
  | Return err => (err, cfg)
  | Call c next => let (err, cfg') := invoke c cfg in run (next err) cfg'
  end.
End ConfigEditor.

Module GlobalConfig.
(** [var globalConfig *Config] and the files, by path.  The struct the
    pointer leads to is held in place of the pointer. *)
Record state := mkState {
  globalConfig : option Config.t;
  disk : gmap string entry
}.

(** [os.WriteFile(path, data, 0644)] by path: the empty path names no
    file, and opening it fails. *)
Definition WriteFile (fs : gmap string entry) (path : string) (data : Data)
  : gmap string entry * option os_error :=
  if decide (path = "") then (fs, Some ENOENT) else os.WriteFile fs path data.

Section WithEnvironment.
(** [defaultBaseDir()] and [filepath.Join(baseDir, "config.yaml")]. *)
Variable baseDir : string.
Variable configPath : string.
(** [os.MkdirAll(path, 0755)]: whether the directory is there or can be
    made; it changes no file. *)
Variable MkdirAll : string → option os_error.

(** [func Default() *Config] *)
Definition Default : Config.t :=
  Config.mk TypeConfig baseDir "light" "en" 22 30 baseDir configPath.

(** [func saveConfig(cfg *Config) error]; [yaml.Marshal] does not fail
    on the struct. *)
Definition saveConfig (cfg : Config.t) (fs : gmap string entry)
  : gmap string entry * option config_error :=
  match MkdirAll (Config.BaseDir cfg) with
  | Some err => (fs, Some (ErrCreateBaseDirectory err))
  | None =>
      match WriteFile fs (Config.ConfigPath cfg) (Yaml.Marshal (EConfig cfg)) with
      | (fs', Some err) => (fs', Some (ErrWriteConfig err))
      | (fs', None) => (fs', None)
      end
  end.

(** [func Load() error].  [yaml.Unmarshal] fills the struct
    [&Config{BaseDir: baseDir}]: the decoded fields, and [BaseDir]. *)
Definition Load (st : state) : option config_error * state :=
  let missing :=
    match os.Stat (disk st) configPath with
    | Some err => os.IsNotExist err
    | None => false
    end in
  if missing then
    match MkdirAll baseDir with
    | Some err => (Some (ErrCreateBaseDirectory err), st)
    | None =>
        match saveConfig Default (disk st) with
        | (fs', Some err) =>
            (Some (ErrSaveDefaultConfig err), mkState (globalConfig st) fs')
        | (fs', None) => (None, mkState (Some Default) fs')
        end
    end
  else
    match os.ReadFile (disk st) configPath with
    | inl err => (Some (ErrReadConfig err), st)
    | inr data =>
        match data with
        | Garbage => (Some ErrParseConfig, st)
        | Mapping d =>
            match Yaml.unmarshal_Config d with
            | None => (Some ErrParseConfig, st)
            | Some c =>
                let cfg :=
                  Config.mk (Config.Type_ c) (Config.DataDir c) (Config.Theme c)
                            (Config.Language c) (Config.DefaultSSHPort c)
                            (Config.SSHTimeout c) baseDir "" in
                (None, mkState (Some cfg) (disk st))
            end
        end
    end.

(** [func Save() error] *)
Definition Save (st : state) : option config_error * state :=
  match globalConfig st with
  | None => (Some ErrConfigNotLoaded, st)
  | Some cfg =>
      let (fs', err) := saveConfig cfg (disk st) in
      (err, mkState (globalConfig st) fs')
  end.

(** The setters: the field of the global struct is assigned, then
    [Save] runs. *)
Definition set_and_Save (assign : Config.t → Config.t) (st : state)
  : option config_error * state :=
  match globalConfig st with
  | None => (Some ErrConfigNotLoaded, st)
  | Some cfg => Save (mkState (Some (assign cfg)) (disk st))
  end.

(** [func SetDataDir(dir string) error] *)
Definition SetDataDir (dir : string) : state → option config_error * state :=
  set_and_Save (ConfigEditor.SetDataDir dir).

(** [func SetTheme(theme string) error] *)
Definition SetTheme (theme : string) : state → option config_error * state :=
  set_and_Save (ConfigEditor.SetTheme theme).

(** [func SetLanguage(lang string) error] *)
Definition SetLanguage (lang : string) : state → option config_error * state :=
  set_and_Save (ConfigEditor.SetLanguage lang).

(** [func SetDefaultSSHPort(port int) error] *)
Definition SetDefaultSSHPort (port : Z) (st : state)
  : option config_error * state :=
  if decide (port ≤ 0 ∨ port > 65535)%Z then (Some (ErrInvalidPort port), st)
  else set_and_Save (ConfigEditor.assign_DefaultSSHPort port) st.

(** [func SetSSHTimeout(timeout int) error] *)
Definition SetSSHTimeout (timeout : Z) (st : state)
  : option config_error * state :=
  if decide (timeout ≤ 0)%Z then (Some (ErrInvalidTimeout timeout), st)
  else set_and_Save (ConfigEditor.assign_SSHTimeout timeout) st.

(** [func Update(fn func(e *ConfigEditor) error) error]; the editor holds
    the global pointer, so what [fn] assigns is assigned to the global
    struct. *)
Definition Update (f : ConfigEditor.fn) (st : state)
  : option config_error * state :=
  match globalConfig st with
  | None => (Some ErrConfigNotLoaded, st)
  | Some cfg =>
      let (err, cfg') := ConfigEditor.run f cfg in
      match err with
      | Some e => (Some e, mkState (Some cfg') (disk st))
      | None =>
          let (fs', err') := saveConfig cfg' (disk st) in
          (err', mkState (Some cfg') fs')
      end
  end.

(** The operations that change a loaded configuration. *)
Inductive operation :=
  | OpSave
  | OpSetDataDir (dir : string)
  | OpSetTheme (theme : string)
  | OpSetLanguage (lang : string)
  | OpSetDefaultSSHPort (port : Z)
  | OpSetSSHTimeout (timeout : Z)
  | OpUpdate (f : ConfigEditor.fn).

Definition perform (op : operation) : state → option config_error * state :=
  match op with
  | OpSave => Save
  | OpSetDataDir dir => SetDataDir dir
  | OpSetTheme theme => SetTheme theme
  | OpSetLanguage lang => SetLanguage lang
  | OpSetDefaultSSHPort port => SetDefaultSSHPort port
  | OpSetSSHTimeout timeout => SetSSHTimeout timeout
  | OpUpdate f => Update f
  end.
End WithEnvironment.
End GlobalConfig.

(** The settings of a configuration are in range: a port, and a
    timeout above zero. *)
Definition settings_in_range (c : Config.t) : Prop :=
  (1 ≤ Config.DefaultSSHPort c ≤ 65535)%Z ∧ (0 < Config.SSHTimeout c)%Z.

(** ** Vocabulary of the properties *)


(** The concrete Go type of a value [Read] returns, named by its tag. *)
Definition shape (v : Entity) : string :=
  match v with
  | EHost _ => TypeHost
  | EGroup _ => TypeGroup
  | ECredential _ => TypeCredential
  | EConfig _ => TypeConfig
  end.

(** The [type] field a value carries into its document.  [Group] and
    [Credential] have no such field in the sources. *)
Definition tag_of (v : Entity) : option string :=
  match v with
  | EHost h => Some (Host.Type_ h)
  | EConfig c => Some (Config.Type_ c)
  | EGroup _ | ECredential _ => None
  end.

(** The value with its [yaml:"-"] fields reset. *)
Definition persisted (v : Entity) : Entity :=
  match v with
  | EHost h => EHost (Host.persisted h)
  | EConfig c => EConfig (Config.persisted c)
  | EGroup _ | ECredential _ => v
  end.



(** The [int] fields of a value lie in Go's 64-bit [int]. *)
Definition ints_in_range (v : Entity) : Prop :=
  match v with
  | EHost h => Yaml.in_int_range (Host.Port h) = true
  | EConfig c =>
      Yaml.in_int_range (Config.DefaultSSHPort c) = true ∧
      Yaml.in_int_range (Config.SSHTimeout c) = true
  | EGroup _ | ECredential _ => True
  end.

(** [x.Validate() == nil], for the kinds that have the method. *)
Definition valid (v : Entity) : Prop :=
  match v with
  | EHost h => Host.Validate h = None
  | EGroup g => Group.Validate g = None
  | ECredential c => Credential.Validate c = None
  | EConfig c =>
      (1 ≤ Config.DefaultSSHPort c ≤ 65535)%Z ∧ (0 < Config.SSHTimeout c)%Z
  end.

(** What the editor cannot reach: the tag and the two runtime fields. *)
Definition same_identity (cfg cfg' : Config.t) : Prop :=
  Config.Type_ cfg' = Config.Type_ cfg
  ∧ Config.BaseDir cfg' = Config.BaseDir cfg
  ∧ Config.ConfigPath cfg' = Config.ConfigPath cfg.

(** What every operation does to a loaded configuration: the struct
    that is in memory afterwards, whatever the operation returns. *)
Definition edited (op : GlobalConfig.operation) (cfg : Config.t) : Config.t :=
  match op with
  | GlobalConfig.OpSave => cfg
  | GlobalConfig.OpSetDataDir dir => ConfigEditor.SetDataDir dir cfg
  | GlobalConfig.OpSetTheme theme => ConfigEditor.SetTheme theme cfg
  | GlobalConfig.OpSetLanguage lang => ConfigEditor.SetLanguage lang cfg
  | GlobalConfig.OpSetDefaultSSHPort port =>
      (ConfigEditor.SetDefaultSSHPort port cfg).2
  | GlobalConfig.OpSetSSHTimeout timeout =>
      (ConfigEditor.SetSSHTimeout timeout cfg).2
  | GlobalConfig.OpUpdate f => (ConfigEditor.run f cfg).2
  end.

(** The error an operation returns before it saves, if any. *)
Definition refused (op : GlobalConfig.operation) (cfg : Config.t)
  : option config_error :=
  match op with
  | GlobalConfig.OpSetDefaultSSHPort port =>
      (ConfigEditor.SetDefaultSSHPort port cfg).1
  | GlobalConfig.OpSetSSHTimeout timeout =>
      (ConfigEditor.SetSSHTimeout timeout cfg).1
  | GlobalConfig.OpUpdate f => (ConfigEditor.run f cfg).1
  | _ => None
  end.

(** Operations performed one after the other, whatever each returns. *)
Fixpoint perform_all (MkdirAll : string → option os_error)
    (ops : list GlobalConfig.operation) (st : GlobalConfig.state)
  : GlobalConfig.state :=
  match ops with
  | [] => st
  | op :: rest =>
      perform_all MkdirAll rest (GlobalConfig.perform MkdirAll op st).2
  end.

(** The configuration [Load] builds from a decoded file. *)
Definition loaded_from (baseDir : string) (c : Config.t) : Config.t :=
  Config.mk (Config.Type_ c) (Config.DataDir c) (Config.Theme c)
            (Config.Language c) (Config.DefaultSSHPort c)
            (Config.SSHTimeout c) baseDir "".

(** What [Heap.well_formed] and [Heap.unshared] say together: every
    name of the group map leads to a struct whose slices lie within
    their arrays, two names lead to two structs whose [HostIDs] share
    no place of an array, and no [HostIDs] shares a place with a
    [ChildGroupNames]. *)
Definition owned (st : Heap.state) : Prop :=
  (∀ n p, Heap.groups st !! n = Some p →
          ∃ g, Heap.objects st !! p = Some g
               ∧ Slice.fits (Heap.arrays st) (Heap.HostIDs g) = true
               ∧ Slice.fits (Heap.arrays st) (Heap.ChildGroupNames g) = true)
  ∧ (∀ n1 n2 p1 p2 g1 g2,
       n1 ≠ n2 →
       Heap.groups st !! n1 = Some p1 → Heap.groups st !! n2 = Some p2 →
       Heap.objects st !! p1 = Some g1 → Heap.objects st !! p2 = Some g2 →
       p1 ≠ p2 ∧ Slice.apart (Heap.HostIDs g1) (Heap.HostIDs g2) = true)
  ∧ (∀ n1 n2 p1 p2 g1 g2,
       Heap.groups st !! n1 = Some p1 → Heap.groups st !! n2 = Some p2 →
       Heap.objects st !! p1 = Some g1 → Heap.objects st !! p2 = Some g2 →
       Slice.apart (Heap.HostIDs g1) (Heap.ChildGroupNames g2) = true).

(** The child-group relation of a manager: group [a] lists [b] as a
    child and [b] is a group of the map (a name that does not resolve
    is skipped by the traversal). *)
Definition child (m : Manager.t) (a b : string) : Prop :=
  ∃ ga, Manager.groups m !! a = Some ga
        ∧ b ∈ Group.ChildGroupNames ga
        ∧ is_Some (Manager.groups m !! b).

(** Some group reachable from [a] through child links lies on a cycle. *)
Definition cyclic_from (m : Manager.t) (a : string) : Prop :=
  ∃ x, rtc (child m) a x ∧ tc (child m) x x.

(** [hostID] is listed by [a] or by a group reachable from [a]. *)
Definition listed_below (m : Manager.t) (a hostID : string) : Prop :=
  ∃ x gx, rtc (child m) a x
          ∧ Manager.groups m !! x = Some gx
          ∧ hostID ∈ Group.HostIDs gx.

(** The same union, following the recursion of [collectHosts] from a
    group value: a host id the group lists, or one that a child group
    (looked up by name) covers. *)
Inductive covers (m : Manager.t) : Group.t → string → Prop :=
  | covers_direct g hostID :
      hostID ∈ Group.HostIDs g → covers m g hostID
  | covers_child g c cg hostID :
      c ∈ Group.ChildGroupNames g →
      Manager.groups m !! c = Some cg →
      covers m cg hostID →
      covers m g hostID.

(** What [RemoveHost(id)] does to one group of the map. *)
Definition without_host (id : string) (g : Group.t) : Group.t :=
  if Group.HasHost g id then Group.RemoveHost g id else g.

(** Every reference of the manager resolves: the credential a host
    cites (when it cites one) is in the credential map, and the hosts and
    child groups a group lists are in the host map and the group map. *)
Definition consistent (m : Manager.t) : Prop :=
  (∀ k h, Manager.hosts m !! k = Some h →
          Host.CredentialID h ≠ "" →
          is_Some (Manager.credentials m !! Host.CredentialID h))
  ∧ (∀ n g, Manager.groups m !! n = Some g →
            (∀ x, x ∈ Group.HostIDs g → is_Some (Manager.hosts m !! x))
            ∧ (∀ c, c ∈ Group.ChildGroupNames g →
                    is_Some (Manager.groups m !! c))).

(** What an error of [validateRelationships] says, read as a statement
    about the maps: the entity it names is there and the reference it
    names does not resolve. *)
Definition reports_dangling (m : Manager.t) (e : error2) : Prop :=
  match e with
  | ErrHostReferencesCredential host credential =>
      ∃ k h, Manager.hosts m !! k = Some h
             ∧ Host.ID h = host ∧ Host.CredentialID h = credential
             ∧ credential ≠ "" ∧ Manager.credentials m !! credential = None
  | ErrGroupReferencesHost group host =>
      ∃ n g, Manager.groups m !! n = Some g
             ∧ Group.Name g = group ∧ host ∈ Group.HostIDs g
             ∧ Manager.hosts m !! host = None
  | ErrGroupReferencesChild group child =>
      ∃ n g, Manager.groups m !! n = Some g
             ∧ Group.Name g = group ∧ child ∈ Group.ChildGroupNames g
             ∧ Manager.groups m !! child = None
  | _ => False
  end.


(** The tag [Read] finds in the document of a value: the value's [type]
    field, or the empty tag when the struct has none. *)
Definition written_tag (v : Entity) : string := default "" (tag_of v).

(** ** Sample data, used to run the model on concrete inputs *)

Module Sample.
Definition cred1 : Credential.t :=
  Credential.mk "cred1" "admin key" "" "admin" "" "x" "".

Definition host1 : Host.t :=
  Host.mk TypeHost "host1" "server1" "" "10.0.0.1" 22 "cred1" "" "" "" [] ∅
          HostStatusUnknown 0.

(** [host1] after a successful ping. *)
Definition host1_online : Host.t :=
  Host.mk TypeHost "host1" "server1" "" "10.0.0.1" 22 "cred1" "" "" "" [] ∅
          HostStatusOnline 1700000000.

(** [name: test] / [address: 1.2.3.4], the document of the test
    "fail to read file without type field". *)
Definition no_type_doc : gmap string yval :=
  <["name" := YStr "test"]> (<["address" := YStr "1.2.3.4"]> ∅).

Definition no_type_fs : gmap string entry :=
  {["no_type.yaml" := Regular (Mapping no_type_doc)]}.

(** [type: unknown_type] / [name: test], the document of the test
    "fail to read invalid type". *)
Definition invalid_type_doc : gmap string yval :=
  <["type" := YStr "unknown_type"]> (<["name" := YStr "test"]> ∅).

(** The directory of [TestListByType], with the file that does not
    parse, a file that cannot be opened and a sub-directory added. *)
Definition listing_fs : gmap string entry :=
  <["host1.yaml" := Regular (Yaml.Marshal (EHost host1))]>
  (<["host2.yml" := Regular (Yaml.Marshal (EHost host1_online))]>
  (<["config.yaml" := Regular (Yaml.Marshal
       (EConfig (Config.mk TypeConfig "" "dark" "" 0 0 "" "")))]>
  (<["invalid.yaml" := Regular Garbage]>
  (<["locked.yaml" := Protected (Yaml.Marshal (EHost host1))]>
  (<["readme.txt" := Regular (Yaml.Marshal (EHost host1))]>
  (<["hosts.yaml" := Directory false]> ∅)))))).

(** A file layout: one directory-like prefix per kind. *)
Definition layout (kind : EntityType) (id : string) : string :=
  match kind with
  | EntityTypeHost => "host-" ++ id ++ ".yaml"
  | EntityTypeCredential => "credential-" ++ id ++ ".yaml"
  | EntityTypeGroup => "group-" ++ id ++ ".yaml"
  end.

(** A credential that fails every rule of [Credential.Validate]. *)
Definition blank_credential : Credential.t :=
  Credential.mk "" "" "" "" "" "" "".

(** A host and a group that fail [Validate] (no address, port 0; no
    name). *)
Definition blank_host : Host.t :=
  Host.mk "" "h" "" "" "" 0 "" "" "" "" [] ∅ HostStatusUnknown 0.
Definition blank_group : Group.t := Group.mk "" "" [] ∅ [].

Definition g1 : Group.t := Group.mk "g1" "" ["host1"] ∅ [].

(** A group that lists one host twice. *)
Definition g_twice : Group.t := Group.mk "g2" "" ["host1"; "host1"] ∅ [].

(** A group that names a child group nobody has created. *)
Definition g_orphan : Group.t := Group.mk "g3" "" [] ∅ ["ghost"].

(** A group that lists itself as a child. *)
Definition g_plain : Group.t := Group.mk "g" "" [] ∅ [].
Definition g_self : Group.t := Group.mk "g" "" [] ∅ ["g"].

(** [cred1] and [host1] in memory and on disk. *)
Definition st_host1 : Manager.state :=
  Manager.mkState
    (Manager.mk {["cred1" := cred1]} {["host1" := host1]} ∅)
    (<[layout EntityTypeCredential "cred1" := Regular (Yaml.Marshal (ECredential cred1))]>
     (<[layout EntityTypeHost "host1" := Regular (Yaml.Marshal (EHost host1))]> ∅)).

(** [cred1] known, and the name of [host1]'s file taken by a file
    that refuses to be opened. *)
Definition st_blocked : Manager.state :=
  Manager.mkState
    (Manager.mk {["cred1" := cred1]} ∅ ∅)
    {[layout EntityTypeHost "host1" := Protected Garbage]}.

(** [host1] in group [g1]; the file of [g1] refuses to be opened. *)
Definition st_group_blocked : Manager.state :=
  Manager.mkState
    (Manager.mk {["cred1" := cred1]} {["host1" := host1]} {["g1" := g1]})
    (<[layout EntityTypeGroup "g1" := Protected (Yaml.Marshal (EGroup g1))]>
     (<[layout EntityTypeHost "host1" := Regular (Yaml.Marshal (EHost host1))]> ∅)).

(** [host1] in group [g1], everything writable. *)
Definition st_group1 : Manager.state :=
  Manager.mkState
    (Manager.mk {["cred1" := cred1]} {["host1" := host1]} {["g1" := g1]})
    (<[layout EntityTypeGroup "g1" := Regular (Yaml.Marshal (EGroup g1))]>
     (<[layout EntityTypeHost "host1" := Regular (Yaml.Marshal (EHost host1))]> ∅)).

(** [host1] in a group that lists it twice, everything writable. *)
Definition st_twice : Manager.state :=
  Manager.mkState
    (Manager.mk {["cred1" := cred1]} {["host1" := host1]} {["g2" := g_twice]})
    (<[layout EntityTypeGroup "g2" := Regular (Yaml.Marshal (EGroup g_twice))]>
     (<[layout EntityTypeHost "host1" := Regular (Yaml.Marshal (EHost host1))]> ∅)).

Definition st_empty : Manager.state := Manager.mkState Manager.NewManager ∅.

(** A hierarchy: [all] has the children [web] and [db]; [web] lists
    [host1] and [host2], [db] lists [host2] and a host that does not
    exist. *)
Definition host2 : Host.t :=
  Host.mk TypeHost "host2" "server2" "" "10.0.0.2" 22 "cred1" "" "" "" [] ∅
          HostStatusUnknown 0.
Definition tree : Manager.t :=
  Manager.mk {["cred1" := cred1]}
    (<["host1" := host1]> {["host2" := host2]})
    (<["all" := Group.mk "all" "" [] ∅ ["web"; "db"]]>
     (<["web" := Group.mk "web" "" ["host1"; "host2"] ∅ []]>
      {["db" := Group.mk "db" "" ["host2"; "gone"] ∅ []]})).

(** Two groups that list each other. *)
Definition loop : Manager.t :=
  Manager.mk ∅ ∅
    (<["a" := Group.mk "a" "" [] ∅ ["b"]]>
     {["b" := Group.mk "b" "" [] ∅ ["a"]]}).

(** Only [cred1] known, nothing on disk yet. *)
Definition st_cred1 : Manager.state :=
  Manager.mkState (Manager.mk {["cred1" := cred1]} ∅ ∅) ∅.

Definition host3 : Host.t :=
  Host.mk TypeHost "host3" "server3" "" "10.0.0.3" 22 "cred1" "" "" "" [] ∅
          HostStatusUnknown 0.

(** Three hosts and two groups, each group with an array of its own:
    [ga] lists the three hosts, [gb] the last two; every file is there
    and writable. *)
Definition ga : Heap.group :=
  Heap.mkGroup "ga" "" (Slice.mk 0 0 3 3) ∅ Slice.empty.
Definition gb : Heap.group :=
  Heap.mkGroup "gb" "" (Slice.mk 1 0 2 2) ∅ Slice.empty.
Definition owned_arrays : gmap nat (list string) :=
  <[0%nat := ["host1"; "host2"; "host3"]]> {[1%nat := ["host2"; "host3"]]}.
Definition three_hosts : gmap string Host.t :=
  <["host1" := host1]> (<["host2" := host2]> {["host3" := host3]}).
Definition st_owned : Heap.state :=
  Heap.mkState {["cred1" := cred1]} three_hosts
    (<["ga" := 0%nat]> {["gb" := 1%nat]})
    (<[0%nat := ga]> {[1%nat := gb]})
    owned_arrays
    (<[layout EntityTypeGroup "ga"
       := Regular (Yaml.Marshal (EGroup (Heap.value owned_arrays ga)))]>
     (<[layout EntityTypeGroup "gb"
        := Regular (Yaml.Marshal (EGroup (Heap.value owned_arrays gb)))]>
      (<[layout EntityTypeHost "host1" := Regular (Yaml.Marshal (EHost host1))]> ∅))).

(** The same, with the file of [ga] refusing to be opened. *)
Definition st_owned_blocked : Heap.state :=
  Heap.mkState {["cred1" := cred1]} three_hosts
    (<["ga" := 0%nat]> {["gb" := 1%nat]})
    (<[0%nat := ga]> {[1%nat := gb]})
    owned_arrays
    (<[layout EntityTypeGroup "ga"
       := Protected (Yaml.Marshal (EGroup (Heap.value owned_arrays ga)))]>
     (<[layout EntityTypeGroup "gb"
        := Regular (Yaml.Marshal (EGroup (Heap.value owned_arrays gb)))]>
      (<[layout EntityTypeHost "host1" := Regular (Yaml.Marshal (EHost host1))]> ∅))).

(** The two groups cut from one slice:
    [ids := []string{"host1", "host2", "host3"}], [ga.HostIDs = ids],
    [gb.HostIDs = ids[1:]]. *)
Definition gb_cut : Heap.group :=
  Heap.mkGroup "gb" "" (Slice.mk 0 1 2 2) ∅ Slice.empty.
Definition shared_arrays : gmap nat (list string) :=
  {[0%nat := ["host1"; "host2"; "host3"]]}.
Definition st_shared : Heap.state :=
  Heap.mkState {["cred1" := cred1]} three_hosts
    (<["ga" := 0%nat]> {["gb" := 1%nat]})
    (<[0%nat := ga]> {[1%nat := gb_cut]})
    shared_arrays
    (<[layout EntityTypeGroup "ga"
       := Regular (Yaml.Marshal (EGroup (Heap.value shared_arrays ga)))]>
     (<[layout EntityTypeGroup "gb"
        := Regular (Yaml.Marshal (EGroup (Heap.value shared_arrays gb_cut)))]>
      (<[layout EntityTypeHost "host1" := Regular (Yaml.Marshal (EHost host1))]> ∅))).
End Sample.

(** * Properties *)

(** ** Repository *)

Section RepositoryFacts.
Implicit Types (fs : gmap string entry) (d : gmap string yval).

Lemma ReadFile_inr fs path data :
  os.ReadFile fs path = inr data ↔ fs !! path = Some (Regular data).
Proof.
  unfold os.ReadFile. destruct (fs !! path) as [[]|]; naive_solver.
Qed.




Lemma filter_by_type_elem fs t l f :
  f ∈ Repository.filter_by_type fs t l
  ↔ f ∈ l ∧ ∃ data, fs !! f = Some (Regular data)
                    ∧ Yaml.unmarshal_typeDoc data = Some t.
Proof.
  induction l as [|x l IH]; simpl.
  - set_solver.
  - destruct (os.ReadFile fs x) as [e|data] eqn:Hr.
    + rewrite IH. split; [set_solver|].
      intros [[->|?]%elem_of_cons (data & Hd & ?)]; [|eauto].
      apply ReadFile_inr in Hd. congruence.
    + apply ReadFile_inr in Hr.
      destruct (Yaml.unmarshal_typeDoc data) as [t'|] eqn:Ht.
      * case_decide as Heq.
        -- subst t'. rewrite elem_of_cons, IH. split.
           ++ intros [->|[? ?]]; [|set_solver]. split; [set_solver|eauto].
           ++ intros [[->|?]%elem_of_cons ?]; [by left|right; eauto].
        -- rewrite IH. split; [set_solver|].
           intros [[->|?]%elem_of_cons (data' & Hd & ?)]; [|eauto].
           congruence.
      * rewrite IH. split; [set_solver|].
        intros [[->|?]%elem_of_cons (data' & Hd & ?)]; [|eauto].
        congruence.
Qed.

Lemma filter_by_type_NoDup fs t l :
  NoDup l → NoDup (Repository.filter_by_type fs t l).
Proof.
  induction 1 as [|x l Hx Hl IH]; simpl; [constructor|].
  destruct (os.ReadFile fs x) as [e|data]; [done|].
  destruct (Yaml.unmarshal_typeDoc data) as [t'|]; [|done].
  case_decide; [|done]. constructor; [|done].
  rewrite filter_by_type_elem. tauto.
Qed.

Lemma List_spec fs :
  ∃ l, Repository.List fs = Ok l ∧ NoDup l ∧
       ∀ f, f ∈ l ↔ ∃ e, fs !! f = Some e ∧ os.IsDir e = false
                         ∧ Repository.isYAMLFile f = true.
Proof.
  unfold Repository.List, os.ReadDir. eexists. split; [done|]. split.
  - eapply sublist_NoDup; [apply (NoDup_fst_map_to_list fs)|].
    etrans; [apply fmap_sublist, sublist_filter|].
    rewrite <-list_fmap_compose. done.
  - intros f. rewrite list_elem_of_fmap. split.
    + intros ((n & b) & -> & Hin%list_elem_of_filter).
      destruct Hin as [Hp ((n' & e) & [= -> ->] & Hin)%list_elem_of_fmap].
      apply elem_of_map_to_list in Hin. simpl in *.
      apply andb_true_iff in Hp as [Hd Hy].
      exists e. split_and!; [done| |done]. by destruct (os.IsDir e).
    + intros (e & He & Hd & Hy). exists (f, os.IsDir e). split; [done|].
      apply list_elem_of_filter. split.
      * simpl. rewrite Hd, Hy. done.
      * apply list_elem_of_fmap. exists (f, e). split; [done|].
        by apply elem_of_map_to_list.
Qed.
End RepositoryFacts.

(** C8. For every document type [t] and every content of the base
    directory, [ListByType(t)] returns without error, and the names it
    returns are, each once, exactly the ordinary files with a [.yaml] or
    [.yml] extension whose parsed [type] field is [t].  A candidate that
    cannot be read (here a protected file) or parsed is in the directory
    but not in the answer. *)
Theorem ListByType_exact (fs : gmap string entry) (t : string) :
  ∃ l, Repository.ListByType fs t = Ok l ∧ NoDup l ∧
       ∀ f, f ∈ l ↔
            Repository.isYAMLFile f = true ∧
            ∃ data, fs !! f = Some (Regular data)
                    ∧ Yaml.unmarshal_typeDoc data = Some t.
Proof.
  unfold Repository.ListByType.
  destruct (List_spec fs) as (all & -> & Hnd & Hall).
  eexists. split; [done|]. split; [by apply filter_by_type_NoDup|].
  intros f. rewrite filter_by_type_elem, Hall. split.
  - intros [(e & He & Hd & Hy) (data & Hdata & Ht)]. eauto.
  - intros [Hy (data & Hdata & Ht)]. split; [|eauto].
    exists (Regular data). done.
Qed.

(** The cases of [repository_test.go] that do not need the [Type] field
    the tests give to groups and credentials. *)
Lemma repository_tests :
  (* TestIsYAMLFile *)
  Repository.isYAMLFile <$> ["test.yaml"; "test.yml"; "test.txt"; "test.json";
                             "test"; ".yaml"; ".yml"]
  = [true; true; false; false; false; true; true]
  (* TestRead: fail to read non-existent file *)
  ∧ Repository.Read ∅ "nonexistent.yaml" = Err (ErrFileNotFound "nonexistent.yaml")
  (* TestRead: fail to read invalid type *)
  ∧ Repository.Read {["invalid_type.yaml" := Regular (Mapping Sample.invalid_type_doc)]}
      "invalid_type.yaml" = Err (ErrUnknownDocumentType "unknown_type")
  (* TestRead: fail to read file without type field *)
  ∧ Repository.Read Sample.no_type_fs "no_type.yaml" = Err (ErrUnknownDocumentType "")
  (* TestDelete: delete non-existent file without error *)
  ∧ Repository.Delete "nonexistent.yaml" ∅ = (∅, None)
  (* TestExists *)
  ∧ Repository.Exists Sample.no_type_fs "no_type.yaml" = true
  ∧ Repository.Exists Sample.no_type_fs "not_exists.yaml" = false
  (* TestListByType: host files only; invalid and unreadable files skipped *)
  ∧ (∃ l, Repository.ListByType Sample.listing_fs TypeHost = Ok l
          ∧ l ≡ₚ ["host1.yaml"; "host2.yml"])
  ∧ Repository.ListByType Sample.listing_fs "nonexistent" = Ok [].
Proof.
  split_and!; try reflexivity.
  eexists. split; [vm_compute; reflexivity|].
  first [ reflexivity | apply Permutation_swap ].
Qed.

(** *** Encoding followed by decoding *)

Section YamlFacts.
Import Yaml.
Implicit Types (d : gmap string yval) (k s : string).

Lemma lookup_put_string_eq k s d : put_string k s d !! k = Some (YStr s).
Proof. apply lookup_insert_eq. Qed.
Lemma lookup_put_string_ne k k' s d : k ≠ k' → put_string k s d !! k' = d !! k'.
Proof. apply lookup_insert_ne. Qed.

Lemma lookup_put_int_eq k n d : put_int k n d !! k = Some (YInt n).
Proof. apply lookup_insert_eq. Qed.
Lemma lookup_put_int_ne k k' n d : k ≠ k' → put_int k n d !! k' = d !! k'.
Proof. apply lookup_insert_ne. Qed.

Lemma lookup_put_seq_eq k l d : put_seq k l d !! k = Some (YSeq l).
Proof. apply lookup_insert_eq. Qed.
Lemma lookup_put_seq_ne k k' l d : k ≠ k' → put_seq k l d !! k' = d !! k'.
Proof. apply lookup_insert_ne. Qed.

Lemma lookup_omit_string_eq k s d :
  omit_string k s d !! k = if decide (s = "") then d !! k else Some (YStr s).
Proof. unfold omit_string. case_decide; [done|]. apply lookup_insert_eq. Qed.
Lemma lookup_omit_string_ne k k' s d : k ≠ k' → omit_string k s d !! k' = d !! k'.
Proof. unfold omit_string. case_decide; [done|]. apply lookup_insert_ne. Qed.

Lemma lookup_omit_seq_eq k l d :
  omit_seq k l d !! k = match l with [] => d !! k | _ => Some (YSeq l) end.
Proof. unfold omit_seq. destruct l; [done|]. apply lookup_insert_eq. Qed.
Lemma lookup_omit_seq_ne k k' l d : k ≠ k' → omit_seq k l d !! k' = d !! k'.
Proof. unfold omit_seq. destruct l; [done|]. apply lookup_insert_ne. Qed.

Lemma lookup_omit_map_eq k m d :
  omit_map k m d !! k = if decide (m = ∅) then d !! k else Some (YMap m).
Proof. unfold omit_map. case_decide; [done|]. apply lookup_insert_eq. Qed.
Lemma lookup_omit_map_ne k k' m d : k ≠ k' → omit_map k m d !! k' = d !! k'.
Proof. unfold omit_map. case_decide; [done|]. apply lookup_insert_ne. Qed.
End YamlFacts.

(** Looking a (literal) key up in an encoded struct: one field at a time,
    skip the field when its key differs, stop at it when it is the same. *)
Ltac yaml_step :=
  match goal with
  | |- context [Yaml.put_string ?k ?s ?d !! ?k'] =>
      first [ rewrite (lookup_put_string_ne k k' s d) by discriminate
            | rewrite (lookup_put_string_eq k s d) ]
  | |- context [Yaml.put_int ?k ?n ?d !! ?k'] =>
      first [ rewrite (lookup_put_int_ne k k' n d) by discriminate
            | rewrite (lookup_put_int_eq k n d) ]
  | |- context [Yaml.put_seq ?k ?l ?d !! ?k'] =>
      first [ rewrite (lookup_put_seq_ne k k' l d) by discriminate
            | rewrite (lookup_put_seq_eq k l d) ]
  | |- context [Yaml.omit_string ?k ?s ?d !! ?k'] =>
      first [ rewrite (lookup_omit_string_ne k k' s d) by discriminate
            | rewrite (lookup_omit_string_eq k s d) ]
  | |- context [Yaml.omit_seq ?k ?l ?d !! ?k'] =>
      first [ rewrite (lookup_omit_seq_ne k k' l d) by discriminate
            | rewrite (lookup_omit_seq_eq k l d) ]
  | |- context [Yaml.omit_map ?k ?m ?d !! ?k'] =>
      first [ rewrite (lookup_omit_map_ne k k' m d) by discriminate
            | rewrite (lookup_omit_map_eq k m d) ]
  | |- context [∅ !! _] => rewrite lookup_empty
  end.

Ltac yaml_lookup := repeat yaml_step.

Section RoundTrip.
Import Yaml.

Lemma unmarshal_marshal_Host h :
  in_int_range (Host.Port h) = true →
  unmarshal_Host (marshal_Host h) = Some (Host.persisted h).
Proof.
  intros Hp. destruct h as [ty id name desc addr port cred user key pw tags vars st lp].
  simpl in Hp.
  unfold unmarshal_Host, marshal_Host, Host.persisted; simpl.
  unfold get_string, get_int, get_seq, get_map.
  yaml_lookup. simpl. rewrite Hp. simpl.
  repeat (case_decide; subst; simpl); destruct tags; reflexivity.
Qed.

Lemma unmarshal_marshal_Config c :
  in_int_range (Config.DefaultSSHPort c) = true →
  in_int_range (Config.SSHTimeout c) = true →
  unmarshal_Config (marshal_Config c) = Some (Config.persisted c).
Proof.
  intros Hp Ht. destruct c as [ty dir theme lang port timeout base path].
  simpl in Hp, Ht.
  unfold unmarshal_Config, marshal_Config, Config.persisted; simpl.
  unfold get_string, get_int.
  yaml_lookup. simpl. rewrite Hp. simpl. rewrite Ht. reflexivity.
Qed.

Lemma marshal_Host_type h :
  get_string (marshal_Host h) "type" = Some (Host.Type_ h).
Proof. unfold marshal_Host, get_string. by yaml_lookup. Qed.

Lemma marshal_Config_type c :
  get_string (marshal_Config c) "type" = Some (Config.Type_ c).
Proof. unfold marshal_Config, get_string. by yaml_lookup. Qed.

(** Neither [Group] nor [Credential] writes a [type] key. *)
Lemma marshal_Group_type g : marshal_Group g !! "type" = None.
Proof.
  unfold marshal_Group. yaml_lookup. reflexivity.
Qed.

Lemma marshal_Credential_type c : marshal_Credential c !! "type" = None.
Proof.
  unfold marshal_Credential. yaml_lookup. reflexivity.
Qed.


End RoundTrip.

Section ReadWrite.
Implicit Types (fs : gmap string entry) (d : gmap string yval).

Lemma Write_ok fs fs' filename v :
  Repository.Write filename v fs = (fs', None) →
  fs' = <[filename := Regular (Yaml.Marshal v)]> fs.
Proof.
  unfold Repository.Write, os.WriteFile.
  destruct (fs !! filename) as [[]|]; simpl; congruence.
Qed.

Lemma Write_failed fs fs' filename v e :
  Repository.Write filename v fs = (fs', Some e) →
  fs' = fs ∧ is_IO e = true.
Proof.
  unfold Repository.Write, os.WriteFile.
  destruct (fs !! filename) as [[]|]; simpl; intros [= <- <-]; done.
Qed.

Lemma Read_written fs filename v :
  tag_of v = Some (shape v) →
  ints_in_range v →
  Repository.Read (<[filename := Regular (Yaml.Marshal v)]> fs) filename
  = Ok (shape v, persisted v).
Proof.
  intros Ht Hr.
  unfold Repository.Read, os.ReadFile. rewrite lookup_insert_eq. simpl.
  destruct v as [h|g|c|c]; simpl in *; try done.
  - rewrite marshal_Host_type. injection Ht as ->.
    unfold Repository.decode_as. simpl.
    by rewrite unmarshal_marshal_Host.
  - rewrite marshal_Config_type. injection Ht as ->.
    unfold Repository.decode_as. simpl.
    destruct Hr. by rewrite unmarshal_marshal_Config.
Qed.

Lemma Read_written_untagged fs filename v :
  tag_of v = None →
  Repository.Read (<[filename := Regular (Yaml.Marshal v)]> fs) filename
  = Err (ErrUnknownDocumentType "").
Proof.
  intros Ht.
  unfold Repository.Read, os.ReadFile. rewrite lookup_insert_eq. simpl.
  destruct v as [h|g|c|c]; simpl in *; try done.
  - unfold Yaml.get_string. by rewrite marshal_Group_type.
  - unfold Yaml.get_string. by rewrite marshal_Credential_type.
Qed.

(** A [Group] or a [Credential] written through the repository cannot
    be read back: its document has no [type] key. *)
Lemma Write_Read_untagged fs fs' filename v :
  tag_of v = None →
  Repository.Write filename v fs = (fs', None) →
  Repository.Read fs' filename = Err (ErrUnknownDocumentType "").
Proof.
  intros Ht ->%Write_ok. by apply Read_written_untagged.
Qed.
End ReadWrite.

(** C7, as amended.  For every value whose [type] field holds the tag of
    its own kind (a [Host] tagged [host], a [Config] tagged [config]; the
    [Group] and [Credential] structs have no [type] field) and whose
    integers are Go [int]s, a [Write] that succeeds followed by [Read] of
    the same file name returns the tag and a value of the same concrete
    type in which every field that has a YAML key equals the field of the
    value written; the fields tagged [yaml:"-"] ([Status] and
    [LastPingTime] of a host, [BaseDir] and [ConfigPath] of a config) are
    not stored and come back as zero values. *)
Theorem Write_Read_roundtrip (fs fs' : gmap string entry) (filename : string)
    (v : Entity) :
  tag_of v = Some (shape v) →
  ints_in_range v →
  Repository.Write filename v fs = (fs', None) →
  Repository.Read fs' filename = Ok (shape v, persisted v).
Proof.
  intros Ht Hr ->%Write_ok. by apply Read_written.
Qed.

Lemma Write_Read_roundtrip_witness :
  Repository.Read
    (<["host1.yaml" := Regular (Yaml.Marshal (EHost Sample.host1_online))]> ∅)
    "host1.yaml"
  = Ok (TypeHost, EHost Sample.host1).
Proof.
  apply (Write_Read_roundtrip ∅ _ "host1.yaml" (EHost Sample.host1_online)).
  - reflexivity.
  - reflexivity.
  - reflexivity.
Defined.

(** C7, as stated, fails: a valid host that has been seen online is
    written and read back without error, but the value read has status
    unknown and no ping time, so not every field equals the field
    written. *)
Lemma Write_Read_drops_runtime_state :
  let x := Sample.host1_online in
  let fs' := (Repository.Write "host1.yaml" (EHost x) ∅).1 in
  valid (EHost x) ∧
  (Repository.Write "host1.yaml" (EHost x) ∅).2 = None ∧
  ∃ y, Repository.Read fs' "host1.yaml" = Ok (TypeHost, EHost y) ∧
       Host.Status y ≠ Host.Status x ∧
       Host.LastPingTime y ≠ Host.LastPingTime x.
Proof.
  split; [reflexivity|]. split; [reflexivity|].
  exists Sample.host1. split; [reflexivity|split; discriminate].
Qed.

Section TaggedDocuments.
Implicit Types (fs : gmap string entry) (v : Entity).




End TaggedDocuments.




(** ** Manager: adding, updating and removing entities *)

Section ManagerFacts.
Import Manager.
Variable entityFile : EntityType → string → string.
Implicit Types (st : state) (fs : gmap string entry).

Lemma Delete_ok fs fs' filename :
  Repository.Delete filename fs = (fs', None) → fs' = delete filename fs.
Proof.
  unfold Repository.Delete, os.Remove.
  destruct (fs !! filename) as [[| |[]]|] eqn:Hf; simpl; intros [= <-];
    try done.
  symmetry. by apply delete_id.
Qed.

Lemma Delete_failed fs fs' filename e :
  Repository.Delete filename fs = (fs', Some e) → fs' = fs ∧ is_IO e = true.
Proof.
  unfold Repository.Delete, os.Remove.
  destruct (fs !! filename) as [[| |[]]|]; simpl; intros [= <- <-]; done.
Qed.

(** The two search loops over [m.hosts] and [m.groups] find an entry
    exactly when there is one. *)
Lemma first_user_None id (hs : gmap string Host.t) :
  first_user id (map_to_list hs) = None
  ↔ ∀ k h, hs !! k = Some h → Host.CredentialID h ≠ id.
Proof.
  setoid_rewrite <-elem_of_map_to_list.
  induction (map_to_list hs) as [|[k h] l IH]; simpl.
  - split; [|done]. intros _ k h. by rewrite elem_of_nil.
  - case_decide as Hc.
    + split; [done|]. intros Hall. destruct (Hall k h); [left|done].
    + rewrite IH. split.
      * intros Hall k' h' [[= -> ->]|?]%elem_of_cons; eauto.
      * intros Hall k' h' ?. apply (Hall k'). by right.
Qed.

Lemma first_user_Some id (hs : gmap string Host.t) host :
  first_user id (map_to_list hs) = Some host →
  ∃ k, hs !! k = Some host ∧ Host.CredentialID host = id.
Proof.
  setoid_rewrite <-elem_of_map_to_list.
  induction (map_to_list hs) as [|[k h] l IH]; simpl; [done|].
  case_decide as Hc.
  - intros [= ->]. exists k. split; [left|done].
  - intros (k' & ? & ?)%IH. exists k'. split; [by right|done].
Qed.

Lemma first_parent_Some name (gs : gmap string Group.t) group :
  first_parent name (map_to_list gs) = Some group →
  ∃ n, gs !! n = Some group ∧ Group.HasChildGroup group name = true.
Proof.
  setoid_rewrite <-elem_of_map_to_list.
  induction (map_to_list gs) as [|[k g] l IH]; simpl; [done|].
  destruct (Group.HasChildGroup g name) eqn:Hc.
  - intros [= ->]. exists k. split; [left|done].
  - intros (k' & ? & ?)%IH. exists k'. split; [by right|done].
Qed.

Lemma first_parent_None name (gs : gmap string Group.t) :
  first_parent name (map_to_list gs) = None
  ↔ ∀ n p, gs !! n = Some p → Group.HasChildGroup p name = false.
Proof.
  setoid_rewrite <-elem_of_map_to_list.
  induction (map_to_list gs) as [|[k g] l IH]; simpl.
  - split; [|done]. intros _ k h. by rewrite elem_of_nil.
  - destruct (Group.HasChildGroup g name) eqn:Hc.
    + split; [done|]. intros Hall. rewrite (Hall k g) in Hc; [done|left].
    + rewrite IH. split.
      * intros Hall k' h' [[= -> ->]|?]%elem_of_cons; eauto.
      * intros Hall k' h' ?. apply (Hall k'). by right.
Qed.

Lemma has_elem (ids : list string) x : Group.has ids x = true ↔ x ∈ ids.
Proof.
  induction ids as [|y ids IH]; simpl.
  - rewrite elem_of_nil. split; [done|tauto].
  - rewrite elem_of_cons. case_decide; subst; [tauto|].
    rewrite IH. split; [tauto|]. intros [?|?]; [congruence|done].
Qed.

Lemma first_missing_None {A} (names : list string) (m : gmap string A) :
  first_missing names m = None ↔ ∀ x, x ∈ names → is_Some (m !! x).
Proof.
  induction names as [|y names IH]; simpl.
  - split; [|done]. intros _ x. by rewrite elem_of_nil.
  - destruct (m !! y) eqn:Hy.
    + rewrite IH. split.
      * intros Hall x [->|?]%elem_of_cons; eauto.
      * intros Hall x ?. apply Hall. by right.
    + split; [done|]. intros Hall. destruct (Hall y) as [? Hs]; [left|].
      congruence.
Qed.

Lemma first_missing_Some {A} (names : list string) (m : gmap string A) x :
  first_missing names m = Some x → x ∈ names ∧ m !! x = None.
Proof.
  induction names as [|y names IH]; simpl; [done|].
  destruct (m !! y) eqn:Hy.
  - intros [? ?]%IH. split; [by right|done].
  - intros [= <-]. split; [left|done].
Qed.
End ManagerFacts.

(** C1, as amended.  For every host [h] whose [CredentialID] is set to a
    (non-empty) id [c], [AddHost(h)] succeeds if and only if a credential
    with id [c] is in the credential map and saving the host succeeds; it
    fails with "credential not found" exactly when no such credential is
    in the map.  When it fails, for either reason, the host map is
    unchanged and no file is written (the whole state is unchanged); when
    it succeeds the host is in the map under its id and its document is in
    its file. *)
Theorem AddHost_referential_guard (entityFile : EntityType → string → string)
    (h : Host.t) (c : string) (st : Manager.state) :
  Host.CredentialID h = c →
  c ≠ "" →
  let r := Manager.AddHost entityFile (Some h) st in
  (r.1 = None ↔
     is_Some (Manager.credentials (Manager.mem st) !! c)
     ∧ (Manager.Host_Save entityFile h (Manager.disk st)).2 = None)
  ∧ (r.1 = Some (ErrCredentialNotFound c) ↔
       Manager.credentials (Manager.mem st) !! c = None)
  ∧ (r.1 ≠ None → r.2 = st)
  ∧ (r.1 = None →
       Manager.hosts (Manager.mem r.2)
       = <[Host.ID h := h]> (Manager.hosts (Manager.mem st))
       ∧ Manager.disk r.2
         = <[entityFile EntityTypeHost (Host.ID h) := Regular (Yaml.Marshal (EHost h))]>
             (Manager.disk st)).
Proof.
  intros Hc Hne. simpl. unfold Manager.AddHost, Manager.credential_reference_ok.
  rewrite Hc. rewrite decide_True by done.
  destruct (Manager.credentials (Manager.mem st) !! c) as [cr|] eqn:Hcr.
  - rewrite bool_decide_eq_true_2 by eauto. simpl.
    destruct (Manager.Host_Save entityFile h (Manager.disk st)) as [fs' [e|]] eqn:Hs;
      simpl.
    + apply Write_failed in Hs as [-> Hio]. split_and!.
      * split; [done|]. by intros [_ ?].
      * split; [|done]. intros [= ->]. done.
      * intros _. by destruct st.
      * done.
    + apply Write_ok in Hs as ->. split_and!.
      * split; [eauto|done].
      * done.
      * done.
      * done.
  - rewrite bool_decide_eq_false_2 by (by intros [? ?]). simpl. split_and!.
    + split; [done|]. by intros [[? ?] _].
    + done.
    + done.
    + done.
Qed.

Lemma AddHost_referential_guard_witness :
  (Manager.AddHost Sample.layout (Some Sample.host1) Sample.st_cred1).1 = None
  ↔ is_Some (Manager.credentials (Manager.mem Sample.st_cred1) !! "cred1")
    ∧ (Manager.Host_Save Sample.layout Sample.host1
         (Manager.disk Sample.st_cred1)).2 = None.
Proof.
  apply (AddHost_referential_guard Sample.layout Sample.host1 "cred1"
           Sample.st_cred1).
  - reflexivity.
  - discriminate.
Defined.

(** C1, as stated, fails: the credential the host cites exists, yet
    [AddHost] fails, because the host's file cannot be written. *)
Lemma AddHost_fails_with_credential_present :
  Host.CredentialID Sample.host1 = "cred1"
  ∧ is_Some (Manager.credentials (Manager.mem Sample.st_blocked) !! "cred1")
  ∧ (Manager.AddHost Sample.layout (Some Sample.host1) Sample.st_blocked).1
    = Some (ErrWriteFile "host-host1.yaml" EACCES).
Proof.
  split; [reflexivity|]. split; [by eexists|]. reflexivity.
Qed.

(** With an empty [CredentialID] the guard is skipped: the host is added
    whatever the credential map holds. *)
Lemma AddHost_without_reference (entityFile : EntityType → string → string)
    (h : Host.t) (st : Manager.state) :
  Host.CredentialID h = "" →
  (Manager.Host_Save entityFile h (Manager.disk st)).2 = None →
  (Manager.AddHost entityFile (Some h) st).1 = None.
Proof.
  intros Hc Hs. unfold Manager.AddHost, Manager.credential_reference_ok.
  rewrite Hc. simpl.
  destruct (Manager.Host_Save entityFile h (Manager.disk st)) as [fs' [e|]];
    simpl in *; done.
Qed.

(** C3. [RemoveCredential(c)] fails with the in-use error if and only if
    some host in the host map has [CredentialID] equal to [c]; the error
    names the credential; and on that failure nothing changes: the
    credential map (so the credential, if there is one) and the disk (so
    its file) are as before. *)
Theorem RemoveCredential_in_use_guard
    (entityFile : EntityType → string → string) (c : string)
    (st : Manager.state) :
  let r := Manager.RemoveCredential entityFile c st in
  ((∃ e, r.1 = Some e ∧ is_InUse e = true)
   ↔ ∃ k h, Manager.hosts (Manager.mem st) !! k = Some h
            ∧ Host.CredentialID h = c)
  ∧ (∀ e, r.1 = Some e → is_InUse e = true →
          (∃ user, e = ErrCredentialInUse c user)
          ∧ r.2 = st
          ∧ Manager.credentials (Manager.mem r.2)
            = Manager.credentials (Manager.mem st)
          ∧ Manager.disk r.2 = Manager.disk st).
Proof.
  simpl. unfold Manager.RemoveCredential.
  destruct (Manager.first_user c (map_to_list (Manager.hosts (Manager.mem st))))
    as [host|] eqn:Hu.
  - simpl. split.
    + split; [intros _|by eauto].
      apply first_user_Some in Hu as (k & Hk & Hc). eauto.
    + intros e [= <-] _. eauto.
  - pose proof (proj1 (first_user_None _ _) Hu) as Hall.
    assert (Hno : ¬ ∃ k h, Manager.hosts (Manager.mem st) !! k = Some h
                           ∧ Host.CredentialID h = c).
    { intros (k & h & Hk & Hc). by apply (Hall k h). }
    assert (Hother : ∀ o : option error * Manager.state,
               (∀ e, o.1 = Some e → is_InUse e = false) →
               ((∃ e, o.1 = Some e ∧ is_InUse e = true)
                ↔ ∃ k h, Manager.hosts (Manager.mem st) !! k = Some h
                         ∧ Host.CredentialID h = c)
               ∧ (∀ e, o.1 = Some e → is_InUse e = true →
                       (∃ user, e = ErrCredentialInUse c user)
                       ∧ o.2 = st
                       ∧ Manager.credentials (Manager.mem o.2)
                         = Manager.credentials (Manager.mem st)
                       ∧ Manager.disk o.2 = Manager.disk st)).
    { intros o Ho. split.
      - split; [|by intros ?%Hno].
        intros (e & He & Hi). apply Ho in He. congruence.
      - intros e He Hi. apply Ho in He. congruence. }
    apply Hother.
    destruct (Manager.credentials (Manager.mem st) !! c) as [cr|]; simpl.
    + destruct (Manager.Credential_Delete entityFile cr (Manager.disk st))
        as [fs' [e|]] eqn:Hd; simpl.
      * apply Delete_failed in Hd as [-> Hio]. intros e' [= <-]. by destruct e.
      * done.
    + by intros e [= <-].
Qed.

Lemma RemoveCredential_in_use_guard_witness :
  ∃ user,
    (Manager.RemoveCredential Sample.layout "cred1" Sample.st_host1).1
    = Some (ErrCredentialInUse "cred1" user)
    ∧ (Manager.RemoveCredential Sample.layout "cred1" Sample.st_host1).2
      = Sample.st_host1.
Proof.
  destruct (proj2 (RemoveCredential_in_use_guard Sample.layout "cred1"
                     Sample.st_host1)
              (ErrCredentialInUse "cred1" "host1"))
    as ((user & Hu) & Hst & _).
  - reflexivity.
  - reflexivity.
  - exists "host1". split; [reflexivity|exact Hst].
Defined.

(** The scenario of the design document: [cred1] and [host1] are
    created; [RemoveCredential("cred1")] fails and names [host1]; after
    [RemoveHost("host1")] it succeeds. *)
Lemma scenario_credential_in_use :
  let r0 := Manager.AddCredential Sample.layout (Some Sample.cred1) Sample.st_empty in
  let r1 := Manager.AddHost Sample.layout (Some Sample.host1) r0.2 in
  let r2 := Manager.RemoveCredential Sample.layout "cred1" r1.2 in
  let r3 := Manager.RemoveHost Sample.layout "host1" r2.2 in
  let r4 := Manager.RemoveCredential Sample.layout "cred1" r3.2 in
  r0.1 = None ∧ r1.1 = None
  ∧ r2.1 = Some (ErrCredentialInUse "cred1" "host1")
  ∧ r3.1 = None ∧ r4.1 = None
  ∧ r4.2 = Sample.st_empty.
Proof. cbv zeta. split_and!; reflexivity. Qed.

(** C5, as amended.  For every group name [g] present in the manager,
    [RemoveGroup(g)] is refused as in-use if and only if some group of
    the group map, [g] itself included, lists [g] among its child
    groups; the refusal changes nothing.  Otherwise the group's file is
    deleted and, when that deletion succeeds, the group leaves the map; a
    failed deletion is returned as an I/O error and changes nothing. *)
Theorem RemoveGroup_child_guard (entityFile : EntityType → string → string)
    (name : string) (g : Group.t) (st : Manager.state) :
  Manager.groups (Manager.mem st) !! name = Some g →
  let r := Manager.RemoveGroup entityFile name st in
  let file := entityFile EntityTypeGroup (Group.Name g) in
  ((∃ e, r.1 = Some e ∧ is_InUse e = true)
   ↔ ∃ n p, Manager.groups (Manager.mem st) !! n = Some p
            ∧ Group.HasChildGroup p name = true)
  ∧ (∀ e, r.1 = Some e → is_InUse e = true →
          (∃ parent, e = ErrGroupIsChild name parent) ∧ r.2 = st)
  ∧ ((∀ n p, Manager.groups (Manager.mem st) !! n = Some p →
             Group.HasChildGroup p name = false) →
     match (Manager.Group_Delete entityFile g (Manager.disk st)).2 with
     | None =>
         r.1 = None
         ∧ Manager.groups (Manager.mem r.2)
           = delete name (Manager.groups (Manager.mem st))
         ∧ Manager.disk r.2 = delete file (Manager.disk st)
     | Some e => r.1 = Some e ∧ is_IO e = true ∧ r.2 = st
     end).
Proof.
  intros Hg. simpl. unfold Manager.RemoveGroup.
  destruct (Manager.first_parent name
              (map_to_list (Manager.groups (Manager.mem st))))
    as [group|] eqn:Hp.
  - simpl. apply first_parent_Some in Hp as (n & Hn & Hc). split_and!.
    + split; [eauto|]. intros _. eexists. by split.
    + intros e [= <-] _. eauto.
    + intros Hall. rewrite (Hall n group Hn) in Hc. done.
  - pose proof (proj1 (first_parent_None _ _) Hp) as Hall.
    rewrite Hg.
    destruct (Manager.Group_Delete entityFile g (Manager.disk st))
      as [fs' [e|]] eqn:Hd; simpl.
    + apply Delete_failed in Hd as [-> Hio]. split_and!.
      * split.
        -- intros (e' & [= <-] & Hi). by destruct e.
        -- intros (n & p & Hn & Hc). rewrite (Hall n p Hn) in Hc. done.
      * intros e' [= <-] Hi. by destruct e.
      * intros _. split_and!; [done..|]. by destruct st.
    + apply Delete_ok in Hd as ->. split_and!.
      * split; [by intros (e' & [=] & _)|].
        intros (n & p & Hn & Hc). rewrite (Hall n p Hn) in Hc. done.
      * done.
      * done.
Qed.

Lemma RemoveGroup_child_guard_witness :
  (∃ e, (Manager.RemoveGroup Sample.layout "g1" Sample.st_group_blocked).1 = Some e
        ∧ is_InUse e = true)
  ↔ ∃ n p, Manager.groups (Manager.mem Sample.st_group_blocked) !! n = Some p
           ∧ Group.HasChildGroup p "g1" = true.
Proof.
  apply (RemoveGroup_child_guard Sample.layout "g1" Sample.g1
           Sample.st_group_blocked).
  reflexivity.
Defined.

(** C5, as stated, fails.  The group [g] is created, then added again
    listing itself as a child (the child check passes: [g] exists).  No
    group other than [g] lists [g], yet [RemoveGroup(g)] is refused. *)
Lemma RemoveGroup_refuses_own_child :
  let r1 := Manager.AddGroup Sample.layout (Some Sample.g_plain) Sample.st_empty in
  let r2 := Manager.AddGroup Sample.layout (Some Sample.g_self) r1.2 in
  r1.1 = None ∧ r2.1 = None
  ∧ Manager.groups (Manager.mem r2.2) !! "g" = Some Sample.g_self
  ∧ (∀ n p, n ≠ "g" → Manager.groups (Manager.mem r2.2) !! n = Some p →
            Group.HasChildGroup p "g" = false)
  ∧ (Manager.RemoveGroup Sample.layout "g" r2.2).1
    = Some (ErrGroupIsChild "g" "g").
Proof.
  cbv zeta. split_and!; try reflexivity.
  intros n p Hn.
  assert (Manager.groups
            (Manager.mem
               (Manager.AddGroup Sample.layout (Some Sample.g_self)
                  (Manager.AddGroup Sample.layout (Some Sample.g_plain)
                     Sample.st_empty).2).2)
          = <["g" := Sample.g_self]> (<["g" := Sample.g_plain]> ∅)) as ->
      by reflexivity.
  rewrite !lookup_insert_ne by done. by rewrite lookup_empty.
Qed.

(** C2 fails on the code at [UpdateGroup]: a group that names a child
    group nobody created is rejected by [AddGroup], but [UpdateGroup]
    accepts it, writes its file and puts it in the group map. *)
Lemma UpdateGroup_accepts_missing_child :
  let r := Manager.UpdateGroup Sample.layout (Some Sample.g_orphan) Sample.st_empty in
  Group.ChildGroupNames Sample.g_orphan = ["ghost"]
  ∧ Manager.groups (Manager.mem Sample.st_empty) !! "ghost" = None
  ∧ (Manager.AddGroup Sample.layout (Some Sample.g_orphan) Sample.st_empty).1
    = Some (ErrChildGroupNotFound "ghost")
  ∧ r.1 = None
  ∧ Manager.groups (Manager.mem r.2) !! "g3" = Some Sample.g_orphan
  ∧ Manager.disk r.2 !! "group-g3.yaml"
    = Some (Regular (Yaml.Marshal (EGroup Sample.g_orphan))).
Proof. simpl. split_and!; reflexivity. Qed.

(** The part of C2 that holds for all six operations: the maps change
    only when the operation succeeds, that is, after the save has
    succeeded. *)
Lemma maps_change_only_on_success (entityFile : EntityType → string → string)
    (st : Manager.state) :
  (∀ c, (Manager.AddCredential entityFile c st).1 ≠ None →
        (Manager.AddCredential entityFile c st).2 = st)
  ∧ (∀ c, (Manager.UpdateCredential entityFile c st).1 ≠ None →
          (Manager.UpdateCredential entityFile c st).2 = st)
  ∧ (∀ h, (Manager.AddHost entityFile h st).1 ≠ None →
          (Manager.AddHost entityFile h st).2 = st)
  ∧ (∀ h, (Manager.UpdateHost entityFile h st).1 ≠ None →
          (Manager.UpdateHost entityFile h st).2 = st)
  ∧ (∀ g, (Manager.AddGroup entityFile g st).1 ≠ None →
          (Manager.AddGroup entityFile g st).2 = st)
  ∧ (∀ g, (Manager.UpdateGroup entityFile g st).1 ≠ None →
          (Manager.UpdateGroup entityFile g st).2 = st).
Proof.
  destruct st as [m fs].
  split_and!; intros [x|]; simpl; try done;
    unfold Manager.AddCredential, Manager.UpdateCredential, Manager.AddHost,
      Manager.UpdateHost, Manager.AddGroup, Manager.UpdateGroup,
      Manager.Credential_Save, Manager.Host_Save, Manager.Group_Save; simpl;
    repeat match goal with
           | |- context [negb ?b] => destruct b; simpl; try done
           | |- context [Manager.first_missing ?l ?m] =>
               destruct (Manager.first_missing l m); simpl; try done
           | |- context [Repository.Write ?f ?v ?d] =>
               let Hw := fresh "Hw" in
               destruct (Repository.Write f v d) as [? [?|]] eqn:Hw; simpl;
               try done;
               apply Write_failed in Hw as [-> _]; try done
           end.
Qed.

(** C10, as amended.  The add and update operations do not call
    [Validate].  For every credential [c], valid or not, whose file the
    disk accepts, [AddCredential(c)] and [UpdateCredential(c)] succeed,
    write the document of [c] and store [c] under the key [c.ID],
    whatever that string is; when the disk refuses the file they return
    the error of the write and change nothing.  For hosts the only
    further condition is the credential reference, for groups the host
    references and (in [AddGroup]) the child-group references.  No
    error any of the six returns is a validation error. *)
Theorem Add_Update_do_not_validate (entityFile : EntityType → string → string)
    (st : Manager.state) :
  let creds := Manager.credentials (Manager.mem st) in
  let hosts := Manager.hosts (Manager.mem st) in
  let groups := Manager.groups (Manager.mem st) in
  let fs := Manager.disk st in
  (∀ c, (Manager.Credential_Save entityFile c fs).2 = None →
     ∀ r, r = Manager.AddCredential entityFile (Some c) st
          ∨ r = Manager.UpdateCredential entityFile (Some c) st →
     r.1 = None
     ∧ Manager.credentials (Manager.mem r.2) = <[Credential.ID c := c]> creds
     ∧ Manager.disk r.2
       = <[entityFile EntityTypeCredential (Credential.ID c)
           := Regular (Yaml.Marshal (ECredential c))]> fs)
  ∧ (∀ h, Manager.credential_reference_ok (Manager.mem st) h = true →
          (Manager.Host_Save entityFile h fs).2 = None →
     ∀ r, r = Manager.AddHost entityFile (Some h) st
          ∨ r = Manager.UpdateHost entityFile (Some h) st →
     r.1 = None
     ∧ Manager.hosts (Manager.mem r.2) = <[Host.ID h := h]> hosts
     ∧ Manager.disk r.2
       = <[entityFile EntityTypeHost (Host.ID h)
           := Regular (Yaml.Marshal (EHost h))]> fs)
  ∧ (∀ g, Manager.first_missing (Group.HostIDs g) hosts = None →
          (Manager.Group_Save entityFile g fs).2 = None →
     ∀ r, (Manager.first_missing (Group.ChildGroupNames g) groups = None
           ∧ r = Manager.AddGroup entityFile (Some g) st)
          ∨ r = Manager.UpdateGroup entityFile (Some g) st →
     r.1 = None
     ∧ Manager.groups (Manager.mem r.2) = <[Group.Name g := g]> groups
     ∧ Manager.disk r.2
       = <[entityFile EntityTypeGroup (Group.Name g)
           := Regular (Yaml.Marshal (EGroup g))]> fs)
  ∧ (∀ c e, (Manager.Credential_Save entityFile c fs).2 = Some e →
       ∀ r, r = Manager.AddCredential entityFile (Some c) st
            ∨ r = Manager.UpdateCredential entityFile (Some c) st →
       r = (Some e, st))
  ∧ (∀ h e, Manager.credential_reference_ok (Manager.mem st) h = true →
            (Manager.Host_Save entityFile h fs).2 = Some e →
       ∀ r, r = Manager.AddHost entityFile (Some h) st
            ∨ r = Manager.UpdateHost entityFile (Some h) st →
       r = (Some e, st))
  ∧ (∀ g e, Manager.first_missing (Group.HostIDs g) hosts = None →
            (Manager.Group_Save entityFile g fs).2 = Some e →
       ∀ r, (Manager.first_missing (Group.ChildGroupNames g) groups = None
             ∧ r = Manager.AddGroup entityFile (Some g) st)
            ∨ r = Manager.UpdateGroup entityFile (Some g) st →
       r = (Some e, st))
  ∧ (∀ c h g e,
       (Manager.AddCredential entityFile c st).1 = Some e
       ∨ (Manager.UpdateCredential entityFile c st).1 = Some e
       ∨ (Manager.AddHost entityFile h st).1 = Some e
       ∨ (Manager.UpdateHost entityFile h st).1 = Some e
       ∨ (Manager.AddGroup entityFile g st).1 = Some e
       ∨ (Manager.UpdateGroup entityFile g st).1 = Some e →
       is_Validation e = false).
Proof.
  destruct st as [m fs]. simpl. split_and!.
  - intros c Hs r Hr.
    unfold Manager.AddCredential, Manager.UpdateCredential in Hr. simpl in Hr.
    destruct (Manager.Credential_Save entityFile c fs) as [fs' [e|]] eqn:Hw;
      [done|].
    apply Write_ok in Hw as ->. by destruct Hr as [-> | ->].
  - intros h Hok Hs r Hr.
    unfold Manager.AddHost, Manager.UpdateHost in Hr. simpl in Hr.
    rewrite Hok in Hr. simpl in Hr.
    destruct (Manager.Host_Save entityFile h fs) as [fs' [e|]] eqn:Hw; [done|].
    apply Write_ok in Hw as ->. by destruct Hr as [-> | ->].
  - intros g Hh Hs r Hr.
    unfold Manager.AddGroup, Manager.UpdateGroup in Hr. simpl in Hr.
    rewrite Hh in Hr.
    destruct (Manager.Group_Save entityFile g fs) as [fs' [e|]] eqn:Hw; [done|].
    apply Write_ok in Hw as ->.
    destruct Hr as [[Hc ->] | ->]; [by rewrite Hc|done].
  - intros c e Hs r Hr.
    unfold Manager.AddCredential, Manager.UpdateCredential in Hr. simpl in Hr.
    destruct (Manager.Credential_Save entityFile c fs) as [fs' [e'|]] eqn:Hw;
      [|done].
    apply Write_failed in Hw as [-> _]. simpl in Hs. injection Hs as ->.
    by destruct Hr as [-> | ->].
  - intros h e Hok Hs r Hr.
    unfold Manager.AddHost, Manager.UpdateHost in Hr. simpl in Hr.
    rewrite Hok in Hr. simpl in Hr.
    destruct (Manager.Host_Save entityFile h fs) as [fs' [e'|]] eqn:Hw; [|done].
    apply Write_failed in Hw as [-> _]. simpl in Hs. injection Hs as ->.
    by destruct Hr as [-> | ->].
  - intros g e Hh Hs r Hr.
    unfold Manager.AddGroup, Manager.UpdateGroup in Hr. simpl in Hr.
    rewrite Hh in Hr.
    destruct (Manager.Group_Save entityFile g fs) as [fs' [e'|]] eqn:Hw; [|done].
    apply Write_failed in Hw as [-> _]. simpl in Hs. injection Hs as ->.
    destruct Hr as [[Hc ->] | ->]; [by rewrite Hc|done].
  - intros c h g e.
    unfold Manager.AddCredential, Manager.UpdateCredential, Manager.AddHost,
      Manager.UpdateHost, Manager.AddGroup, Manager.UpdateGroup,
      Manager.Credential_Save, Manager.Host_Save, Manager.Group_Save.
    simpl.
    intros Hcases.
    repeat match type of Hcases with _ ∨ _ => destruct Hcases as [Hcases|Hcases] end;
      revert Hcases;
      repeat match goal with
             | |- context [match ?x with Some _ => _ | None => _ end] =>
                 destruct x; simpl
             | |- context [negb ?b] => destruct b; simpl
             | |- context [Repository.Write ?f ?v ?d] =>
                 let Hw := fresh "Hw" in
                 destruct (Repository.Write f v d) as [? [?|]] eqn:Hw; simpl;
                 [apply Write_failed in Hw as [-> ?]|]
             end;
      intros [= <-]; try done;
      match goal with H : is_IO ?e = true |- _ => by destruct e end.
Qed.

Lemma Add_Update_do_not_validate_witness :
  Credential.Validate Sample.blank_credential ≠ None
  ∧ (Manager.AddCredential Sample.layout (Some Sample.blank_credential)
       Sample.st_empty).1 = None
  ∧ Manager.credentials
      (Manager.mem
         (Manager.AddCredential Sample.layout (Some Sample.blank_credential)
            Sample.st_empty).2)
    = <["" := Sample.blank_credential]> ∅.
Proof.
  split; [discriminate|].
  destruct (proj1 (Add_Update_do_not_validate Sample.layout Sample.st_empty)
              Sample.blank_credential eq_refl
              (Manager.AddCredential Sample.layout
                 (Some Sample.blank_credential) Sample.st_empty)
              (or_introl eq_refl)) as (He & Hc & _).
  split; [exact He|exact Hc].
Defined.

(** C10, as stated, fails on "for every non-nil credential": the
    credential [cred1], which passes [Validate], is neither persisted
    nor stored when the name of its file is taken by a directory;
    [AddCredential] returns the error of the write. *)
Lemma AddCredential_file_refused :
  let st := Manager.mkState Manager.NewManager
              {[Sample.layout EntityTypeCredential "cred1" := Directory true]} in
  let r := Manager.AddCredential Sample.layout (Some Sample.cred1) st in
  Credential.Validate Sample.cred1 = None
  ∧ r.1 = Some (ErrWriteFile (Sample.layout EntityTypeCredential "cred1") EISDIR)
  ∧ Manager.credentials (Manager.mem r.2) !! "cred1" = None
  ∧ Manager.disk r.2 = Manager.disk st.
Proof. cbv zeta. split_and!; reflexivity. Qed.

(** ** Manager: the cascade of [RemoveHost] *)

Section Cascade.
Import Manager.
Variable entityFile : EntityType → string → string.

Lemma remove_first_not_elem (ids : list string) x :
  NoDup ids → x ∉ Group.remove_first ids x.
Proof.
  induction 1 as [|y ids Hy Hnd IH]; simpl.
  - apply not_elem_of_nil.
  - case_decide; subst; [done|].
    rewrite elem_of_cons. intros [?|?]; [congruence|done].
Qed.

Lemma remove_first_other (ids : list string) x y :
  y ≠ x → y ∈ Group.remove_first ids x ↔ y ∈ ids.
Proof.
  intros Hne. induction ids as [|z ids IH]; simpl; [done|].
  case_decide; subst.
  - rewrite elem_of_cons. split; [tauto|]. intros [?|?]; [congruence|done].
  - by rewrite !elem_of_cons, IH.
Qed.

(** Groups built with [NewGroup] and [AddHost] list no host twice. *)
Lemma Group_AddHost_NoDup g hostID :
  NoDup (Group.HostIDs g) → NoDup (Group.HostIDs (Group.AddHost g hostID)).
Proof.
  intros Hnd. unfold Group.AddHost, Group.HasHost.
  destruct (Group.has (Group.HostIDs g) hostID) eqn:Hh; simpl; [done|].
  apply NoDup_app. split_and!; [done| |apply NoDup_singleton].
  intros x Hx ->%list_elem_of_singleton.
  apply has_elem in Hx. congruence.
Qed.

Lemma without_host_not_elem id g :
  NoDup (Group.HostIDs g) → id ∉ Group.HostIDs (without_host id g).
Proof.
  intros Hnd. unfold without_host, Group.HasHost.
  destruct (Group.has (Group.HostIDs g) id) eqn:Hh; simpl.
  - by apply remove_first_not_elem.
  - intros Hin%has_elem. congruence.
Qed.

(** The loop leaves in each entry of the group map the group it held,
    without the host. *)
Lemma cascade_step id acc fs n g :
  acc !! n = Some g →
  ∃ fs', cascade entityFile id (acc, fs) (n, g)
         = (<[n := without_host id g]> acc, fs').
Proof.
  intros Hng. unfold cascade, without_host. simpl.
  destruct (Group.HasHost g id); eexists; [done|]. by rewrite insert_id.
Qed.

Lemma cascade_lookup_other id (l : list (string * Group.t)) acc fs k :
  (∀ n g, (n, g) ∈ l → acc !! n = Some g) →
  NoDup l.*1 →
  k ∉ l.*1 →
  (foldl (cascade entityFile id) (acc, fs) l).1 !! k = acc !! k.
Proof.
  revert acc fs. induction l as [|[n g] l IH]; intros acc fs Hacc Hnd Hk.
  - done.
  - rewrite fmap_cons in Hnd, Hk. inversion Hnd as [|? ? Hn Hl]; subst.
    apply not_elem_of_cons in Hk as [Hkn Hk]. simpl in Hkn.
    destruct (cascade_step id acc fs n g) as [fs' Hs]; [apply Hacc; left|].
    cbn [foldl]. rewrite Hs, IH; [by rewrite lookup_insert_ne|..|done|done].
    intros n' g' Hin. rewrite lookup_insert_ne.
    + apply Hacc. by right.
    + intros ->. apply Hn. apply list_elem_of_fmap. by exists (n', g').
Qed.

Lemma cascade_lookup id (l : list (string * Group.t)) acc fs k g :
  (∀ n g, (n, g) ∈ l → acc !! n = Some g) →
  NoDup l.*1 →
  (k, g) ∈ l →
  (foldl (cascade entityFile id) (acc, fs) l).1 !! k
  = Some (without_host id g).
Proof.
  revert acc fs. induction l as [|[n g0] l IH]; intros acc fs Hacc Hnd Hk.
  - by apply elem_of_nil in Hk.
  - rewrite fmap_cons in Hnd. inversion Hnd as [|? ? Hn Hl]; subst.
    destruct (cascade_step id acc fs n g0) as [fs' Hs]; [apply Hacc; left|].
    cbn [foldl]. rewrite Hs.
    assert (Hacc' : ∀ n' g', (n', g') ∈ l →
                             <[n := without_host id g0]> acc !! n' = Some g').
    { intros n' g' Hin. rewrite lookup_insert_ne.
      - apply Hacc. by right.
      - intros ->. apply Hn. apply list_elem_of_fmap. by exists (n', g'). }
    apply elem_of_cons in Hk as [[= -> ->]|Hk].
    + rewrite cascade_lookup_other; [apply lookup_insert_eq|done..].
    + by apply IH.
Qed.

Lemma cascade_groups id (gs : gmap string Group.t) fs :
  (foldl (cascade entityFile id) (gs, fs) (map_to_list gs)).1
  = without_host id <$> gs.
Proof.
  assert (Hacc : ∀ n g, (n, g) ∈ map_to_list gs → gs !! n = Some g).
  { intros n g. apply elem_of_map_to_list. }
  apply map_eq. intros k. rewrite lookup_fmap.
  destruct (gs !! k) as [g|] eqn:Hg; simpl.
  - apply cascade_lookup; [done|apply NoDup_fst_map_to_list|].
    by apply elem_of_map_to_list.
  - rewrite cascade_lookup_other; [done..|apply NoDup_fst_map_to_list|].
    intros ((n & g) & -> & Hin%elem_of_map_to_list)%list_elem_of_fmap.
    simpl in Hg. congruence.
Qed.

End Cascade.

(** The scenario of the design document: with a writable disk,
    [g1.hostIDs] becomes empty and [g1] is persisted again. *)
Lemma RemoveHost_scenario :
  let r := Manager.RemoveHost Sample.layout "host1" Sample.st_group1 in
  r.1 = None
  ∧ Group.HostIDs <$> Manager.groups (Manager.mem r.2) !! "g1" = Some []
  ∧ Manager.disk r.2 !! Sample.layout EntityTypeGroup "g1"
    = Some (Regular (Yaml.Marshal (EGroup (Group.RemoveHost Sample.g1 "host1"))))
  ∧ Manager.disk r.2 !! Sample.layout EntityTypeHost "host1" = None.
Proof. cbv zeta. split_and!; reflexivity. Qed.

(** Where the code departs from C4 by a slip: [Group.RemoveHost] returns
    after the first match, so a group that lists the host twice (such a
    group passes [AddGroup]) still lists it once after the host is gone. *)
Lemma RemoveHost_keeps_second_occurrence :
  let r0 := Manager.AddCredential Sample.layout (Some Sample.cred1) Sample.st_empty in
  let r1 := Manager.AddHost Sample.layout (Some Sample.host1) r0.2 in
  let r2 := Manager.AddGroup Sample.layout (Some Sample.g_twice) r1.2 in
  let r := Manager.RemoveHost Sample.layout "host1" r2.2 in
  r0.1 = None ∧ r1.1 = None ∧ r2.1 = None
  ∧ r.1 = None
  ∧ Manager.hosts (Manager.mem r.2) !! "host1" = None
  ∧ Group.HostIDs <$> Manager.groups (Manager.mem r.2) !! "g2" = Some ["host1"].
Proof. cbv zeta. split_and!; reflexivity. Qed.

(** ** Manager: the hosts of a group hierarchy *)

Section Traversal.
Import Manager.
Variable m : t.
Implicit Types (hm : gmap string Host.t) (g : Group.t).

Lemma add_direct_spec hm hostID :
  hm ⊆ hosts m →
  add_direct m hm hostID ⊆ hosts m
  ∧ ∀ k h, add_direct m hm hostID !! k = Some h
           ↔ hm !! k = Some h ∨ (k = hostID ∧ hosts m !! k = Some h).
Proof.
  intros Hsub. unfold add_direct.
  destruct (hosts m !! hostID) as [h0|] eqn:Hh.
  - split.
    + by apply insert_subseteq_l.
    + intros k h. rewrite lookup_insert_Some. split.
      * intros [[<- <-]|[? ?]]; [right|left]; done.
      * intros [Hk|[-> Hk]].
        -- destruct (decide (hostID = k)) as [<-|]; [left|right; done].
           split; [done|]. eapply lookup_weaken in Hk; [|done]. congruence.
        -- left. split; [done|congruence].
  - split; [done|]. intros k h. split; [by left|].
    intros [?|[-> ?]]; [done|congruence].
Qed.

Lemma add_direct_fold ids hm :
  hm ⊆ hosts m →
  foldl (add_direct m) hm ids ⊆ hosts m
  ∧ ∀ k h, foldl (add_direct m) hm ids !! k = Some h
           ↔ hm !! k = Some h ∨ (k ∈ ids ∧ hosts m !! k = Some h).
Proof.
  revert hm. induction ids as [|id ids IH]; intros hm Hsub; simpl.
  - split; [done|]. intros k h. rewrite elem_of_nil. tauto.
  - destruct (add_direct_spec hm id Hsub) as [Hsub1 H1].
    destruct (IH _ Hsub1) as [Hsub2 H2]. split; [done|].
    intros k h. rewrite H2, H1, elem_of_cons. naive_solver.
Qed.

Section Children.
Variable collect : Group.t → gmap string Host.t → option (gmap string Host.t).

Lemma visit_fold_None l : foldl (visit_child m collect) None l = None.
Proof. induction l; simpl; done. Qed.

Lemma visit_fold_is_Some l acc :
  is_Some acc →
  (∀ c cg hm, c ∈ l → groups m !! c = Some cg → is_Some (collect cg hm)) →
  is_Some (foldl (visit_child m collect) acc l).
Proof.
  revert acc. induction l as [|c l IH]; intros acc Hacc Hall; simpl; [done|].
  apply IH.
  - destruct Hacc as [hm ->]. simpl.
    destruct (groups m !! c) as [cg|] eqn:Hc; [|done].
    apply (Hall c); [left|done].
  - intros c' cg hm ?. apply Hall. by right.
Qed.

Lemma visit_fold_stuck l acc c cg :
  c ∈ l →
  groups m !! c = Some cg →
  (∀ hm, collect cg hm = None) →
  foldl (visit_child m collect) acc l = None.
Proof.
  revert acc. induction l as [|c' l IH]; intros acc Hin Hc Hnone.
  - by apply elem_of_nil in Hin.
  - simpl. apply elem_of_cons in Hin as [<-|Hin].
    + destruct acc as [hm|]; simpl; [|apply visit_fold_None].
      rewrite Hc, Hnone. apply visit_fold_None.
    + by apply IH.
Qed.

Hypothesis collect_covers : ∀ g hm hm',
  hm ⊆ hosts m →
  collect g hm = Some hm' →
  hm' ⊆ hosts m
  ∧ ∀ k h, hm' !! k = Some h
           ↔ hm !! k = Some h ∨ (hosts m !! k = Some h ∧ covers m g k).

Lemma visit_fold_covers l hm hm' :
  hm ⊆ hosts m →
  foldl (visit_child m collect) (Some hm) l = Some hm' →
  hm' ⊆ hosts m
  ∧ ∀ k h, hm' !! k = Some h
           ↔ hm !! k = Some h
             ∨ (hosts m !! k = Some h
                ∧ ∃ c cg, c ∈ l ∧ groups m !! c = Some cg ∧ covers m cg k).
Proof.
  revert hm. induction l as [|c l IH]; intros hm Hsub; simpl.
  - intros [= <-]. split; [done|]. intros k h. split; [by left|].
    intros [?|(_ & c & cg & []%elem_of_nil & _)]. done.
  - destruct (groups m !! c) as [cg|] eqn:Hc.
    + destruct (collect cg hm) as [hm1|] eqn:H1;
        [|by rewrite visit_fold_None].
      destruct (collect_covers cg hm hm1 Hsub H1) as [Hsub1 Hc1].
      intros [Hsub' H']%IH; [|done]. split; [done|].
      intros k h. rewrite H', Hc1. split.
      * intros [[?|[? ?]]|(? & c' & cg' & ? & ? & ?)]; [by left|right..].
        -- split; [done|]. exists c, cg. split; [left|done].
        -- split; [done|]. exists c', cg'. split; [by right|done].
      * intros [?|(? & c' & cg' & [->|?]%elem_of_cons & Hc' & ?)].
        -- by left; left.
        -- left; right. split; [done|]. congruence.
        -- right. split; [done|]. by exists c', cg'.
    + intros [Hsub' H']%IH; [|done]. split; [done|].
      intros k h. rewrite H'. split.
      * intros [?|(? & c' & cg' & ? & ? & ?)]; [by left|right].
        split; [done|]. exists c', cg'. split; [by right|done].
      * intros [?|(? & c' & cg' & [->|?]%elem_of_cons & Hc' & ?)].
        -- by left.
        -- congruence.
        -- right. split; [done|]. by exists c', cg'.
Qed.
End Children.

(** What a call of [collectHosts] that returns has added to the map. *)
Lemma collectHosts_covers depth g hm hm' :
  hm ⊆ hosts m →
  collectHosts depth m g hm = Some hm' →
  hm' ⊆ hosts m
  ∧ ∀ k h, hm' !! k = Some h
           ↔ hm !! k = Some h ∨ (hosts m !! k = Some h ∧ covers m g k).
Proof.
  revert g hm hm'. induction depth as [|depth IH]; intros g hm hm' Hsub;
    [done|]. simpl.
  destruct (add_direct_fold (Group.HostIDs g) hm Hsub) as [Hsub1 H1].
  intros [Hsub' H']%(visit_fold_covers _ IH); [|done]. split; [done|].
  intros k h. rewrite H', H1. split.
  - intros [[?|[? ?]]|(? & c & cg & ? & ? & ?)]; [by left|right..].
    + split; [done|]. by apply covers_direct.
    + split; [done|]. by eapply covers_child.
  - intros [?|[Hk Hcov]]; [by left; left|].
    inversion Hcov as [? ? Hin|? c cg ? Hin Hc Hcg]; subst.
    + left; right. done.
    + right. split; [done|]. by exists c, cg.
Qed.

(** The two descriptions of the union agree. *)
Lemma covers_listed_below name g hostID :
  groups m !! name = Some g →
  covers m g hostID ↔ listed_below m name hostID.
Proof.
  intros Hg. split.
  - intros Hcov. revert name Hg.
    induction Hcov as [g k Hin|g c cg k Hin Hc Hcov IH]; intros name Hg.
    + exists name, g. by split.
    + destruct (IH c Hc) as (x & gx & Hr & Hx & Hk).
      exists x, gx. split; [|done].
      eapply rtc_l; [|done]. exists g. by split.
  - intros (x & gx & Hr & Hx & Hk). revert g Hg.
    induction Hr as [x|a b x Hab Hr IH]; intros g Hg.
    + apply covers_direct. congruence.
    + destruct Hab as (ga & Ha & Hb & [gb Hgb]).
      assert (ga = g) as -> by congruence.
      eapply covers_child; [done..|]. by apply IH.
Qed.

(** *** Without a cycle the recursion returns *)

Lemma collectHosts_returns depth (V : gset string) name g hm :
  groups m !! name = Some g →
  name ∉ V →
  (∀ v, v ∈ V → tc (child m) v name) →
  ¬ cyclic_from m name →
  (size (dom (groups m) ∖ V) ≤ depth)%nat →
  is_Some (collectHosts depth m g hm).
Proof.
  revert V name g hm.
  induction depth as [|depth IH]; intros V name g hm Hg HV Hanc Hacyc Hsize.
  - exfalso.
    assert (size (dom (groups m) ∖ V) = 0%nat) as Hz%size_empty_inv by lia.
    assert (name ∈ dom (groups m)) by (apply elem_of_dom; eauto).
    set_solver.
  - simpl. apply visit_fold_is_Some; [done|].
    intros c cg hm1 Hin Hc.
    assert (Hstep : child m name c).
    { exists g. split_and!; [done..|]. by eexists. }
    apply (IH (V ∪ {[name]}) c).
    + done.
    + intros [Hv| ->%elem_of_singleton]%elem_of_union.
      * apply Hacyc. exists name. split; [done|].
        eapply tc_l; [done|]. by apply Hanc.
      * apply Hacyc. exists name. split; [done|]. by apply tc_once.
    + intros v [Hv| ->%elem_of_singleton]%elem_of_union.
      * eapply tc_r; [|done]. by apply Hanc.
      * by apply tc_once.
    + intros (x & Hr & Hx). apply Hacyc. exists x. split; [|done].
      by eapply rtc_l.
    + assert (name ∈ dom (groups m)) by (apply elem_of_dom; eauto).
      assert (dom (groups m) ∖ (V ∪ {[name]}) ⊂ dom (groups m) ∖ V) as Hlt.
      { split; [set_solver|]. intros Hsub. specialize (Hsub name). set_solver. }
      apply subset_size in Hlt. lia.
Qed.

(** *** On a cycle it does not *)

Lemma cyclic_from_step name :
  cyclic_from m name → ∃ c, child m name c ∧ cyclic_from m c.
Proof.
  intros (x & Hr & Hx). destruct Hr as [x|a b x Hab Hr].
  - inversion Hx as [? y Hxy|? y ? Hxy Hyx]; subst.
    + exists x. split; [done|]. by exists x.
    + exists y. split; [done|]. exists x. split; [by apply tc_rtc|done].
  - exists b. split; [done|]. by exists x.
Qed.

Lemma collectHosts_diverges depth name g hm :
  groups m !! name = Some g →
  cyclic_from m name →
  collectHosts depth m g hm = None.
Proof.
  revert name g hm. induction depth as [|depth IH]; intros name g hm Hg Hcyc;
    [done|]. simpl.
  destruct (cyclic_from_step name Hcyc) as (c & (ga & Ha & Hin & [cg Hc]) & Hc').
  assert (ga = g) as -> by congruence.
  eapply visit_fold_stuck; [done..|]. intros hm1. by eapply IH.
Qed.
End Traversal.

(** C6.  For a group name present in the manager: if no group reachable
    from it through child-group links lies on a cycle, then
    [GetAllHostsInGroup] returns (every call depth from the number of
    groups on is enough, and gives the same answer), and what it returns
    are the values of a map keyed by host id (so each id is there once)
    that holds exactly the hosts of the host map whose id the group, or a
    group reachable from it, lists.  If a reachable group lies on a
    cycle, no call depth is enough: the recursion does not end. *)
Theorem GetAllHostsInGroup_hierarchy (m : Manager.t) (name : string)
    (g : Group.t) :
  Manager.groups m !! name = Some g →
  (¬ cyclic_from m name →
   ∃ hostMap : gmap string Host.t,
     (∀ depth, (size (dom (Manager.groups m)) ≤ depth)%nat →
               Manager.GetAllHostsInGroup depth m name
               = Some (Ok (map_to_list hostMap).*2))
     ∧ (∀ hostID h, hostMap !! hostID = Some h
                    ↔ Manager.hosts m !! hostID = Some h
                      ∧ listed_below m name hostID))
  ∧ (cyclic_from m name →
     ∀ depth, Manager.GetAllHostsInGroup depth m name = None).
Proof.
  intros Hg. split.
  - intros Hacyc.
    assert (Hret : ∀ depth, (size (dom (Manager.groups m)) ≤ depth)%nat →
                            is_Some (Manager.collectHosts depth m g ∅)).
    { intros depth Hd. apply (collectHosts_returns m depth ∅ name);
        [done|set_solver|set_solver|done|].
      by rewrite difference_empty_L. }
    assert (Hchar : ∀ depth hm,
               Manager.collectHosts depth m g ∅ = Some hm →
               ∀ hostID h, hm !! hostID = Some h
                           ↔ Manager.hosts m !! hostID = Some h
                             ∧ listed_below m name hostID).
    { intros depth hm Hc hostID h.
      apply collectHosts_covers in Hc as [_ Hc]; [|apply map_empty_subseteq].
      rewrite Hc, lookup_empty, (covers_listed_below m name g hostID Hg).
      split; [by intros [?|?]|by right]. }
    destruct (Hret _ (le_n _)) as [hm0 H0]. exists hm0. split.
    + intros depth Hd. unfold Manager.GetAllHostsInGroup. rewrite Hg.
      destruct (Hret depth Hd) as [hm1 H1]. rewrite H1. simpl.
      assert (hm1 = hm0) as ->; [|done].
      apply map_eq. intros k. apply option_eq. intros h.
      by rewrite (Hchar _ _ H1), (Hchar _ _ H0).
    + by apply (Hchar _ _ H0).
  - intros Hcyc depth. unfold Manager.GetAllHostsInGroup. rewrite Hg.
    by rewrite (collectHosts_diverges m depth name g ∅ Hg Hcyc).
Qed.

Section SampleHierarchy.
Lemma tree_child a b : child Sample.tree a b → a = "all" ∧ b ≠ "all".
Proof.
  intros (ga & Ha & Hb & _). revert Ha. unfold Sample.tree. simpl.
  intros [[<- <-]|[_ [[<- <-]|[_ [<- <-]%lookup_singleton_Some]]%lookup_insert_Some]]%lookup_insert_Some;
    simpl in Hb.
  - split; [done|]. intros ->.
    apply elem_of_cons in Hb as [?|Hb]; [done|].
    apply elem_of_cons in Hb as [?|Hb]; [done|]. by apply elem_of_nil in Hb.
  - by apply elem_of_nil in Hb.
  - by apply elem_of_nil in Hb.
Qed.

Lemma tree_acyclic : ¬ cyclic_from Sample.tree "all".
Proof.
  intros (x & _ & Hx).
  assert (Hend : ∀ a b, tc (child Sample.tree) a b → a = "all" ∧ b ≠ "all").
  { intros a b Hab. induction Hab as [a b Hab|a b c Hab _ [_ ?]].
    - by apply tree_child.
    - split; [|done]. by apply tree_child in Hab as [? _]. }
  destruct (Hend x x Hx) as [-> ?]. done.
Qed.

Lemma loop_cyclic : cyclic_from Sample.loop "a".
Proof.
  assert (Hab : child Sample.loop "a" "b").
  { eexists. split; [reflexivity|]. split; [left|by eexists]. }
  assert (Hba : child Sample.loop "b" "a").
  { eexists. split; [reflexivity|]. split; [left|by eexists]. }
  exists "a". split; [done|]. eapply tc_l; [exact Hab|]. by apply tc_once.
Qed.
End SampleHierarchy.

Lemma GetAllHostsInGroup_hierarchy_witness :
  (∃ hostMap : gmap string Host.t,
     (∀ depth, (size (dom (Manager.groups Sample.tree)) ≤ depth)%nat →
               Manager.GetAllHostsInGroup depth Sample.tree "all"
               = Some (Ok (map_to_list hostMap).*2))
     ∧ (∀ hostID h, hostMap !! hostID = Some h
                    ↔ Manager.hosts Sample.tree !! hostID = Some h
                      ∧ listed_below Sample.tree "all" hostID))
  ∧ ∀ depth, Manager.GetAllHostsInGroup depth Sample.loop "a" = None.
Proof.
  split.
  - apply (proj1 (GetAllHostsInGroup_hierarchy Sample.tree "all" _ eq_refl)).
    exact tree_acyclic.
  - apply (proj2 (GetAllHostsInGroup_hierarchy Sample.loop "a" _ eq_refl)).
    exact loop_cyclic.
Defined.

(** The hierarchy of the sample, run: two calls deep is enough; [host2],
    listed by both children, is returned once; the host id that does not
    resolve is left out. *)
Lemma GetAllHostsInGroup_run :
  (∃ l, Manager.GetAllHostsInGroup 2 Sample.tree "all" = Some (Ok l)
        ∧ l ≡ₚ [Sample.host1; Sample.host2])
  ∧ Manager.GetAllHostsInGroup 1 Sample.tree "all" = None
  ∧ Manager.GetAllHostsInGroup 1000 Sample.loop "a" = None.
Proof.
  split_and!.
  - eexists. split; [vm_compute; reflexivity|].
    first [ reflexivity | apply Permutation_swap ].
  - reflexivity.
  - vm_compute. reflexivity.
Qed.

(** * Further properties of the code *)

(** ** Entities: tags, members and constructors *)

Section Membership.
Implicit Types (l : list string) (x y : string).

Lemma has_tag_has l x : Host.has_tag l x = Group.has l x.
Proof. induction l as [|y l IH]; simpl; [done|]. by rewrite IH. Qed.

Lemma remove_tag_remove_first l x : Host.remove_tag l x = Group.remove_first l x.
Proof. induction l as [|y l IH]; simpl; [done|]. by rewrite IH. Qed.

Lemma has_false l x : Group.has l x = false ↔ x ∉ l.
Proof.
  rewrite <-has_elem. destruct (Group.has l x); split; done.
Qed.

Lemma has_app l x y :
  Group.has (l ++ [y]) x = Group.has l x || bool_decide (y = x).
Proof.
  induction l as [|z l IH]; simpl.
  - case_decide; subst.
    + by rewrite bool_decide_eq_true_2.
    + by rewrite bool_decide_eq_false_2.
  - destruct (decide (z = x)); [done|apply IH].
Qed.

Lemma has_remove_first_other l x y :
  y ≠ x → Group.has (Group.remove_first l x) y = Group.has l y.
Proof.
  intros Hne.
  destruct (Group.has l y) eqn:Hy.
  - apply has_elem. apply remove_first_other; [done|]. by apply has_elem.
  - apply has_false. rewrite remove_first_other by done. by apply has_false.
Qed.

(** Appending a new element and then removing its first occurrence gives
    the list back, in the same order. *)
Lemma remove_first_app_new l x :
  x ∉ l → Group.remove_first (l ++ [x]) x = l.
Proof.
  induction l as [|y l IH]; simpl; intros Hx.
  - by rewrite decide_True.
  - apply not_elem_of_cons in Hx as [Hxy Hx].
    rewrite decide_False by done. by rewrite IH.
Qed.

Lemma remove_first_absent l x : x ∉ l → Group.remove_first l x = l.
Proof.
  induction l as [|y l IH]; simpl; intros Hx; [done|].
  apply not_elem_of_cons in Hx as [Hxy Hx].
  rewrite decide_False by done. by rewrite IH.
Qed.


Lemma remove_first_NoDup l x : NoDup l → NoDup (Group.remove_first l x).
Proof.
  induction 1 as [|y l Hy Hl IH]; simpl; [constructor|].
  case_decide; [done|]. constructor; [|done].
  rewrite remove_first_other by done. done.
Qed.
End Membership.

(** X1. Tags of a host.  After [AddTag(tag)] the host has the tag, a
    second [AddTag] of the same tag changes nothing, and a tag list
    without repetition stays so; after [RemoveTag(tag)] on such a list the
    host does not have the tag; neither method changes whether the host
    has any other tag; and adding a tag the host did not have and
    removing it again gives back the very same host (same tags, same
    order). *)
Theorem Host_tags (h : Host.t) (tag : string) :
  Host.HasTag (Host.AddTag h tag) tag = true
  ∧ Host.AddTag (Host.AddTag h tag) tag = Host.AddTag h tag
  ∧ (NoDup (Host.Tags h) →
       NoDup (Host.Tags (Host.AddTag h tag))
       ∧ NoDup (Host.Tags (Host.RemoveTag h tag))
       ∧ Host.HasTag (Host.RemoveTag h tag) tag = false)
  ∧ (∀ other, other ≠ tag →
       Host.HasTag (Host.AddTag h tag) other = Host.HasTag h other
       ∧ Host.HasTag (Host.RemoveTag h tag) other = Host.HasTag h other)
  ∧ (Host.HasTag h tag = false →
       Host.RemoveTag (Host.AddTag h tag) tag = h
       ∧ Host.RemoveTag h tag = h).
Proof.
  destruct h as [ty id name desc addr port cred user key pw tags vars st lp].
  unfold Host.AddTag, Host.RemoveTag, Host.HasTag, Host.set_Tags. simpl.
  destruct (Host.has_tag tags tag) eqn:Hh; simpl;
    rewrite has_tag_has in Hh;
    repeat (rewrite ?has_tag_has, ?remove_tag_remove_first, ?Hh, ?has_app,
              ?bool_decide_eq_true_2, ?orb_true_r by done; simpl).
  - split_and!; try done.
    + intros Hnd. split_and!; [done|by apply remove_first_NoDup|].
      apply has_false. by apply remove_first_not_elem.
    + intros other Hne. split; [done|]. by apply has_remove_first_other.
  - apply has_false in Hh. split_and!; try done.
    + intros Hnd. split_and!.
      * apply NoDup_app. split_and!; [done| |apply NoDup_singleton].
        by intros x Hx ->%list_elem_of_singleton.
      * by apply remove_first_NoDup.
      * apply has_false. by apply remove_first_not_elem.
    + intros other Hne. split.
      * rewrite has_app, bool_decide_eq_false_2 by done. apply orb_false_r.
      * by apply has_remove_first_other.
    + intros _. by rewrite remove_first_app_new, remove_first_absent.
Qed.

Lemma Host_tags_witness :
  NoDup (Host.Tags (Host.AddTag (Host.AddTag Sample.host1 "web") "db"))
  ∧ NoDup (Host.Tags (Host.RemoveTag (Host.AddTag Sample.host1 "web") "db"))
  ∧ Host.HasTag (Host.RemoveTag (Host.AddTag Sample.host1 "web") "db") "db" = false.
Proof.
  apply (Host_tags (Host.AddTag Sample.host1 "web") "db").
  apply NoDup_singleton.
Defined.



(** X3. What the constructors give to [Validate].  A host from
    [NewHostWithCredential] is valid exactly when none of its four
    arguments is empty (the port is 22).  A host from [NewHost] is never
    valid as it is: it has neither a credential reference nor a user.  A
    credential from [NewCredential] is never valid as it is: it has
    neither key path nor password.  A group from [NewGroup] is valid
    exactly when its name is not empty. *)
Theorem constructors_and_Validate :
  (∀ id name address credentialID,
     Host.Validate (Host.NewHostWithCredential id name address credentialID) = None
     ↔ id ≠ "" ∧ name ≠ "" ∧ address ≠ "" ∧ credentialID ≠ "")
  ∧ (∀ id name address, Host.Validate (Host.NewHost id name address) ≠ None)
  ∧ (∀ id name user,
       Credential.Validate (Credential.NewCredential id name user) ≠ None)
  ∧ (∀ name, Group.Validate (Group.NewGroup name) = None ↔ name ≠ "").
Proof.
  split_and!.
  - intros id name address cred. unfold Host.Validate. simpl.
    do 3 (case_decide; [split; [done|]; by intros (? & ? & ? & ?)|]).
    destruct (decide (cred = "")) as [->|Hc].
    + simpl. split; [done|]. by intros (? & ? & ? & ?).
    + rewrite bool_decide_eq_true_2 by done. simpl. done.
  - intros id name address. unfold Host.Validate. simpl.
    do 3 (case_decide; [done|]). done.
  - intros id name user. unfold Credential.Validate. simpl.
    do 3 (case_decide; [done|]). done.
  - intros name. unfold Group.Validate. simpl. by case_decide.
Qed.

(** ** Repository: file names, and how the operations compose *)

Section Extensions.
Lemma scan_ext_suffix path e :
  filepath.scan_ext path = filepath.Found e → ∃ base, path = base ++ e.
Proof.
  revert e. induction path as [|c rest IH]; intros e; simpl; [done|].
  destruct (filepath.scan_ext rest) as [| |e'] eqn:Hs.
  - repeat case_decide; try done. intros [= <-]. by exists "".
  - done.
  - intros [= <-]. destruct (IH e' eq_refl) as [base ->].
    by exists (String c base).
Qed.

Lemma scan_ext_app base e :
  filepath.scan_ext e = filepath.Found e →
  filepath.scan_ext (base ++ e) = filepath.Found e.
Proof.
  intros He. induction base as [|c base IH]; simpl; [done|]. by rewrite IH.
Qed.
End Extensions.

(** X4. [isYAMLFile] accepts exactly the names that end in [.yaml] or
    [.yml] (the name [.yaml] itself included). *)
Theorem isYAMLFile_suffix (filename : string) :
  Repository.isYAMLFile filename = true
  ↔ ∃ base, filename = base ++ ".yaml" ∨ filename = base ++ ".yml".
Proof.
  unfold Repository.isYAMLFile, filepath.Ext. split.
  - destruct (filepath.scan_ext filename) as [| |e] eqn:Hs; simpl; try done.
    apply scan_ext_suffix in Hs as [base ->].
    intros [->%bool_decide_eq_true| ->%bool_decide_eq_true]%orb_true_iff;
      exists base; eauto.
  - intros [base [-> | ->]]; rewrite scan_ext_app by done; done.
Qed.

Section ReadAsFacts.
Import Yaml.

End ReadAsFacts.



(** X6. How [Write], [Delete] and [Exists] compose, for file names
    that are one path element (two such names are the same file only
    when they are equal).  After a [Write] that succeeds the file
    exists, and every other file reads as before; a [Write] that fails
    changes nothing; of two successful writes to one name the second
    wins.  After a [Delete] that returns no error the file does not
    exist, every other file reads as before, and a second [Delete] of
    the same name returns no error and changes nothing; deleting a name
    that does not exist is no error. *)
Theorem Write_Delete_Exists (fs : gmap string entry) (filename : string) :
  filepath.plain_name filename = true →
  (∀ v, let r := Repository.Write filename v fs in
        (r.2 = None →
           Repository.Exists r.1 filename = true
           ∧ (∀ other, filepath.plain_name other = true → other ≠ filename →
                Repository.Read r.1 other = Repository.Read fs other
                ∧ Repository.Exists r.1 other = Repository.Exists fs other)
           ∧ (∀ w, Repository.Write filename w r.1 = Repository.Write filename w fs))
        ∧ (r.2 ≠ None → r.1 = fs))
  ∧ (let r := Repository.Delete filename fs in
     (r.2 = None →
        Repository.Exists r.1 filename = false
        ∧ (∀ other, filepath.plain_name other = true → other ≠ filename →
             Repository.Read r.1 other = Repository.Read fs other
             ∧ Repository.Exists r.1 other = Repository.Exists fs other)
        ∧ Repository.Delete filename r.1 = (r.1, None))
     ∧ (r.2 ≠ None → r.1 = fs)
     ∧ (Repository.Exists fs filename = false → r = (fs, None))).
Proof.
  assert (Hother : ∀ fs1 fs2 other,
             fs1 !! other = fs2 !! other →
             Repository.Read fs1 other = Repository.Read fs2 other
             ∧ Repository.Exists fs1 other = Repository.Exists fs2 other).
  { intros fs1 fs2 other Heq.
    unfold Repository.Read, Repository.Exists, os.ReadFile, os.Stat.
    by rewrite Heq. }
  intros _. split.
  - intros v. simpl.
    destruct (Repository.Write filename v fs) as [fs' [e|]] eqn:Hw; simpl.
    + apply Write_failed in Hw as [-> _]. done.
    + pose proof Hw as ->%Write_ok. split; [|done]. intros _. split_and!.
      * unfold Repository.Exists, os.Stat. by rewrite lookup_insert_eq.
      * intros other _ Hne. apply Hother. by rewrite lookup_insert_ne.
      * intros w. unfold Repository.Write, os.WriteFile in *.
        rewrite lookup_insert_eq. simpl. rewrite insert_insert_eq.
        destruct (fs !! filename) as [[]|]; simpl in *; done.
  - simpl.
    destruct (Repository.Delete filename fs) as [fs' [e|]] eqn:Hd; simpl.
    + apply Delete_failed in Hd as Hf. destruct Hf as [-> Hio].
      split_and!; [done|done|]. intros Hex. exfalso. revert Hd Hex.
      unfold Repository.Delete, Repository.Exists, os.Remove, os.Stat.
      destruct (fs !! filename) as [[| |[]]|]; simpl; done.
    + pose proof Hd as ->%Delete_ok. split_and!; [|done|].
      * intros _. split_and!.
        -- unfold Repository.Exists, os.Stat. by rewrite lookup_delete_eq.
        -- intros other _ Hne. apply Hother. by rewrite lookup_delete_ne.
        -- unfold Repository.Delete, os.Remove. by rewrite lookup_delete_eq.
      * intros Hex. f_equal. apply delete_id. revert Hex.
        unfold Repository.Exists, os.Stat.
        by destruct (fs !! filename).
Qed.

Lemma Write_Delete_Exists_witness :
  Repository.Exists (Repository.Write "a.yaml" (EHost Sample.host1) ∅).1 "a.yaml" = true
  ∧ Repository.Exists
      (Repository.Delete "a.yaml"
         (Repository.Write "a.yaml" (EHost Sample.host1) ∅).1).1 "a.yaml" = false.
Proof.
  split.
  - apply (proj1 (proj1 (Write_Delete_Exists ∅ "a.yaml" eq_refl)
                    (EHost Sample.host1))).
    reflexivity.
  - apply (proj1 (proj2 (Write_Delete_Exists
                           (Repository.Write "a.yaml" (EHost Sample.host1) ∅).1
                           "a.yaml" eq_refl))).
    reflexivity.
Defined.

(** X7. What [ListByType] answers is part of what [List] answers, in the
    same order; the answers for two different types share no file; a
    file is in the answer for at most the one type its header gives; and
    a value written with success under a name that is one path element
    and that [isYAMLFile] accepts is listed, under that name, under the
    tag of its document: under its [type] field for a
    host or a config, under the empty tag for a group or a credential,
    whose structs write no [type] key. *)
Theorem ListByType_and_List (fs : gmap string entry) :
  (∀ t l all, Repository.ListByType fs t = Ok l → Repository.List fs = Ok all →
              l `sublist_of` all)
  ∧ (∀ t1 t2 l1 l2 f,
       Repository.ListByType fs t1 = Ok l1 →
       Repository.ListByType fs t2 = Ok l2 →
       f ∈ l1 → f ∈ l2 → t1 = t2)
  ∧ (∀ filename v fs' l,
       filepath.plain_name filename = true →
       Repository.isYAMLFile filename = true →
       Repository.Write filename v fs = (fs', None) →
       Repository.ListByType fs' (written_tag v) = Ok l →
       filename ∈ l).
Proof.
  assert (Hsub : ∀ t l, Repository.filter_by_type fs t l `sublist_of` l).
  { intros t l. induction l as [|x l IH]; simpl; [done|].
    destruct (os.ReadFile fs x) as [e|data]; [by apply sublist_cons|].
    destruct (Yaml.unmarshal_typeDoc data) as [t'|]; [|by apply sublist_cons].
    case_decide; [by apply sublist_skip|by apply sublist_cons]. }
  split_and!.
  - intros t l all. unfold Repository.ListByType.
    destruct (Repository.List fs) as [all'|e]; [|done].
    intros [= <-] [= <-]. apply Hsub.
  - intros t1 t2 l1 l2 f. unfold Repository.ListByType.
    destruct (Repository.List fs) as [all|e]; [|done].
    intros [= <-] [= <-].
    intros [_ (d1 & Hf1 & Ht1)]%filter_by_type_elem
           [_ (d2 & Hf2 & Ht2)]%filter_by_type_elem.
    congruence.
  - intros filename v fs' l _ Hy ->%Write_ok. unfold Repository.ListByType.
    destruct (List_spec (<[filename := Regular (Yaml.Marshal v)]> fs))
      as (all & -> & _ & Hall).
    intros [= <-]. apply filter_by_type_elem. split.
    + apply Hall. exists (Regular (Yaml.Marshal v)).
      by rewrite lookup_insert_eq.
    + exists (Yaml.Marshal v). rewrite lookup_insert_eq. split; [done|].
      unfold written_tag. destruct v as [h|g|c|c]; simpl.
      * apply marshal_Host_type.
      * unfold Yaml.get_string. by rewrite marshal_Group_type.
      * unfold Yaml.get_string. by rewrite marshal_Credential_type.
      * apply marshal_Config_type.
Qed.

Lemma ListByType_and_List_witness :
  ∃ l, Repository.ListByType
         (Repository.Write "web1.yml" (EHost Sample.host1) Sample.listing_fs).1
         TypeHost = Ok l
       ∧ "web1.yml" ∈ l.
Proof.
  eexists. split; [vm_compute; reflexivity|].
  apply (proj2 (proj2 (ListByType_and_List Sample.listing_fs))
           "web1.yml" (EHost Sample.host1)
           (Repository.Write "web1.yml" (EHost Sample.host1) Sample.listing_fs).1).
  - reflexivity.
  - reflexivity.
  - reflexivity.
  - vm_compute. reflexivity.
Defined.

(** ** Manager: referential integrity *)

Section Relationships.
Import Manager.
Implicit Types (m : t).

Lemma check_hosts_spec m (hs : gmap string Host.t) :
  match check_hosts m (map_to_list hs) with
  | None =>
      ∀ k h, hs !! k = Some h → Host.CredentialID h ≠ "" →
             is_Some (credentials m !! Host.CredentialID h)
  | Some e =>
      ∃ k h, hs !! k = Some h
             ∧ e = ErrHostReferencesCredential (Host.ID h) (Host.CredentialID h)
             ∧ Host.CredentialID h ≠ ""
             ∧ credentials m !! Host.CredentialID h = None
  end.
Proof.
  assert (Hlist : ∀ l : list (string * Host.t),
    match check_hosts m l with
    | None =>
        ∀ k h, (k, h) ∈ l → Host.CredentialID h ≠ "" →
               is_Some (credentials m !! Host.CredentialID h)
    | Some e =>
        ∃ k h, (k, h) ∈ l
               ∧ e = ErrHostReferencesCredential (Host.ID h) (Host.CredentialID h)
               ∧ Host.CredentialID h ≠ ""
               ∧ credentials m !! Host.CredentialID h = None
    end); last first.
  { specialize (Hlist (map_to_list hs)).
    destruct (check_hosts m (map_to_list hs)) as [e|].
    - destruct Hlist as (k & h & Hin%elem_of_map_to_list & ?). eauto.
    - intros k h Hk%elem_of_map_to_list. by apply (Hlist k). }
  intros l. induction l as [|[k h] l IH]; simpl.
  - intros k h. by rewrite elem_of_nil.
  - assert (Hrest : match check_hosts m l with
                    | None =>
                        (Host.CredentialID h ≠ "" →
                         is_Some (credentials m !! Host.CredentialID h)) →
                        ∀ k' h', (k', h') ∈ (k, h) :: l →
                                 Host.CredentialID h' ≠ "" →
                                 is_Some (credentials m !! Host.CredentialID h')
                    | Some e =>
                        ∃ k' h', (k', h') ∈ (k, h) :: l
                          ∧ e = ErrHostReferencesCredential (Host.ID h')
                                  (Host.CredentialID h')
                          ∧ Host.CredentialID h' ≠ ""
                          ∧ credentials m !! Host.CredentialID h' = None
                    end).
    { destruct (check_hosts m l) as [e|].
      - destruct IH as (k' & h' & Hin & ?). exists k', h'. split; [by right|done].
      - intros Hh k' h' [[= -> ->]|Hin]%elem_of_cons; [done|]. by apply (IH k'). }
    case_decide as Hc.
    + destruct (credentials m !! Host.CredentialID h) as [c|] eqn:Hl.
      * destruct (check_hosts m l); [done|]. apply Hrest. eauto.
      * exists k, h. split; [left|done].
    + destruct (check_hosts m l); [done|]. apply Hrest. done.
Qed.

Lemma check_group_spec m g :
  match check_group m g with
  | None =>
      (∀ x, x ∈ Group.HostIDs g → is_Some (hosts m !! x))
      ∧ (∀ c, c ∈ Group.ChildGroupNames g → is_Some (groups m !! c))
  | Some e =>
      (∃ x, e = ErrGroupReferencesHost (Group.Name g) x
            ∧ x ∈ Group.HostIDs g ∧ hosts m !! x = None)
      ∨ (∃ c, e = ErrGroupReferencesChild (Group.Name g) c
              ∧ c ∈ Group.ChildGroupNames g ∧ groups m !! c = None)
  end.
Proof.
  unfold check_group.
  destruct (first_missing (Group.HostIDs g) (hosts m)) as [x|] eqn:Hh.
  - apply first_missing_Some in Hh as [? ?]. left. by exists x.
  - destruct (first_missing (Group.ChildGroupNames g) (groups m)) as [c|] eqn:Hc.
    + apply first_missing_Some in Hc as [? ?]. right. by exists c.
    + split; by apply first_missing_None.
Qed.

Lemma check_groups_spec m (gs : gmap string Group.t) :
  match check_groups m (map_to_list gs) with
  | None => ∀ n g, gs !! n = Some g → check_group m g = None
  | Some e => ∃ n g, gs !! n = Some g ∧ check_group m g = Some e
  end.
Proof.
  assert (Hlist : ∀ l : list (string * Group.t),
    match check_groups m l with
    | None => ∀ n g, (n, g) ∈ l → check_group m g = None
    | Some e => ∃ n g, (n, g) ∈ l ∧ check_group m g = Some e
    end); last first.
  { specialize (Hlist (map_to_list gs)).
    destruct (check_groups m (map_to_list gs)) as [e|].
    - destruct Hlist as (n & g & Hin%elem_of_map_to_list & ?). eauto.
    - intros n g Hn%elem_of_map_to_list. by apply (Hlist n). }
  intros l. induction l as [|[n g] l IH]; simpl.
  - intros n g. by rewrite elem_of_nil.
  - destruct (check_group m g) as [e|] eqn:Hg.
    + exists n, g. split; [left|done].
    + destruct (check_groups m l) as [e|].
      * destruct IH as (n' & g' & Hin & ?). exists n', g'. split; [by right|done].
      * intros n' g' [[= -> ->]|Hin]%elem_of_cons; [done|]. by apply (IH n').
Qed.

Lemma validateRelationships_None m :
  validateRelationships m = None ↔ consistent m.
Proof.
  unfold validateRelationships, consistent.
  pose proof (check_hosts_spec m (hosts m)) as Hh.
  pose proof (check_groups_spec m (groups m)) as Hg.
  destruct (check_hosts m (map_to_list (hosts m))) as [e|].
  - split; [done|]. intros [Hall _].
    destruct Hh as (k & h & Hk & _ & Hne & Hnone).
    destruct (Hall k h Hk Hne) as [? ?]. congruence.
  - destruct (check_groups m (map_to_list (groups m))) as [e|].
    + split; [done|]. intros [_ Hall].
      destruct Hg as (n & g & Hn & He).
      pose proof (check_group_spec m g) as Hs. rewrite He in Hs.
      destruct (Hall n g Hn) as [H1 H2].
      destruct Hs as [(x & _ & Hx & Hnone)|(c & _ & Hc & Hnone)].
      * destruct (H1 x Hx). congruence.
      * destruct (H2 c Hc). congruence.
    + split; [|done]. intros _. split; [done|].
      intros n g Hn. pose proof (check_group_spec m g) as Hs.
      by rewrite (Hg n g Hn) in Hs.
Qed.
End Relationships.

(** X8. [validateRelationships] returns no error exactly when every
    reference resolves: each host's credential (when it cites one), each
    group's hosts and each group's child groups.  An error it returns
    names an entity of the maps and a reference of that entity that does
    not resolve; and when some host's credential is missing the error is
    about a host, whatever the groups hold. *)
Theorem validateRelationships_exact (m : Manager.t) :
  (Manager.validateRelationships m = None ↔ consistent m)
  ∧ (∀ e, Manager.validateRelationships m = Some e → reports_dangling m e)
  ∧ ((∃ k h, Manager.hosts m !! k = Some h ∧ Host.CredentialID h ≠ ""
             ∧ Manager.credentials m !! Host.CredentialID h = None) →
     ∃ host credential,
       Manager.validateRelationships m
       = Some (ErrHostReferencesCredential host credential)).
Proof.
  split_and!.
  - apply validateRelationships_None.
  - intros e. unfold Manager.validateRelationships.
    pose proof (check_hosts_spec m (Manager.hosts m)) as Hh.
    pose proof (check_groups_spec m (Manager.groups m)) as Hg.
    destruct (Manager.check_hosts m (map_to_list (Manager.hosts m))) as [e'|].
    + intros [= <-]. destruct Hh as (k & h & Hk & -> & Hne & Hnone).
      simpl. by exists k, h.
    + intros He. rewrite He in Hg. destruct Hg as (n & g & Hn & Hc).
      pose proof (check_group_spec m g) as Hs. rewrite Hc in Hs.
      destruct Hs as [(x & -> & Hx & Hnone)|(c & -> & Hx & Hnone)]; simpl;
        by exists n, g.
  - intros (k & h & Hk & Hne & Hnone). unfold Manager.validateRelationships.
    pose proof (check_hosts_spec m (Manager.hosts m)) as Hh.
    destruct (Manager.check_hosts m (map_to_list (Manager.hosts m))) as [e'|].
    + destruct Hh as (k' & h' & _ & -> & _). eauto.
    + destruct (Hh k h Hk Hne). congruence.
Qed.

Lemma validateRelationships_exact_witness :
  ∃ host credential,
    Manager.validateRelationships
      (Manager.mk ∅ {["host1" := Sample.host1]} ∅)
    = Some (ErrHostReferencesCredential host credential).
Proof.
  apply (proj2 (proj2 (validateRelationships_exact
                         (Manager.mk ∅ {["host1" := Sample.host1]} ∅)))).
  exists "host1", Sample.host1. split_and!; [reflexivity|discriminate|reflexivity].
Defined.

Section Consistency.
Import Manager.
Implicit Types (m : t).

Lemma consistent_insert_credential m c :
  consistent m →
  consistent (set_credentials (<[Credential.ID c := c]> (credentials m)) m).
Proof.
  intros [Hh Hg]. split; [|done]. simpl. intros k h Hk Hne.
  apply lookup_insert_is_Some'. right. by apply (Hh k).
Qed.

Lemma consistent_delete_credential m id :
  consistent m →
  (∀ k h, hosts m !! k = Some h → Host.CredentialID h ≠ id) →
  consistent (set_credentials (delete id (credentials m)) m).
Proof.
  intros [Hh Hg] Hfree. split; [|done]. simpl. intros k h Hk Hne.
  rewrite lookup_delete_ne; [by apply (Hh k)|].
  intros Heq. by apply (Hfree k h Hk).
Qed.

Lemma consistent_insert_host m h :
  consistent m →
  credential_reference_ok m h = true →
  consistent (set_hosts (<[Host.ID h := h]> (hosts m)) m).
Proof.
  intros [Hh Hg] Hok. split; simpl.
  - intros k h' [[_ <-]|[_ Hk]]%lookup_insert_Some Hne; [|by apply (Hh k)].
    unfold credential_reference_ok in Hok.
    rewrite decide_True in Hok by done. by apply bool_decide_eq_true in Hok.
  - intros n g Hn. destruct (Hg n g Hn) as [H1 H2]. split; [|done].
    intros x Hx. apply lookup_insert_is_Some'. right. by apply H1.
Qed.

Lemma consistent_insert_group m g :
  consistent m →
  (∀ x, x ∈ Group.HostIDs g → is_Some (hosts m !! x)) →
  (consistent (set_groups (<[Group.Name g := g]> (groups m)) m)
   ↔ ∀ c, c ∈ Group.ChildGroupNames g →
          c = Group.Name g ∨ is_Some (groups m !! c)).
Proof.
  intros [Hh Hg] Hhosts. split.
  - intros [_ Hg']. simpl in Hg'.
    destruct (Hg' (Group.Name g) g) as [_ Hc]; [apply lookup_insert_eq|].
    intros c Hin. apply Hc in Hin. apply lookup_insert_is_Some' in Hin.
    destruct Hin as [?|?]; [by left|by right].
  - intros Hc. split; [done|]. simpl.
    intros n g' [[_ <-]|[_ Hn]]%lookup_insert_Some.
    + split; [done|]. intros c Hin. apply lookup_insert_is_Some'.
      destruct (Hc c Hin) as [->|?]; [by left|by right].
    + destruct (Hg n g' Hn) as [H1 H2]. split; [done|].
      intros c Hin. apply lookup_insert_is_Some'. right. by apply H2.
Qed.

Lemma consistent_delete_group m name :
  consistent m →
  (∀ n p, groups m !! n = Some p → Group.HasChildGroup p name = false) →
  consistent (set_groups (delete name (groups m)) m).
Proof.
  intros [Hh Hg] Hfree. split; [done|]. simpl.
  intros n g [Hne Hn]%lookup_delete_Some.
  destruct (Hg n g Hn) as [H1 H2]. split; [done|].
  intros c Hin. rewrite lookup_delete_ne; [by apply H2|].
  intros <-. specialize (Hfree n g Hn).
  apply has_false in Hfree. done.
Qed.
End Consistency.

(** X9. Referential integrity is kept.  From a manager in which every
    reference resolves, [AddCredential], [UpdateCredential],
    [RemoveCredential], [AddHost], [UpdateHost], [AddGroup] and
    [RemoveGroup] lead, whatever their argument and whether they succeed
    or fail, to a manager in which every reference resolves.
    [UpdateGroup] does so only for some groups: after an [UpdateGroup(g)]
    that succeeds every reference resolves exactly when each child
    [g] names is [g] itself or a group of the map. *)
Theorem consistency_is_kept (entityFile : EntityType → string → string)
    (st : Manager.state) :
  consistent (Manager.mem st) →
  (∀ c, consistent (Manager.mem (Manager.AddCredential entityFile c st).2))
  ∧ (∀ c, consistent (Manager.mem (Manager.UpdateCredential entityFile c st).2))
  ∧ (∀ id, consistent (Manager.mem (Manager.RemoveCredential entityFile id st).2))
  ∧ (∀ h, consistent (Manager.mem (Manager.AddHost entityFile h st).2))
  ∧ (∀ h, consistent (Manager.mem (Manager.UpdateHost entityFile h st).2))
  ∧ (∀ g, consistent (Manager.mem (Manager.AddGroup entityFile g st).2))
  ∧ (∀ name, consistent (Manager.mem (Manager.RemoveGroup entityFile name st).2))
  ∧ (∀ g, (Manager.UpdateGroup entityFile (Some g) st).1 = None →
          (consistent (Manager.mem (Manager.UpdateGroup entityFile (Some g) st).2)
           ↔ ∀ c, c ∈ Group.ChildGroupNames g →
                  c = Group.Name g
                  ∨ is_Some (Manager.groups (Manager.mem st) !! c))).
Proof.
  intros Hc. destruct st as [m fs]. simpl in Hc.
  split_and!.
  - intros [c|]; [|done]. unfold Manager.AddCredential. simpl.
    destruct (Manager.Credential_Save entityFile c fs) as [fs' [e|]]; [done|].
    by apply consistent_insert_credential.
  - intros [c|]; [|done]. unfold Manager.UpdateCredential. simpl.
    destruct (Manager.Credential_Save entityFile c fs) as [fs' [e|]]; [done|].
    by apply consistent_insert_credential.
  - intros id. unfold Manager.RemoveCredential. simpl.
    destruct (Manager.first_user id (map_to_list (Manager.hosts m))) as [u|] eqn:Hu;
      [done|].
    destruct (Manager.credentials m !! id) as [c|]; [|done].
    destruct (Manager.Credential_Delete entityFile c fs) as [fs' [e|]]; [done|].
    simpl. apply consistent_delete_credential; [done|].
    by apply first_user_None.
  - intros [h|]; [|done]. unfold Manager.AddHost. simpl.
    destruct (Manager.credential_reference_ok m h) eqn:Hok; [|done]. simpl.
    destruct (Manager.Host_Save entityFile h fs) as [fs' [e|]]; [done|].
    by apply consistent_insert_host.
  - intros [h|]; [|done]. unfold Manager.UpdateHost. simpl.
    destruct (Manager.credential_reference_ok m h) eqn:Hok; [|done]. simpl.
    destruct (Manager.Host_Save entityFile h fs) as [fs' [e|]]; [done|].
    by apply consistent_insert_host.
  - intros [g|]; [|done]. unfold Manager.AddGroup. simpl.
    destruct (Manager.first_missing (Group.HostIDs g) (Manager.hosts m)) eqn:Hh;
      [done|].
    destruct (Manager.first_missing (Group.ChildGroupNames g) (Manager.groups m))
      eqn:Hg; [done|].
    destruct (Manager.Group_Save entityFile g fs) as [fs' [e|]]; [done|].
    simpl. apply consistent_insert_group; [done|by apply first_missing_None|].
    intros c Hin. right. revert c Hin. by apply first_missing_None.
  - intros name. unfold Manager.RemoveGroup. simpl.
    destruct (Manager.first_parent name (map_to_list (Manager.groups m)))
      as [p|] eqn:Hp; [done|].
    destruct (Manager.groups m !! name) as [g|]; [|done].
    destruct (Manager.Group_Delete entityFile g fs) as [fs' [e|]]; [done|].
    simpl. apply consistent_delete_group; [done|].
    by apply first_parent_None.
  - intros g. unfold Manager.UpdateGroup. simpl.
    destruct (Manager.first_missing (Group.HostIDs g) (Manager.hosts m)) eqn:Hh;
      [done|].
    destruct (Manager.Group_Save entityFile g fs) as [fs' [e|]]; [done|].
    simpl. intros _. apply consistent_insert_group; [done|].
    by apply first_missing_None.
Qed.

Lemma consistency_is_kept_witness :
  consistent
    (Manager.mem
       (Manager.AddGroup Sample.layout (Some Sample.g1) Sample.st_host1).2)
  ∧ consistent
      (Manager.mem
         (Manager.RemoveCredential Sample.layout "cred1" Sample.st_host1).2).
Proof.
  destruct (consistency_is_kept Sample.layout Sample.st_host1)
    as (_ & _ & Hremove & _ & _ & Hadd & _).
  - apply validateRelationships_None. reflexivity.
  - split; [apply Hadd|apply Hremove].
Defined.

Section CascadeConsistency.
Import Manager.
Variable entityFile : EntityType → string → string.

Lemma remove_first_subset (l : list string) x y :
  y ∈ Group.remove_first l x → y ∈ l.
Proof.
  induction l as [|z l IH]; simpl; [done|].
  case_decide; [by right|].
  intros [->|?]%elem_of_cons; [left|right; by apply IH].
Qed.

Lemma without_host_subset id g y :
  y ∈ Group.HostIDs (without_host id g) → y ∈ Group.HostIDs g.
Proof.
  unfold without_host. destruct (Group.HasHost g id); [|done].
  apply remove_first_subset.
Qed.

Lemma without_host_children id g :
  Group.ChildGroupNames (without_host id g) = Group.ChildGroupNames g.
Proof. unfold without_host. by destruct (Group.HasHost g id). Qed.

(** What [RemoveHost] leaves in memory once the host was found: the
    groups without the host in both cases, the host map without it only
    when the deletion of its file succeeded. *)
Lemma RemoveHost_memory id st h :
  hosts (mem st) !! id = Some h →
  mem (RemoveHost entityFile id st).2
  = mk (credentials (mem st))
       (if (RemoveHost entityFile id st).1 is None
        then delete id (hosts (mem st)) else hosts (mem st))
       (without_host id <$> groups (mem st)).
Proof.
  intros Hh. unfold RemoveHost. rewrite Hh.
  pose proof (cascade_groups entityFile id (groups (mem st)) (disk st)) as Hgs.
  destruct (foldl (cascade entityFile id) (groups (mem st), disk st)
              (map_to_list (groups (mem st)))) as [gs fs1].
  simpl in Hgs. subst gs.
  by destruct (Host_Delete entityFile h fs1) as [fs2 [e|]].
Qed.
End CascadeConsistency.

(** ** Manager: lookups, counts and searches *)

Section Outcomes.
Import Manager.
Variable entityFile : EntityType → string → string.
Implicit Types (st : state).

(** The memory after each operation that succeeded. *)
Lemma success_memory st :
  (∀ c r, r = AddCredential entityFile (Some c) st
          ∨ r = UpdateCredential entityFile (Some c) st →
          r.1 = None →
          mem r.2 = set_credentials (<[Credential.ID c := c]> (credentials (mem st)))
                                    (mem st))
  ∧ (∀ h r, r = AddHost entityFile (Some h) st
            ∨ r = UpdateHost entityFile (Some h) st →
            r.1 = None →
            mem r.2 = set_hosts (<[Host.ID h := h]> (hosts (mem st))) (mem st))
  ∧ (∀ g r, r = AddGroup entityFile (Some g) st
            ∨ r = UpdateGroup entityFile (Some g) st →
            r.1 = None →
            mem r.2 = set_groups (<[Group.Name g := g]> (groups (mem st))) (mem st))
  ∧ (∀ id, (RemoveCredential entityFile id st).1 = None →
           is_Some (credentials (mem st) !! id)
           ∧ mem (RemoveCredential entityFile id st).2
             = set_credentials (delete id (credentials (mem st))) (mem st))
  ∧ (∀ id, (RemoveHost entityFile id st).1 = None →
           is_Some (hosts (mem st) !! id)
           ∧ mem (RemoveHost entityFile id st).2
             = mk (credentials (mem st)) (delete id (hosts (mem st)))
                  (without_host id <$> groups (mem st)))
  ∧ (∀ name, (RemoveGroup entityFile name st).1 = None →
             is_Some (groups (mem st) !! name)
             ∧ mem (RemoveGroup entityFile name st).2
               = set_groups (delete name (groups (mem st))) (mem st)).
Proof.
  split_and!.
  - intros c r Hr. assert (r = AddCredential entityFile (Some c) st) as ->.
    { by destruct Hr as [-> | ->]. }
    unfold AddCredential.
    by destruct (Credential_Save entityFile c (disk st)) as [fs' [e|]].
  - intros h r Hr. assert (r = AddHost entityFile (Some h) st) as ->.
    { by destruct Hr as [-> | ->]. }
    unfold AddHost. destruct (credential_reference_ok (mem st) h); [|done].
    simpl. by destruct (Host_Save entityFile h (disk st)) as [fs' [e|]].
  - intros g r Hr.
    destruct Hr as [-> | ->]; unfold AddGroup, UpdateGroup;
      destruct (first_missing (Group.HostIDs g) (hosts (mem st))); try done;
      destruct (first_missing (Group.ChildGroupNames g) (groups (mem st)));
      try done;
      by destruct (Group_Save entityFile g (disk st)) as [fs' [e|]].
  - intros id. unfold RemoveCredential.
    destruct (first_user id (map_to_list (hosts (mem st)))); [done|].
    destruct (credentials (mem st) !! id) as [c|]; [|done].
    destruct (Credential_Delete entityFile c (disk st)) as [fs' [e|]]; [done|].
    intros _. by split; [eexists|].
  - intros id Hok.
    destruct (hosts (mem st) !! id) as [h|] eqn:Hid.
    + split; [by eexists|].
      rewrite (RemoveHost_memory entityFile id st h Hid). by rewrite Hok.
    + unfold RemoveHost in Hok. by rewrite Hid in Hok.
  - intros name. unfold RemoveGroup.
    destruct (first_parent name (map_to_list (groups (mem st)))); [done|].
    destruct (groups (mem st) !! name) as [g|]; [|done].
    destruct (Group_Delete entityFile g (disk st)) as [fs' [e|]]; [done|].
    intros _. by split; [eexists|].
Qed.
End Outcomes.

(** X11. What is added can be looked up, what is removed cannot.  After
    an [AddCredential], [UpdateCredential], [AddHost], [UpdateHost],
    [AddGroup] or [UpdateGroup] that succeeds, the matching [Get] under
    the entity's id (a group's name) returns that entity, also when the
    id was taken before: the entity that was there is replaced; every
    other id is looked up as before.  After a [Remove] that succeeds the
    matching [Get] of the id fails with the not-found error, and every
    other id is looked up as before. *)
Theorem Get_after_Add_and_Remove (entityFile : EntityType → string → string)
    (st : Manager.state) :
  (∀ c r, r = Manager.AddCredential entityFile (Some c) st
          ∨ r = Manager.UpdateCredential entityFile (Some c) st →
          r.1 = None →
          Manager.GetCredential (Manager.mem r.2) (Credential.ID c) = Ok c
          ∧ ∀ k, k ≠ Credential.ID c →
                 Manager.GetCredential (Manager.mem r.2) k
                 = Manager.GetCredential (Manager.mem st) k)
  ∧ (∀ h r, r = Manager.AddHost entityFile (Some h) st
            ∨ r = Manager.UpdateHost entityFile (Some h) st →
            r.1 = None →
            Manager.GetHost (Manager.mem r.2) (Host.ID h) = Ok h
            ∧ ∀ k, k ≠ Host.ID h →
                   Manager.GetHost (Manager.mem r.2) k
                   = Manager.GetHost (Manager.mem st) k)
  ∧ (∀ g r, r = Manager.AddGroup entityFile (Some g) st
            ∨ r = Manager.UpdateGroup entityFile (Some g) st →
            r.1 = None →
            Manager.GetGroup (Manager.mem r.2) (Group.Name g) = Ok g
            ∧ ∀ k, k ≠ Group.Name g →
                   Manager.GetGroup (Manager.mem r.2) k
                   = Manager.GetGroup (Manager.mem st) k)
  ∧ (∀ id, (Manager.RemoveCredential entityFile id st).1 = None →
       let m' := Manager.mem (Manager.RemoveCredential entityFile id st).2 in
       Manager.GetCredential m' id = Err (ErrCredentialNotFound id)
       ∧ ∀ k, k ≠ id → Manager.GetCredential m' k
                       = Manager.GetCredential (Manager.mem st) k)
  ∧ (∀ id, (Manager.RemoveHost entityFile id st).1 = None →
       let m' := Manager.mem (Manager.RemoveHost entityFile id st).2 in
       Manager.GetHost m' id = Err (ErrHostNotFound id)
       ∧ ∀ k, k ≠ id → Manager.GetHost m' k = Manager.GetHost (Manager.mem st) k)
  ∧ (∀ name, (Manager.RemoveGroup entityFile name st).1 = None →
       let m' := Manager.mem (Manager.RemoveGroup entityFile name st).2 in
       Manager.GetGroup m' name = Err (ErrGroupNotFound name)
       ∧ ∀ k, k ≠ name → Manager.GetGroup m' k
                         = Manager.GetGroup (Manager.mem st) k).
Proof.
  destruct (success_memory entityFile st) as (Hc & Hh & Hg & Hrc & Hrh & Hrg).
  unfold Manager.GetCredential, Manager.GetHost, Manager.GetGroup.
  split_and!.
  - intros c r Hr Hok. rewrite (Hc c r Hr Hok). simpl.
    rewrite lookup_insert_eq. split; [done|].
    intros k Hk. by rewrite lookup_insert_ne.
  - intros h r Hr Hok. rewrite (Hh h r Hr Hok). simpl.
    rewrite lookup_insert_eq. split; [done|].
    intros k Hk. by rewrite lookup_insert_ne.
  - intros g r Hr Hok. rewrite (Hg g r Hr Hok). simpl.
    rewrite lookup_insert_eq. split; [done|].
    intros k Hk. by rewrite lookup_insert_ne.
  - intros id Hok. destruct (Hrc id Hok) as [_ ->]. simpl.
    rewrite lookup_delete_eq. split; [done|].
    intros k Hk. by rewrite lookup_delete_ne.
  - intros id Hok. destruct (Hrh id Hok) as [_ ->]. simpl.
    rewrite lookup_delete_eq. split; [done|].
    intros k Hk. by rewrite lookup_delete_ne.
  - intros name Hok. destruct (Hrg name Hok) as [_ ->]. simpl.
    rewrite lookup_delete_eq. split; [done|].
    intros k Hk. by rewrite lookup_delete_ne.
Qed.

Lemma Get_after_Add_and_Remove_witness :
  Manager.GetHost
    (Manager.mem
       (Manager.AddHost Sample.layout (Some Sample.host1_online) Sample.st_host1).2)
    "host1" = Ok Sample.host1_online
  ∧ Manager.GetHost
      (Manager.mem (Manager.RemoveHost Sample.layout "host1" Sample.st_host1).2)
      "host1" = Err (ErrHostNotFound "host1").
Proof.
  destruct (Get_after_Add_and_Remove Sample.layout Sample.st_host1)
    as (_ & Hadd & _ & _ & Hremove & _).
  split.
  - apply (Hadd Sample.host1_online _ (or_introl eq_refl)). reflexivity.
  - apply (Hremove "host1"). reflexivity.
Defined.

(** X12. [Stats] after an operation that succeeds.  An add or update
    raises the count of its kind by one when the id was not in the map
    and leaves it as it was when the id was there; a remove lowers the
    count of its kind by one; [RemoveHost], which also edits groups,
    leaves the group count as it was. *)
Theorem Stats_after_success (entityFile : EntityType → string → string)
    (st : Manager.state) :
  let s := Manager.Stats (Manager.mem st) in
  (∀ c r, r = Manager.AddCredential entityFile (Some c) st
          ∨ r = Manager.UpdateCredential entityFile (Some c) st →
          r.1 = None →
          Manager.Stats (Manager.mem r.2)
          = Manager.mkStats
              (Manager.CredentialCount s
               + if Manager.credentials (Manager.mem st) !! Credential.ID c
                 is Some _ then 0 else 1)
              (Manager.HostCount s) (Manager.GroupCount s))
  ∧ (∀ h r, r = Manager.AddHost entityFile (Some h) st
            ∨ r = Manager.UpdateHost entityFile (Some h) st →
            r.1 = None →
            Manager.Stats (Manager.mem r.2)
            = Manager.mkStats (Manager.CredentialCount s)
                (Manager.HostCount s
                 + if Manager.hosts (Manager.mem st) !! Host.ID h
                   is Some _ then 0 else 1)
                (Manager.GroupCount s))
  ∧ (∀ g r, r = Manager.AddGroup entityFile (Some g) st
            ∨ r = Manager.UpdateGroup entityFile (Some g) st →
            r.1 = None →
            Manager.Stats (Manager.mem r.2)
            = Manager.mkStats (Manager.CredentialCount s) (Manager.HostCount s)
                (Manager.GroupCount s
                 + if Manager.groups (Manager.mem st) !! Group.Name g
                   is Some _ then 0 else 1))
  ∧ (∀ id, (Manager.RemoveCredential entityFile id st).1 = None →
           Manager.Stats (Manager.mem (Manager.RemoveCredential entityFile id st).2)
           = Manager.mkStats (Manager.CredentialCount s - 1)
               (Manager.HostCount s) (Manager.GroupCount s))
  ∧ (∀ id, (Manager.RemoveHost entityFile id st).1 = None →
           Manager.Stats (Manager.mem (Manager.RemoveHost entityFile id st).2)
           = Manager.mkStats (Manager.CredentialCount s)
               (Manager.HostCount s - 1) (Manager.GroupCount s))
  ∧ (∀ name, (Manager.RemoveGroup entityFile name st).1 = None →
             Manager.Stats (Manager.mem (Manager.RemoveGroup entityFile name st).2)
             = Manager.mkStats (Manager.CredentialCount s) (Manager.HostCount s)
                 (Manager.GroupCount s - 1)).
Proof.
  assert (Hins : ∀ (A : Type) (m : gmap string A) k x,
             Z.of_nat (size (<[k := x]> m))
             = (Z.of_nat (size m) + if m !! k is Some _ then 0 else 1)%Z).
  { intros A m k x. destruct (m !! k) as [y|] eqn:Hk.
    - rewrite <-(insert_delete_id m k y Hk) at 2.
      rewrite <-(insert_delete_eq m k x).
      rewrite !map_size_insert_None by apply lookup_delete_eq. lia.
    - rewrite map_size_insert_None by done. lia. }
  assert (Hdel : ∀ (A : Type) (m : gmap string A) k,
             is_Some (m !! k) →
             Z.of_nat (size (delete k m)) = (Z.of_nat (size m) - 1)%Z).
  { intros A m k [y Hk].
    rewrite <-(insert_delete_id m k y Hk) at 2.
    rewrite map_size_insert_None by apply lookup_delete_eq. lia. }
  destruct (success_memory entityFile st) as (Hc & Hh & Hg & Hrc & Hrh & Hrg).
  unfold Manager.Stats. simpl. split_and!.
  - intros c r Hr Hok. rewrite (Hc c r Hr Hok). simpl. by rewrite Hins.
  - intros h r Hr Hok. rewrite (Hh h r Hr Hok). simpl. by rewrite Hins.
  - intros g r Hr Hok. rewrite (Hg g r Hr Hok). simpl. by rewrite Hins.
  - intros id Hok. destruct (Hrc id Hok) as [Hin ->]. simpl. by rewrite Hdel.
  - intros id Hok. destruct (Hrh id Hok) as [Hin ->]. simpl.
    by rewrite Hdel, map_size_fmap.
  - intros name Hok. destruct (Hrg name Hok) as [Hin ->]. simpl. by rewrite Hdel.
Qed.

Lemma Stats_after_success_witness :
  Manager.Stats
    (Manager.mem (Manager.RemoveHost Sample.layout "host1" Sample.st_group1).2)
  = Manager.mkStats 1 0 1.
Proof.
  destruct (Stats_after_success Sample.layout Sample.st_group1)
    as (_ & _ & _ & _ & Hremove & _).
  apply (Hremove "host1"). reflexivity.
Defined.

(** X13. [GetHostsByGroup] fails exactly when the group is not in the
    map.  Otherwise it returns the hosts the group lists itself that are
    in the host map, no more of them than the group lists ids, and as
    many when every id resolves (an id listed twice gives the host
    twice); and every host it returns is among those
    [GetAllHostsInGroup] returns for the same group, whenever that
    returns. *)
Theorem GetHostsByGroup_direct (m : Manager.t) (name : string) :
  ((∃ e, Manager.GetHostsByGroup m name = Err e)
   ↔ Manager.groups m !! name = None)
  ∧ (∀ g, Manager.groups m !! name = Some g →
       ∃ l, Manager.GetHostsByGroup m name = Ok l
            ∧ (∀ h, h ∈ l ↔ ∃ id, id ∈ Group.HostIDs g
                                  ∧ Manager.hosts m !! id = Some h)
            ∧ (length l ≤ length (Group.HostIDs g))%nat
            ∧ ((∀ id, id ∈ Group.HostIDs g → is_Some (Manager.hosts m !! id)) →
               length l = length (Group.HostIDs g))
            ∧ (∀ depth all,
                 Manager.GetAllHostsInGroup depth m name = Some (Ok all) →
                 l ⊆ all)).
Proof.
  unfold Manager.GetHostsByGroup. split.
  - destruct (Manager.groups m !! name); split; try done.
    + by intros [? ?].
    + intros _. by eexists.
  - intros g Hg. rewrite Hg. eexists. split; [done|]. split_and!.
    + intros h. apply list_elem_of_omap.
    + induction (Group.HostIDs g) as [|id ids IH]; [done|].
      change (omap (λ id, Manager.hosts m !! id) (id :: ids))
        with (match Manager.hosts m !! id with
              | Some h => h :: omap (λ id, Manager.hosts m !! id) ids
              | None => omap (λ id, Manager.hosts m !! id) ids
              end).
      destruct (Manager.hosts m !! id); cbn [length]; lia.
    + intros Hall. induction (Group.HostIDs g) as [|id ids IH]; [done|].
      change (omap (λ id, Manager.hosts m !! id) (id :: ids))
        with (match Manager.hosts m !! id with
              | Some h => h :: omap (λ id, Manager.hosts m !! id) ids
              | None => omap (λ id, Manager.hosts m !! id) ids
              end).
      destruct (Hall id) as [h ->]; [left|]. cbn [length]. f_equal. apply IH.
      intros id' ?. apply Hall. by right.
    + intros depth all. unfold Manager.GetAllHostsInGroup. rewrite Hg.
      destruct (Manager.collectHosts depth m g ∅) as [hm|] eqn:Hc; [|done].
      simpl. intros [= <-] h (id & Hid & Hh)%list_elem_of_omap.
      apply collectHosts_covers in Hc as [_ Hc]; [|apply map_empty_subseteq].
      apply list_elem_of_fmap. exists (id, h). split; [done|].
      apply elem_of_map_to_list. apply Hc. right. split; [done|].
      by apply covers_direct.
Qed.

Lemma GetHostsByGroup_direct_witness :
  ∃ l, Manager.GetHostsByGroup Sample.tree "web" = Ok l
       ∧ length l = 2%nat.
Proof.
  destruct (proj2 (GetHostsByGroup_direct Sample.tree "web")
              (Group.mk "web" "" ["host1"; "host2"] ∅ []) eq_refl)
    as (l & Hl & _ & _ & Hlen & _).
  exists l. split; [exact Hl|]. apply Hlen.
  intros id [->|[->|[]%elem_of_nil]%elem_of_cons]%elem_of_cons; by eexists.
Defined.

(** X14. The two searches.  [FindHostsByTag] returns exactly the hosts of
    the map that have the tag, and [FindHostsByCredential] exactly those
    whose [CredentialID] is the one asked for.
    [FindHostsByCredential(c)] is empty exactly when
    [RemoveCredential(c)] is not refused as in use. *)
Theorem Find_hosts (m : Manager.t) :
  (∀ tag h, h ∈ Manager.FindHostsByTag m tag
            ↔ ∃ k, Manager.hosts m !! k = Some h ∧ Host.HasTag h tag = true)
  ∧ (∀ c h, h ∈ Manager.FindHostsByCredential m c
            ↔ ∃ k, Manager.hosts m !! k = Some h ∧ Host.CredentialID h = c)
  ∧ (∀ entityFile c fs,
       Manager.FindHostsByCredential m c = []
       ↔ ¬ ∃ e, (Manager.RemoveCredential entityFile c (Manager.mkState m fs)).1
                = Some e
                ∧ is_InUse e = true).
Proof.
  assert (Hvalues : ∀ h, h ∈ (map_to_list (Manager.hosts m)).*2
                         ↔ ∃ k, Manager.hosts m !! k = Some h).
  { intros h. rewrite list_elem_of_fmap. split.
    - intros ((k & h') & -> & Hin%elem_of_map_to_list). by exists k.
    - intros (k & Hk). exists (k, h). split; [done|].
      by apply elem_of_map_to_list. }
  assert (Hcred : ∀ c h, h ∈ Manager.FindHostsByCredential m c
            ↔ ∃ k, Manager.hosts m !! k = Some h ∧ Host.CredentialID h = c).
  { intros c h. unfold Manager.FindHostsByCredential.
    rewrite list_elem_of_filter, Hvalues. naive_solver. }
  split_and!.
  - intros tag h. unfold Manager.FindHostsByTag.
    rewrite list_elem_of_filter, Hvalues. naive_solver.
  - done.
  - intros entityFile c fs. unfold Manager.RemoveCredential. simpl.
    destruct (Manager.first_user c (map_to_list (Manager.hosts m)))
      as [u|] eqn:Hu.
    + apply first_user_Some in Hu as (k & Hk & Hc). split.
      * intros Hnil. assert (u ∈ Manager.FindHostsByCredential m c) as Hin.
        { apply Hcred. eauto. }
        rewrite Hnil in Hin. by apply elem_of_nil in Hin.
      * intros Hno. destruct Hno. eexists. by split.
    + pose proof (proj1 (first_user_None _ _) Hu) as Hfree. split.
      * intros _ (e & He & Hi).
        destruct (Manager.credentials m !! c) as [cr|]; simpl in He.
        -- destruct (Manager.Credential_Delete entityFile cr fs)
             as [fs' [e'|]] eqn:Hd; simpl in He; [|done].
           apply Delete_failed in Hd as [_ Hio].
           injection He as ->. by destruct e.
        -- injection He as <-. done.
      * intros _.
        destruct (Manager.FindHostsByCredential m c) as [|h l] eqn:Hl; [done|].
        assert (h ∈ Manager.FindHostsByCredential m c) as Hin.
        { rewrite Hl. left. }
        apply Hcred in Hin as (k & Hk & Hc). by destruct (Hfree k h Hk).
Qed.

(** X15. [GetHostCredential] for a host of the map.  A credential
    reference wins over inline fields: when [CredentialID] is set the
    answer is that credential, or the not-found error, whatever [User]
    holds.  Without a reference and with a user, the answer is a
    credential made from the inline fields, whose id is [inline-]
    followed by the host id asked for; that credential passes
    [Credential.Validate] exactly when the host has a key path or a
    password.  In a manager where every reference resolves, a host that
    passes [Host.Validate] always gets a credential. *)
Theorem GetHostCredential_cases (m : Manager.t) (hostID : string) (h : Host.t) :
  Manager.hosts m !! hostID = Some h →
  (Host.CredentialID h ≠ "" →
     Manager.GetHostCredential m hostID
     = match Manager.credentials m !! Host.CredentialID h with
       | Some c => inr c
       | None => inl (Plain (ErrCredentialNotFound (Host.CredentialID h)))
       end)
  ∧ (Host.CredentialID h = "" → Host.User h ≠ "" →
       Manager.GetHostCredential m hostID
       = inr (Manager.inline_credential hostID h)
       ∧ Credential.ID (Manager.inline_credential hostID h) = "inline-" ++ hostID
       ∧ (Credential.Validate (Manager.inline_credential hostID h) = None
          ↔ Host.KeyPath h ≠ "" ∨ Host.Password h ≠ ""))
  ∧ (Host.CredentialID h = "" → Host.User h = "" →
       Manager.GetHostCredential m hostID
       = inl (ErrNoValidAuthentication hostID))
  ∧ (consistent m → Host.Validate h = None →
       ∃ c, Manager.GetHostCredential m hostID = inr c).
Proof.
  intros Hh. unfold Manager.GetHostCredential. rewrite Hh. split_and!.
  - intros Hc. by rewrite decide_True.
  - intros Hc Hu. rewrite decide_False by (intros Hne; by apply Hne).
    rewrite decide_True by done. split_and!; [done..|].
    unfold Credential.Validate, Manager.inline_credential. simpl.
    rewrite (decide_False (P := Host.User h = "")) by done.
    case_decide as Hk; (split; [|try done]).
    + done.
    + destruct Hk. intros [?|?]; tauto.
    + intros _. destruct (decide (Host.KeyPath h = "")); [|by left].
      destruct (decide (Host.Password h = "")); [tauto|by right].
  - intros Hc Hu. rewrite decide_False by (intros Hne; by apply Hne).
    by rewrite decide_False by (intros Hne; by apply Hne).
  - intros [Hrefs _] Hvalid.
    destruct (decide (Host.CredentialID h ≠ "")) as [Hc|Hc].
    + destruct (Hrefs hostID h Hh Hc) as [c ->]. by eexists.
    + destruct (decide (Host.User h ≠ "")) as [Hu|Hu]; [by eexists|].
      exfalso. revert Hvalid. unfold Host.Validate.
      repeat (case_decide; [done|]).
      rewrite (bool_decide_eq_false_2 (Host.CredentialID h ≠ "")) by done.
      by rewrite (bool_decide_eq_false_2 (Host.User h ≠ "")) by done.
Qed.

Lemma GetHostCredential_cases_witness :
  ∃ c, Manager.GetHostCredential (Manager.mem Sample.st_host1) "host1" = inr c.
Proof.
  apply (GetHostCredential_cases (Manager.mem Sample.st_host1) "host1"
           Sample.host1).
  - reflexivity.
  - apply validateRelationships_None. reflexivity.
  - reflexivity.
Defined.

Section Loading.
Context {A : Type} (key : A → string).

(** The loops of [LoadAll]: after [m[key(x)] = x] for each [x] of a list
    in order, a key holds the last element of the list that has it, and
    otherwise what it held before. *)
Lemma load_loop_lookup (l : list A) (m : gmap string A) (k : string) :
  foldl (λ acc x, <[key x := x]> acc) m l !! k
  = match last (filter (λ x, key x = k) l) with
    | Some x => Some x
    | None => m !! k
    end.
Proof.
  revert m. induction l as [|a l IH]; intros m; [done|].
  cbn [foldl]. rewrite IH, filter_cons. case_decide as Hk.
  - rewrite last_cons.
    destruct (last (filter (λ x, key x = k) l)); [done|].
    by rewrite <-Hk, lookup_insert_eq.
  - destruct (last (filter (λ x, key x = k) l)); [done|].
    by rewrite lookup_insert_ne.
Qed.

Lemma load_loop_keeps (l : list A) (m : gmap string A) (k : string) :
  is_Some (m !! k) →
  is_Some (foldl (λ acc x, <[key x := x]> acc) m l !! k).
Proof.
  intros Hk. rewrite load_loop_lookup.
  by destruct (last (filter (λ x, key x = k) l)).
Qed.
End Loading.

(** X16. [LoadAll] when the three loaders succeed.  It adds to the maps
    and never clears them: under each key a map holds the last loaded
    entity with that key (the credential's or host's [ID], the group's
    [Name]) and, where nothing was loaded under the key, the entry it
    held before the call, so an entity that is gone from the disk stays
    in memory.  The maps are changed whatever the check then says: the
    call returns no error exactly when every reference of the new maps
    resolves.  When the host loader fails instead, the credentials
    are loaded all the same and the two other maps are as before. *)
Theorem LoadAll_merges (m : Manager.t) (cs : list Credential.t)
    (hs : list Host.t) (gs : list Group.t) :
  let r := Manager.LoadAll (Ok cs) (Ok hs) (Ok gs) m in
  (∀ k, Manager.credentials r.2 !! k
        = match last (filter (λ c, Credential.ID c = k) cs) with
          | Some c => Some c
          | None => Manager.credentials m !! k
          end)
  ∧ (∀ k, Manager.hosts r.2 !! k
          = match last (filter (λ h, Host.ID h = k) hs) with
            | Some h => Some h
            | None => Manager.hosts m !! k
            end)
  ∧ (∀ k, Manager.groups r.2 !! k
          = match last (filter (λ g, Group.Name g = k) gs) with
            | Some g => Some g
            | None => Manager.groups m !! k
            end)
  ∧ (r.1 = None ↔ consistent r.2)
  ∧ (∀ e lg,
       let r' := Manager.LoadAll (Ok cs) (Err e) lg m in
       r'.1 = Some (ErrLoadHosts e)
       ∧ Manager.credentials r'.2 = Manager.credentials r.2
       ∧ Manager.hosts r'.2 = Manager.hosts m
       ∧ Manager.groups r'.2 = Manager.groups m).
Proof.
  simpl. split_and!.
  - intros k. apply load_loop_lookup.
  - intros k. apply load_loop_lookup.
  - intros k. apply load_loop_lookup.
  - apply validateRelationships_None.
  - done.
Qed.

Lemma LoadAll_merges_witness :
  consistent (Manager.LoadAll (Ok [Sample.cred1]) (Ok [Sample.host1]) (Ok [])
                Manager.NewManager).2.
Proof.
  apply (LoadAll_merges Manager.NewManager [Sample.cred1] [Sample.host1] []).
  reflexivity.
Defined.

(** ** Entity files *)

Section Splitting.
Implicit Types (s sep before after : string).

Lemma string_app_cons c s1 s2 : String c s1 ++ s2 = String c (s1 ++ s2).
Proof. reflexivity. Qed.

Lemma string_app_assoc s1 s2 s3 : (s1 ++ s2) ++ s3 = s1 ++ (s2 ++ s3).
Proof.
  induction s1 as [|c s1 IH]; [done|]. rewrite !string_app_cons. by f_equal.
Qed.

Lemma string_app_nil_r s : s ++ "" = s.
Proof.
  induction s as [|c s IH]; [done|]. rewrite string_app_cons. by f_equal.
Qed.

Lemma string_length_app s1 s2 :
  String.length (s1 ++ s2) = (String.length s1 + String.length s2)%nat.
Proof.
  induction s1 as [|c s1 IH]; [done|].
  rewrite string_app_cons. simpl. by rewrite IH.
Qed.

Lemma CutPrefix_Some s sep after :
  strings.CutPrefix s sep = Some after ↔ s = sep ++ after.
Proof.
  revert s. induction sep as [|a sep IH]; intros s; simpl.
  - change ("" ++ after) with after. split; congruence.
  - rewrite string_app_cons. destruct s as [|b s]; [done|].
    case_decide as Hab.
    + subst b. rewrite IH. split; congruence.
    + split; [done|]. congruence.
Qed.

Lemma CutPrefix_app s sep after rest :
  strings.CutPrefix s sep = Some after →
  strings.CutPrefix (s ++ rest) sep = Some (after ++ rest).
Proof.
  rewrite !CutPrefix_Some. intros ->. by rewrite string_app_assoc.
Qed.

Lemma CutPrefix_None_app s sep rest :
  strings.CutPrefix (s ++ rest) sep = None → strings.CutPrefix s sep = None.
Proof.
  intros Hn. destruct (strings.CutPrefix s sep) as [after|] eqn:Hs; [|done].
  apply (CutPrefix_app _ _ _ rest) in Hs. congruence.
Qed.

Lemma Cut_unfold s sep :
  strings.Cut s sep
  = match strings.CutPrefix s sep with
    | Some after => Some ("", after)
    | None =>
        match s with
        | "" => None
        | String c s' =>
            match strings.Cut s' sep with
            | Some (before, after) => Some (String c before, after)
            | None => None
            end
        end
    end.
Proof. by destruct s. Qed.

(** What [Cut] finds is the first occurrence. *)
Lemma Cut_Some s sep before after :
  sep ≠ "" →
  strings.Cut s sep = Some (before, after) →
  s = before ++ sep ++ after
  ∧ strings.Cut before sep = None
  ∧ (String.length after < String.length s)%nat.
Proof.
  intros Hsep. assert (Hempty : strings.Cut "" sep = None).
  { by destruct sep. }
  revert before.
  induction s as [|c s IH]; intros before; rewrite Cut_unfold.
  - destruct (strings.CutPrefix "" sep) as [r|] eqn:Hp; [|done].
    apply CutPrefix_Some in Hp. by destruct sep.
  - destruct (strings.CutPrefix (String c s) sep) as [r|] eqn:Hp.
    + intros [= <- <-]. apply CutPrefix_Some in Hp. split_and!.
      * done.
      * done.
      * rewrite Hp, string_length_app. destruct sep; [done|]. simpl. lia.
    + destruct (strings.Cut s sep) as [[b a]|] eqn:Hc; [|done].
      intros [= <- <-]. destruct (IH b eq_refl) as (Hs & Hb & Hlen).
      split_and!.
      * rewrite string_app_cons. by rewrite <-Hs.
      * rewrite Cut_unfold, Hb.
        rewrite Hs, <-string_app_cons in Hp.
        by rewrite (CutPrefix_None_app (String c b) sep (sep ++ a)).
      * simpl. lia.
Qed.

Lemma genSplit_Join n s sep :
  sep ≠ "" → strings.Join (strings.genSplit n s sep) sep = s.
Proof.
  intros Hsep. revert s. induction n as [|n IH]; intros s; [done|].
  simpl. destruct (strings.Cut s sep) as [[b a]|] eqn:Hc; [|done].
  apply Cut_Some in Hc as (Hs & _ & _); [|done].
  specialize (IH a).
  destruct (strings.genSplit n a sep) as [|x l] eqn:Hg.
  - by destruct n; simpl in Hg; [|destruct (strings.Cut a sep) as [[??]|]].
  - change (b ++ sep ++ strings.Join (x :: l) sep = s). by rewrite IH.
Qed.

Lemma genSplit_pieces n s sep d :
  sep ≠ "" → (String.length s ≤ n)%nat →
  d ∈ strings.genSplit n s sep → strings.Contains d sep = false.
Proof.
  intros Hsep. revert s. induction n as [|n IH]; intros s Hn.
  - destruct s; [|simpl in Hn; lia]. intros ->%list_elem_of_singleton.
    by destruct sep.
  - simpl. destruct (strings.Cut s sep) as [[b a]|] eqn:Hc.
    + apply Cut_Some in Hc as (Hs & Hb & Hlen); [|done].
      intros [->|Hd]%elem_of_cons.
      * unfold strings.Contains. by rewrite Hb.
      * apply (IH a); [lia|done].
    + intros ->%list_elem_of_singleton. unfold strings.Contains.
      by rewrite Hc.
Qed.
End Splitting.

(** X17. [splitYAMLDocuments] cuts the content at every line feed
    followed by three dashes and nowhere else: the documents joined
    with that separator give the content back, no document contains the
    separator, and a content without it comes back as the one document.
    There is always at least one document, and the content's start is
    never cut away: a first line of three dashes stays in the first
    document. *)
Theorem splitYAMLDocuments_cuts (content : string) :
  strings.Join (splitYAMLDocuments content) document_separator = content
  ∧ (∀ doc, doc ∈ splitYAMLDocuments content →
            strings.Contains doc document_separator = false)
  ∧ (strings.Contains content document_separator = false
     ↔ splitYAMLDocuments content = [content])
  ∧ (∃ first rest, splitYAMLDocuments content = first :: rest
                   ∧ ∃ tail, content = first ++ tail).
Proof.
  unfold splitYAMLDocuments, strings.Split.
  assert (Hsep : document_separator ≠ "") by done.
  split_and!.
  - by apply genSplit_Join.
  - intros doc. by apply genSplit_pieces.
  - unfold strings.Contains. destruct content as [|c content]; [done|].
    cbn [String.length strings.genSplit].
    destruct (strings.Cut (String c content) document_separator)
      as [[b a]|] eqn:Hc; [|done].
    split; [done|]. intros [= Hb _].
    apply Cut_Some in Hc as (Hs & _ & _); [|done].
    rewrite Hb in Hs. apply (f_equal String.length) in Hs.
    rewrite string_length_app in Hs. simpl in Hs. lia.
  - destruct content as [|c content];
      [exists "", []; split; [done|]; by exists ""|].
    cbn [String.length strings.genSplit].
    destruct (strings.Cut (String c content) document_separator)
      as [[b a]|] eqn:Hc.
    + apply Cut_Some in Hc as (Hs & _ & _); [|done].
      eexists _, _. split; [done|]. by eexists.
    + eexists _, _. split; [done|]. exists "". by rewrite string_app_nil_r.
Qed.

Lemma splitYAMLDocuments_cuts_witness :
  strings.Contains "type: host" document_separator = false.
Proof.
  apply (splitYAMLDocuments_cuts
           ("type: host" ++ document_separator ++ "type: group")).
  vm_compute. left.
Defined.

Section Loader.
Implicit Types (data : Data) (v : Entity).

Lemma validated_inr v err w :
  validated v err = inr w ↔ err = None ∧ w = v.
Proof. destruct err; simpl; split; [done|by intros [? _]|naive_solver..]. Qed.

(** What [loadEntity] returns without an error: the header names one of
    the three entity kinds, the document decodes into that struct, and
    the struct passes its [Validate]. *)
Lemma loadEntity_inr data v :
  loadEntity data = inr v ↔
  ∃ d, data = Mapping d ∧
       ((Yaml.get_string d "type" = Some TypeHost
         ∧ ∃ h, Yaml.unmarshal_Host d = Some h ∧ Host.Validate h = None
                ∧ v = EHost h)
        ∨ (Yaml.get_string d "type" = Some TypeCredential
           ∧ ∃ c, Yaml.unmarshal_Credential d = Some c
                  ∧ Credential.Validate c = None ∧ v = ECredential c)
        ∨ (Yaml.get_string d "type" = Some TypeGroup
           ∧ ∃ g, Yaml.unmarshal_Group d = Some g ∧ Group.Validate g = None
                  ∧ v = EGroup g)).
Proof.
  split.
  - unfold loadEntity. destruct data as [d|]; [|done]. simpl.
    destruct (Yaml.get_string d "type") as [t|] eqn:Ht; [|done].
    intros Hv. exists d. split; [done|]. revert Hv.
    unfold TypeHost, TypeCredential, TypeGroup.
    repeat case_decide; subst; [| | |done].
    + destruct (Yaml.unmarshal_Host d) as [h|]; [|done].
      rewrite validated_inr. intros [? ->]. left. eauto.
    + destruct (Yaml.unmarshal_Credential d) as [c|]; [|done].
      rewrite validated_inr. intros [? ->]. right. left. eauto.
    + destruct (Yaml.unmarshal_Group d) as [g|]; [|done].
      rewrite validated_inr. intros [? ->]. right. right. eauto.
  - intros (d & -> & H). unfold loadEntity. simpl.
    destruct H as [(Ht & h & Hh & Hv & ->)|[(Ht & c & Hc & Hv & ->)
                  |(Ht & g & Hg & Hv & ->)]];
      rewrite Ht; simpl.
    + by rewrite Hh, Hv.
    + by rewrite Hc, Hv.
    + by rewrite Hg, Hv.
Qed.

Lemma Host_Validate_persisted h :
  Host.Validate (Host.persisted h) = Host.Validate h.
Proof. by destruct h. Qed.

Lemma Host_Validate_port h :
  Host.Validate h = None → Yaml.in_int_range (Host.Port h) = true.
Proof.
  unfold Host.Validate, Yaml.in_int_range.
  repeat (case_decide; [done|]). intros _. apply bool_decide_eq_true. lia.
Qed.
End Loader.

(** X18. [loadEntity] returns only entities that pass their own
    [Validate], of the kind the document's [type] names, and never a
    configuration: a document tagged [config] is an unknown entity
    type.  Where it returns an entity, [Repository.Read] of a file
    holding the same document returns the same value under the same
    tag; where [Read] returns a value, [loadEntity] returns it exactly
    when it is not a configuration and passes [Validate].  Of the
    documents [Repository.Write] produces, that of a host which is
    tagged [host] and passes [Validate] loads as the host with its
    runtime fields reset, while that of a group or a credential, whose
    structs have no [type] field, is refused as an unknown entity type
    with an empty name. *)
Theorem loadEntity_validates :
  (∀ data v, loadEntity data = inr v →
        valid v ∧ shape v ≠ TypeConfig
        ∧ Yaml.unmarshal_typeDoc data = Some (shape v)
        ∧ ∀ fs filename, fs !! filename = Some (Regular data) →
                         Repository.Read fs filename = Ok (shape v, v))
  ∧ (∀ data fs filename t v,
       fs !! filename = Some (Regular data) →
       Repository.Read fs filename = Ok (t, v) →
       (loadEntity data = inr v ↔ t ≠ TypeConfig ∧ valid v)
       ∧ (t = TypeConfig → loadEntity data = inl (ErrUnknownEntityType t)))
  ∧ (∀ h, Host.Type_ h = TypeHost → Host.Validate h = None →
          loadEntity (Yaml.Marshal (EHost h)) = inr (EHost (Host.persisted h)))
  ∧ (∀ v, tag_of v = None →
          loadEntity (Yaml.Marshal v) = inl (ErrUnknownEntityType "")).
Proof.
  split_and!.
  - intros data v (d & -> & Hv)%loadEntity_inr.
    assert (valid v ∧ shape v ≠ TypeConfig
            ∧ Yaml.get_string d "type" = Some (shape v)
            ∧ Repository.decode_as (shape v) (Mapping d) = Some (Some v))
      as (? & ? & Ht & Hd).
    { destruct Hv as [(Ht & h & Hh & ? & ->)|[(Ht & c & Hc & ? & ->)
                     |(Ht & g & Hg & ? & ->)]]; simpl;
        (split_and!; [done..|]); unfold Repository.decode_as; simpl.
      - by rewrite Hh.
      - by rewrite Hc.
      - by rewrite Hg. }
    split_and!; [done..|]. intros fs filename Hf.
    unfold Repository.Read, os.ReadFile. rewrite Hf. simpl.
    by rewrite Ht, Hd.
  - intros data fs filename t v Hf.
    unfold Repository.Read, os.ReadFile. rewrite Hf.
    destruct (Yaml.unmarshal_typeDoc data) as [t'|] eqn:Ht; [|done].
    destruct (Repository.decode_as t' data) as [[v'|]|] eqn:Hd; [|done..].
    intros [= -> ->]. destruct data as [d|]; [|done]. simpl in Ht.
    revert Hd. unfold Repository.decode_as, loadEntity. simpl. rewrite Ht.
    unfold TypeHost, TypeGroup, TypeCredential, TypeConfig.
    repeat case_decide; subst; try done.
    + destruct (Yaml.unmarshal_Host d) as [h|]; [|done].
      intros [= <-]. rewrite validated_inr. simpl. naive_solver.
    + destruct (Yaml.unmarshal_Group d) as [g|]; [|done].
      intros [= <-]. rewrite validated_inr. simpl. naive_solver.
    + destruct (Yaml.unmarshal_Credential d) as [c|]; [|done].
      intros [= <-]. rewrite validated_inr. simpl. naive_solver.
    + intros _. split; [|done]. split; [done|]. by intros [? _].
  - intros h Ht Hv. apply loadEntity_inr. eexists. split; [done|]. left.
    rewrite marshal_Host_type, Ht. split; [done|].
    exists (Host.persisted h).
    rewrite unmarshal_marshal_Host by by apply Host_Validate_port.
    by rewrite Host_Validate_persisted.
  - intros v Ht. unfold loadEntity.
    destruct v as [h|g|c|c]; simpl in *; try done.
    + unfold Yaml.get_string. by rewrite marshal_Group_type.
    + unfold Yaml.get_string. by rewrite marshal_Credential_type.
Qed.

Lemma loadEntity_validates_witness :
  loadEntity (Yaml.Marshal (EHost Sample.host1))
  = inr (EHost (Host.persisted Sample.host1))
  ∧ loadEntity (Yaml.Marshal (ECredential Sample.cred1))
    = inl (ErrUnknownEntityType "").
Proof.
  destruct loadEntity_validates as (_ & _ & Hhost & Hno).
  split.
  - apply Hhost; reflexivity.
  - apply Hno. reflexivity.
Defined.

(** ** The application configuration *)

Section EditorFacts.
Implicit Types (cfg : Config.t) (fs : gmap string entry) (f : ConfigEditor.fn).

Lemma invoke_keeps c cfg :
  same_identity cfg (ConfigEditor.invoke c cfg).2
  ∧ (settings_in_range cfg → settings_in_range (ConfigEditor.invoke c cfg).2).
Proof.
  unfold same_identity, settings_in_range.
  destruct c; simpl; try done;
    unfold ConfigEditor.SetDefaultSSHPort, ConfigEditor.SetSSHTimeout;
    case_decide; simpl; try done; split; try done; intros [? ?]; lia.
Qed.

Lemma run_keeps f cfg :
  same_identity cfg (ConfigEditor.run f cfg).2
  ∧ (settings_in_range cfg → settings_in_range (ConfigEditor.run f cfg).2).
Proof.
  revert cfg. induction f as [err|c next IH]; intros cfg; simpl.
  - by unfold same_identity.
  - pose proof (invoke_keeps c cfg) as [(H1 & H2 & H3) Hr].
    destruct (ConfigEditor.invoke c cfg) as [e cfg1]. simpl in *.
    destruct (IH e cfg1) as [(H1' & H2' & H3') Hr'].
    unfold same_identity. split_and!; [congruence..|tauto].
Qed.

Lemma edited_keeps op cfg :
  same_identity cfg (edited op cfg)
  ∧ (settings_in_range cfg → settings_in_range (edited op cfg)).
Proof.
  destruct op; simpl; try done.
  - apply (invoke_keeps (ConfigEditor.CallSetDefaultSSHPort port)).
  - apply (invoke_keeps (ConfigEditor.CallSetSSHTimeout timeout)).
  - apply run_keeps.
Qed.
Lemma WriteFile_outcome fs path data fs' o :
  GlobalConfig.WriteFile fs path data = (fs', o) →
  match o with
  | Some _ => fs' = fs
  | None => path ≠ "" ∧ fs' = <[path := Regular data]> fs
  end.
Proof.
  unfold GlobalConfig.WriteFile, os.WriteFile. case_decide.
  - by intros [= <- <-].
  - destruct (fs !! path) as [[]|]; by intros [= <- <-].
Qed.

End EditorFacts.

Section ConfigurationFacts.
Variable MkdirAll : string → option os_error.
Implicit Types (cfg : Config.t) (st : GlobalConfig.state)
  (fs : gmap string entry) (f : ConfigEditor.fn).

Lemma saveConfig_outcome cfg fs fs' o :
  GlobalConfig.saveConfig MkdirAll cfg fs = (fs', o) →
  match o with
  | Some _ => fs' = fs
  | None =>
      Config.ConfigPath cfg ≠ ""
      ∧ fs' = <[Config.ConfigPath cfg := Regular (Yaml.Marshal (EConfig cfg))]> fs
  end.
Proof.
  unfold GlobalConfig.saveConfig.
  destruct (MkdirAll (Config.BaseDir cfg)); [by intros [= <- <-]|].
  destruct (GlobalConfig.WriteFile fs (Config.ConfigPath cfg)
              (Yaml.Marshal (EConfig cfg))) as [fs1 [e|]] eqn:Hw;
    apply WriteFile_outcome in Hw; by intros [= <- <-].
Qed.

Lemma saveConfig_without_path cfg fs :
  Config.ConfigPath cfg = "" →
  ∃ e, GlobalConfig.saveConfig MkdirAll cfg fs = (fs, Some e).
Proof.
  intros Hp. unfold GlobalConfig.saveConfig, GlobalConfig.WriteFile.
  rewrite Hp. destruct (MkdirAll (Config.BaseDir cfg)); by eexists.
Qed.

Lemma perform_loaded op st cfg :
  GlobalConfig.globalConfig st = Some cfg →
  GlobalConfig.perform MkdirAll op st
  = match refused op cfg with
    | Some e =>
        (Some e, GlobalConfig.mkState (Some (edited op cfg)) (GlobalConfig.disk st))
    | None =>
        let (fs', err) :=
          GlobalConfig.saveConfig MkdirAll (edited op cfg) (GlobalConfig.disk st) in
        (err, GlobalConfig.mkState (Some (edited op cfg)) fs')
    end.
Proof.
  intros Hc. destruct st as [g fs]. simpl in Hc. subst g.
  destruct op; simpl;
    unfold GlobalConfig.Save, GlobalConfig.SetDataDir, GlobalConfig.SetTheme,
      GlobalConfig.SetLanguage, GlobalConfig.SetDefaultSSHPort,
      GlobalConfig.SetSSHTimeout, GlobalConfig.Update,
      GlobalConfig.set_and_Save, GlobalConfig.Save,
      ConfigEditor.SetDefaultSSHPort, ConfigEditor.SetSSHTimeout; simpl;
    try done.
  - by case_decide.
  - by case_decide.
  - destruct (ConfigEditor.run f cfg) as [[e|] cfg']; simpl; [done|].
    by destruct (GlobalConfig.saveConfig MkdirAll cfg' fs).
Qed.

End ConfigurationFacts.

(** X19. The setters and [Update] on a loaded configuration, whatever
    they return, leave a configuration loaded, never change its tag,
    its [BaseDir] or its [ConfigPath], and keep the port within 1..65535
    and the timeout above zero when they were so before; this holds
    for every function given to [Update] that works through the
    editor's methods.  [SetDefaultSSHPort] and [SetSSHTimeout] refuse a
    value out of range before they look at anything else: the state is
    unchanged, also when no configuration is loaded. *)
Theorem config_settings_stay_in_range (MkdirAll : string → option os_error)
    (st : GlobalConfig.state) :
  (∀ op cfg,
     GlobalConfig.globalConfig st = Some cfg →
     ∃ cfg',
       GlobalConfig.globalConfig (GlobalConfig.perform MkdirAll op st).2
       = Some cfg'
       ∧ Config.Type_ cfg' = Config.Type_ cfg
       ∧ Config.BaseDir cfg' = Config.BaseDir cfg
       ∧ Config.ConfigPath cfg' = Config.ConfigPath cfg
       ∧ (settings_in_range cfg → settings_in_range cfg'))
  ∧ (∀ port, (port ≤ 0 ∨ port > 65535)%Z →
       GlobalConfig.SetDefaultSSHPort MkdirAll port st
       = (Some (ErrInvalidPort port), st))
  ∧ (∀ timeout, (timeout ≤ 0)%Z →
       GlobalConfig.SetSSHTimeout MkdirAll timeout st
       = (Some (ErrInvalidTimeout timeout), st)).
Proof.
  split_and!.
  - intros op cfg Hc. rewrite (perform_loaded MkdirAll op st cfg Hc).
    destruct (edited_keeps op cfg) as [(H1 & H2 & H3) Hr].
    exists (edited op cfg). split_and!; try done.
    destruct (refused op cfg); [done|].
    by destruct (GlobalConfig.saveConfig MkdirAll (edited op cfg)
                   (GlobalConfig.disk st)).
  - intros port Hp. unfold GlobalConfig.SetDefaultSSHPort.
    by rewrite decide_True.
  - intros timeout Ht. unfold GlobalConfig.SetSSHTimeout.
    by rewrite decide_True.
Qed.

Lemma config_settings_stay_in_range_witness :
  ∃ cfg',
    GlobalConfig.globalConfig
      (GlobalConfig.perform (λ _, None)
         (GlobalConfig.OpUpdate
            (ConfigEditor.Call (ConfigEditor.CallSetTheme "dark")
               (λ _, ConfigEditor.Call (ConfigEditor.CallSetDefaultSSHPort 0)
                       ConfigEditor.Return)))
         (GlobalConfig.mkState
            (Some (GlobalConfig.Default "/home/u/.gossher"
                     "/home/u/.gossher/config.yaml")) ∅)).2
    = Some cfg'
    ∧ settings_in_range cfg'.
Proof.
  destruct (proj1 (config_settings_stay_in_range (λ _, None)
              (GlobalConfig.mkState
                 (Some (GlobalConfig.Default "/home/u/.gossher"
                          "/home/u/.gossher/config.yaml")) ∅))
              (GlobalConfig.OpUpdate
                 (ConfigEditor.Call (ConfigEditor.CallSetTheme "dark")
                    (λ _, ConfigEditor.Call
                            (ConfigEditor.CallSetDefaultSSHPort 0)
                            ConfigEditor.Return)))
              _ eq_refl)
    as (cfg' & Hc & _ & _ & _ & Hr).
  exists cfg'. split; [exact Hc|]. apply Hr.
  unfold settings_in_range. simpl. lia.
Defined.

(** X20. Memory runs ahead of the file.  An operation on a loaded
    configuration assigns first and saves afterwards, and nothing is
    taken back: the configuration in memory afterwards is the edited
    one whatever the operation returns (for [Update], what the function
    had assigned when it returned, also when it returned an error).
    The file is written only when the operation returns no error, and
    then the file at the configuration's [ConfigPath] holds the edited
    configuration; when it returns an error no file has changed, so the
    configuration in memory and the one on disk differ. *)
Theorem config_memory_runs_ahead (MkdirAll : string → option os_error)
    (op : GlobalConfig.operation) (st : GlobalConfig.state) (cfg : Config.t) :
  GlobalConfig.globalConfig st = Some cfg →
  let r := GlobalConfig.perform MkdirAll op st in
  GlobalConfig.globalConfig r.2 = Some (edited op cfg)
  ∧ (∀ e, r.1 = Some e → GlobalConfig.disk r.2 = GlobalConfig.disk st)
  ∧ (r.1 = None →
       refused op cfg = None
       ∧ Config.ConfigPath cfg ≠ ""
       ∧ GlobalConfig.disk r.2
         = <[Config.ConfigPath cfg :=
               Regular (Yaml.Marshal (EConfig (edited op cfg)))]>
             (GlobalConfig.disk st))
  ∧ (∀ e, refused op cfg = Some e → r.1 = Some e).
Proof.
  intros Hc. simpl. rewrite (perform_loaded MkdirAll op st cfg Hc).
  destruct (edited_keeps op cfg) as [(_ & _ & Hpath) _].
  destruct (refused op cfg) as [e|]; simpl.
  - by split_and!.
  - destruct (GlobalConfig.saveConfig MkdirAll (edited op cfg)
                (GlobalConfig.disk st)) as [fs' o] eqn:Hs.
    apply saveConfig_outcome in Hs. simpl.
    split_and!; try done.
    + by intros e ->.
    + intros ->. destruct Hs as [Hne ->]. by rewrite <-Hpath.
Qed.

Lemma config_memory_runs_ahead_witness :
  Config.Theme
    <$> GlobalConfig.globalConfig
          (GlobalConfig.perform (λ _, Some EACCES)
             (GlobalConfig.OpSetTheme "dark")
             (GlobalConfig.mkState
                (Some (GlobalConfig.Default "/home/u/.gossher"
                         "/home/u/.gossher/config.yaml")) ∅)).2
  = Some "dark".
Proof.
  destruct (config_memory_runs_ahead (λ _, Some EACCES)
              (GlobalConfig.OpSetTheme "dark")
              (GlobalConfig.mkState
                 (Some (GlobalConfig.Default "/home/u/.gossher"
                          "/home/u/.gossher/config.yaml")) ∅)
              _ eq_refl) as [Hm _].
  rewrite Hm. reflexivity.
Defined.

Section LoadedWithoutPath.
Variable MkdirAll : string → option os_error.
Implicit Types (cfg : Config.t) (st : GlobalConfig.state).

(** With an empty [ConfigPath] every operation ends in an error and
    writes nothing. *)
Lemma perform_without_path op st cfg :
  GlobalConfig.globalConfig st = Some cfg →
  Config.ConfigPath cfg = "" →
  ∃ e, GlobalConfig.perform MkdirAll op st
       = (Some e, GlobalConfig.mkState (Some (edited op cfg))
                    (GlobalConfig.disk st)).
Proof.
  intros Hc Hp. rewrite (perform_loaded MkdirAll op st cfg Hc).
  destruct (refused op cfg) as [e|]; [by eexists|].
  destruct (edited_keeps op cfg) as [(_ & _ & Hpath) _].
  destruct (saveConfig_without_path MkdirAll (edited op cfg)
              (GlobalConfig.disk st)) as [e ->]; [congruence|].
  by eexists.
Qed.

Lemma perform_all_without_path ops st cfg :
  GlobalConfig.globalConfig st = Some cfg →
  Config.ConfigPath cfg = "" →
  GlobalConfig.disk (perform_all MkdirAll ops st) = GlobalConfig.disk st.
Proof.
  revert st cfg. induction ops as [|op ops IH]; intros st cfg Hc Hp; [done|].
  simpl. destruct (perform_without_path op st cfg Hc Hp) as [e ->]. simpl.
  rewrite (IH _ (edited op cfg)); [done..|].
  destruct (edited_keeps op cfg) as [(_ & _ & Hpath) _]. congruence.
Qed.
End LoadedWithoutPath.

(** X21. [Load] when the configuration file exists and decodes.  The
    decoded settings are taken as they are, without any range check,
    into a configuration whose [BaseDir] is the base directory and
    whose [ConfigPath] is empty: the field is not in the file and
    [Load] does not set it.  From then on [Save], every setter and
    every [Update] returns an error, and whatever operations follow,
    in any number, no file is changed: settings can be changed in
    memory only. *)
Theorem Load_existing_file (baseDir configPath : string)
    (MkdirAll : string → option os_error) (st : GlobalConfig.state)
    (d : gmap string yval) (c : Config.t) :
  GlobalConfig.disk st !! configPath = Some (Regular (Mapping d)) →
  Yaml.unmarshal_Config d = Some c →
  let st' := GlobalConfig.mkState (Some (loaded_from baseDir c))
               (GlobalConfig.disk st) in
  GlobalConfig.Load baseDir configPath MkdirAll st = (None, st')
  ∧ (∀ op, ∃ e, (GlobalConfig.perform MkdirAll op st').1 = Some e)
  ∧ (∀ ops, GlobalConfig.disk (perform_all MkdirAll ops st')
            = GlobalConfig.disk st).
Proof.
  intros Hf Hd. simpl. split_and!.
  - unfold GlobalConfig.Load, os.Stat, os.ReadFile. rewrite Hf. simpl.
    by rewrite Hd.
  - intros op.
    destruct (perform_without_path MkdirAll op
                (GlobalConfig.mkState (Some (loaded_from baseDir c))
                   (GlobalConfig.disk st)) _ eq_refl eq_refl) as [e ->].
    by exists e.
  - intros ops.
    by rewrite (perform_all_without_path MkdirAll ops
                  (GlobalConfig.mkState (Some (loaded_from baseDir c))
                     (GlobalConfig.disk st))
                  (loaded_from baseDir c) eq_refl eq_refl).
Qed.

Lemma Load_existing_file_witness :
  ∃ e, (GlobalConfig.perform (λ _, None) (GlobalConfig.OpSetTheme "dark")
          (GlobalConfig.mkState
             (Some (loaded_from "/home/u/.gossher"
                      (Config.mk TypeConfig "" "light" "en" 0 0 "" "")))
             {["/home/u/.gossher/config.yaml" :=
                 Regular (Mapping {["type" := YStr "config";
                                    "theme" := YStr "light";
                                    "language" := YStr "en"]})]})).1
       = Some e.
Proof.
  destruct (Load_existing_file "/home/u/.gossher"
              "/home/u/.gossher/config.yaml" (λ _, None)
              (GlobalConfig.mkState None
                 {["/home/u/.gossher/config.yaml" :=
                     Regular (Mapping {["type" := YStr "config";
                                        "theme" := YStr "light";
                                        "language" := YStr "en"]})]})
              {["type" := YStr "config"; "theme" := YStr "light";
                "language" := YStr "en"]}
              (Config.mk TypeConfig "" "light" "en" 0 0 "" ""))
    as (_ & Hop & _).
  - reflexivity.
  - vm_compute. reflexivity.
  - apply (Hop (GlobalConfig.OpSetTheme "dark")).
Defined.

(** X22. [Load] on a first run, when no configuration file exists and
    the base directory can be made: the default configuration becomes
    the global one and is written to the configuration path.  In that
    run an operation that is not refused on its values is saved to the
    same file.  [Load] in the next run reads the default settings back,
    with an empty [ConfigPath].  When the base directory cannot be
    made, [Load] returns that error and nothing is loaded or
    written. *)
Theorem Load_first_run (baseDir configPath : string)
    (MkdirAll : string → option os_error) (st : GlobalConfig.state) :
  configPath ≠ "" →
  GlobalConfig.disk st !! configPath = None →
  let default := GlobalConfig.Default baseDir configPath in
  let st1 := GlobalConfig.mkState (Some default)
               (<[configPath := Regular (Yaml.Marshal (EConfig default))]>
                  (GlobalConfig.disk st)) in
  (MkdirAll baseDir = None →
     GlobalConfig.Load baseDir configPath MkdirAll st = (None, st1)
     ∧ (∀ op, refused op default = None →
          GlobalConfig.perform MkdirAll op st1
          = (None,
             GlobalConfig.mkState (Some (edited op default))
               (<[configPath :=
                    Regular (Yaml.Marshal (EConfig (edited op default)))]>
                  (GlobalConfig.disk st))))
     ∧ GlobalConfig.Load baseDir configPath MkdirAll st1
       = (None, GlobalConfig.mkState (Some (loaded_from baseDir default))
                  (GlobalConfig.disk st1)))
  ∧ (∀ e, MkdirAll baseDir = Some e →
       GlobalConfig.Load baseDir configPath MkdirAll st
       = (Some (ErrCreateBaseDirectory e), st)).
Proof.
  intros Hp Hf. simpl. split.
  - intros Hm. split_and!.
    + unfold GlobalConfig.Load, os.Stat. rewrite Hf. simpl. rewrite Hm.
      unfold GlobalConfig.saveConfig, GlobalConfig.WriteFile, os.WriteFile.
      simpl. rewrite Hm, decide_False by done. by rewrite Hf.
    + intros op Hr.
      erewrite (perform_loaded MkdirAll op); [|reflexivity]. rewrite Hr.
      destruct (edited_keeps op (GlobalConfig.Default baseDir configPath))
        as [(_ & Hb & Hpath) _]. simpl in Hb, Hpath.
      unfold GlobalConfig.saveConfig, GlobalConfig.WriteFile, os.WriteFile.
      rewrite Hb, Hpath, Hm, decide_False by done. simpl.
      rewrite lookup_insert_eq. by rewrite insert_insert_eq.
    + unfold GlobalConfig.Load, os.Stat, os.ReadFile. simpl.
      rewrite lookup_insert_eq. simpl.
      by rewrite unmarshal_marshal_Config.
  - intros e Hm. unfold GlobalConfig.Load, os.Stat. rewrite Hf. simpl.
    by rewrite Hm.
Qed.

Lemma Load_first_run_witness :
  GlobalConfig.Load "/home/u/.gossher" "/home/u/.gossher/config.yaml"
    (λ _, None) (GlobalConfig.mkState None ∅)
  = (None,
     GlobalConfig.mkState
       (Some (GlobalConfig.Default "/home/u/.gossher"
                "/home/u/.gossher/config.yaml"))
       {["/home/u/.gossher/config.yaml" :=
           Regular (Yaml.Marshal
                      (EConfig (GlobalConfig.Default "/home/u/.gossher"
                                  "/home/u/.gossher/config.yaml")))]}).
Proof.
  destruct (Load_first_run "/home/u/.gossher" "/home/u/.gossher/config.yaml"
              (λ _, None) (GlobalConfig.mkState None ∅))
    as [Hload _]; [done|reflexivity|].
  destruct (Hload eq_refl) as [-> _]. simpl.
  by rewrite insert_empty.
Defined.

(** ** Listings and authentication kinds *)

Section Listings.
Context {A : Type}.

Lemma values_elem (m : gmap string A) (x : A) :
  x ∈ (map_to_list m).*2 ↔ ∃ k, m !! k = Some x.
Proof.
  rewrite list_elem_of_fmap. split.
  - intros ((k & y) & -> & Hin%elem_of_map_to_list). by exists k.
  - intros (k & Hk). exists (k, x). split; [done|].
    by apply elem_of_map_to_list.
Qed.

Lemma values_length (m : gmap string A) :
  length (map_to_list m).*2 = size m.
Proof. by rewrite length_fmap, length_map_to_list. Qed.
End Listings.

(** X23. The three listings agree with the lookups and with [Stats]:
    an entity is in [ListCredentials], [ListHosts] or [ListGroups]
    exactly when some key makes [GetCredential], [GetHost] or
    [GetGroup] return it, and each list is as long as the count
    [Stats] reports for its kind.  Every host found by
    [FindHostsByTag] or [FindHostsByCredential] is in [ListHosts]. *)
Theorem listings_agree (m : Manager.t) :
  (∀ c, c ∈ Manager.ListCredentials m ↔ ∃ id, Manager.GetCredential m id = Ok c)
  ∧ (∀ h, h ∈ Manager.ListHosts m ↔ ∃ id, Manager.GetHost m id = Ok h)
  ∧ (∀ g, g ∈ Manager.ListGroups m ↔ ∃ name, Manager.GetGroup m name = Ok g)
  ∧ Manager.Stats m
    = Manager.mkStats (Z.of_nat (length (Manager.ListCredentials m)))
                      (Z.of_nat (length (Manager.ListHosts m)))
                      (Z.of_nat (length (Manager.ListGroups m)))
  ∧ (∀ tag, Manager.FindHostsByTag m tag ⊆ Manager.ListHosts m)
  ∧ (∀ id, Manager.FindHostsByCredential m id ⊆ Manager.ListHosts m).
Proof.
  unfold Manager.ListCredentials, Manager.ListHosts, Manager.ListGroups,
    Manager.GetCredential, Manager.GetHost, Manager.GetGroup, Manager.Stats.
  split_and!.
  - intros c. rewrite values_elem. split; intros [k Hk]; exists k.
    + by rewrite Hk.
    + by destruct (Manager.credentials m !! k); simplify_eq.
  - intros h. rewrite values_elem. split; intros [k Hk]; exists k.
    + by rewrite Hk.
    + by destruct (Manager.hosts m !! k); simplify_eq.
  - intros g. rewrite values_elem. split; intros [k Hk]; exists k.
    + by rewrite Hk.
    + by destruct (Manager.groups m !! k); simplify_eq.
  - by rewrite !values_length.
  - intros tag h. unfold Manager.FindHostsByTag.
    rewrite list_elem_of_filter. tauto.
  - intros id h. unfold Manager.FindHostsByCredential.
    rewrite list_elem_of_filter. tauto.
Qed.

(** X24. What kind of authentication an entity has.  [Type] of a
    credential that passes [Validate] names a field that is set: the
    key path for the key type, and for the password type a password
    with no key path; a key path wins over a password.  A host that
    passes [Validate] and does not use a credential has an inline
    user, and [GetHostCredential] then makes a credential whose type
    is the key type exactly when the host has a key path. *)
Theorem authentication_kinds :
  (∀ c, Credential.Validate c = None →
        match Credential.Type_of c with
        | Credential.CredentialTypeKey => Credential.KeyPath c ≠ ""
        | Credential.CredentialTypePassword =>
            Credential.KeyPath c = "" ∧ Credential.Password c ≠ ""
        end)
  ∧ (∀ c, Credential.KeyPath c ≠ "" →
          Credential.Type_of c = Credential.CredentialTypeKey)
  ∧ (∀ h, Host.Validate h = None → Host.UsesCredential h = false →
          Host.User h ≠ "")
  ∧ (∀ m id h,
       Manager.hosts m !! id = Some h →
       Host.Validate h = None → Host.UsesCredential h = false →
       ∃ c, Manager.GetHostCredential m id = inr c
            ∧ (Credential.Type_of c = Credential.CredentialTypeKey
               ↔ Host.KeyPath h ≠ "")).
Proof.
  assert (Huser : ∀ h, Host.Validate h = None → Host.UsesCredential h = false →
                       Host.User h ≠ "").
  { intros h. unfold Host.Validate, Host.UsesCredential.
    repeat (case_decide; [done|]).
    intros Hv Hu. rewrite Hu in Hv. simpl in Hv.
    by destruct (bool_decide (Host.User h ≠ "")) eqn:Hb;
      [apply bool_decide_eq_true in Hb|]. }
  split_and!.
  - intros c Hv. unfold Credential.Type_of. case_decide as Hk; [done|].
    assert (Credential.KeyPath c = "") as Hk'.
    { by destruct (decide (Credential.KeyPath c = "")). }
    split; [done|]. intros Hp. revert Hv. unfold Credential.Validate.
    repeat (case_decide; [done|]). tauto.
  - intros c Hk. unfold Credential.Type_of. by rewrite decide_True.
  - done.
  - intros m id h Hh Hv Hu. pose proof (Huser h Hv Hu) as Huser'.
    unfold Manager.GetHostCredential. rewrite Hh.
    unfold Host.UsesCredential in Hu. apply bool_decide_eq_false in Hu.
    rewrite decide_False by done. rewrite decide_True by done.
    eexists. split; [done|]. unfold Credential.Type_of. simpl.
    by case_decide.
Qed.

Lemma authentication_kinds_witness :
  Credential.Type_of Sample.cred1 = Credential.CredentialTypePassword.
Proof.
  destruct authentication_kinds as (Hkind & _).
  pose proof (Hkind Sample.cred1 eq_refl) as Hk.
  destruct (Credential.Type_of Sample.cred1) eqn:Ht; [|reflexivity].
  exfalso. apply Hk. reflexivity.
Defined.

(** ** Manager: [RemoveHost] on pointers and arrays *)

Section SliceFacts.
Implicit Types (arrays : gmap nat (list string)) (s t : Slice.t)
  (ids : list string).

Lemma fits_spec arrays s :
  Slice.fits arrays s = true
  ↔ (Slice.len s ≤ Slice.cap s
     ∧ Slice.offset s + Slice.cap s
       ≤ length (Slice.content arrays (Slice.array s)))%nat.
Proof. unfold Slice.fits. apply bool_decide_eq_true. Qed.

Lemma apart_spec s t :
  Slice.apart s t = true
  ↔ (Slice.array s ≠ Slice.array t
     ∨ Slice.offset s + Slice.len s ≤ Slice.offset t
     ∨ Slice.offset t + Slice.len t ≤ Slice.offset s)%nat.
Proof. unfold Slice.apart. apply bool_decide_eq_true. Qed.

Lemma elements_length arrays s :
  Slice.fits arrays s = true →
  length (Slice.elements arrays s) = Slice.len s.
Proof.
  intros [? ?]%fits_spec. unfold Slice.elements.
  rewrite length_take, length_drop. lia.
Qed.

Lemma elements_lookup arrays s j :
  Slice.elements arrays s !! j
  = if decide (j < Slice.len s)%nat
    then Slice.content arrays (Slice.array s) !! (Slice.offset s + j)%nat
    else None.
Proof. unfold Slice.elements. by rewrite lookup_take, lookup_drop. Qed.

(** The index the loop of [RemoveHost] stops at, and the list without
    the element there. *)
Lemma first_index_Some ids x i :
  Heap.first_index ids x = Some i →
  (i < length ids)%nat ∧ delete i ids = Group.remove_first ids x
  ∧ Group.has ids x = true.
Proof.
  revert i. induction ids as [|y ids IH]; intros i; simpl; [done|].
  case_decide as Hy.
  - intros [= <-]. split_and!; [lia|done..].
  - destruct (Heap.first_index ids x) as [j|]; [|done]. simpl.
    intros [= <-]. destruct (IH j eq_refl) as (? & Hd & ?).
    split_and!; [lia| |done]. simpl. by rewrite Hd.
Qed.

Lemma first_index_None ids x :
  Heap.first_index ids x = None ↔ Group.has ids x = false.
Proof.
  induction ids as [|y ids IH]; simpl; [done|].
  case_decide; [done|]. rewrite <-IH.
  by destruct (Heap.first_index ids x).
Qed.

(** [append(s[:i], s[i+1:]...)] for an index of [s]: nothing is
    allocated, the array of [s] keeps its size, the slice is one
    shorter and holds the elements of [s] without the one at [i]. *)
Lemma append_cut arrays s i :
  Slice.fits arrays s = true → (i < Slice.len s)%nat →
  let tail := Slice.elements arrays (Slice.from s (S i)) in
  Slice.append arrays (Slice.upto s i) tail
  = (<[Slice.array s :=
         list_inserts (Slice.offset s + i) tail
           (Slice.content arrays (Slice.array s))]> arrays,
     Slice.mk (Slice.array s) (Slice.offset s) (Slice.len s - 1) (Slice.cap s))
  ∧ length tail = (Slice.len s - S i)%nat.
Proof.
  intros [Hlen Hcap]%fits_spec Hi. simpl.
  assert (Htail : length (Slice.elements arrays (Slice.from s (S i)))
                  = (Slice.len s - S i)%nat).
  { unfold Slice.elements, Slice.from. simpl.
    rewrite length_take, length_drop. lia. }
  split; [|done]. unfold Slice.append. simpl. rewrite Htail.
  rewrite decide_True by lia. do 2 f_equal. lia.
Qed.

Section Written.
Variables (arrays : gmap nat (list string)) (s : Slice.t) (i : nat).
Hypothesis Hfits : Slice.fits arrays s = true.
Hypothesis Hi : (i < Slice.len s)%nat.

Let arrays' : gmap nat (list string) :=
  <[Slice.array s :=
      list_inserts (Slice.offset s + i)
        (Slice.elements arrays (Slice.from s (S i)))
        (Slice.content arrays (Slice.array s))]> arrays.
Let s' : Slice.t :=
  Slice.mk (Slice.array s) (Slice.offset s) (Slice.len s - 1) (Slice.cap s).

Lemma written_length a :
  length (Slice.content arrays' a) = length (Slice.content arrays a).
Proof.
  unfold Slice.content, arrays'.
  destruct (decide (a = Slice.array s)) as [->|Hne].
  - rewrite lookup_insert_eq. simpl. by rewrite length_inserts.
  - by rewrite lookup_insert_ne.
Qed.

Lemma written_lookup j :
  Slice.content arrays' (Slice.array s) !! j
  = if decide (Slice.offset s + i ≤ j < Slice.offset s + Slice.len s - 1)%nat
    then Slice.content arrays (Slice.array s) !! S j
    else Slice.content arrays (Slice.array s) !! j.
Proof.
  apply fits_spec in Hfits as [Hlen Hcap].
  assert (Htail : length (Slice.elements arrays (Slice.from s (S i)))
                  = (Slice.len s - S i)%nat).
  { unfold Slice.elements, Slice.from. simpl.
    rewrite length_take, length_drop. lia. }
  unfold Slice.content at 1, arrays'. rewrite lookup_insert_eq. simpl.
  case_decide as Hj.
  - rewrite list_lookup_inserts by (rewrite ?Htail; lia).
    rewrite elements_lookup. simpl. rewrite decide_True by lia.
    f_equal. lia.
  - destruct (decide (j < Slice.offset s + i)%nat).
    + by rewrite list_lookup_inserts_lt.
    + rewrite list_lookup_inserts_ge; [done|]. rewrite Htail. lia.
Qed.

Lemma written_fits t :
  Slice.fits arrays t = true → Slice.fits arrays' t = true.
Proof. rewrite !fits_spec, written_length. done. Qed.

Lemma written_fits_cut : Slice.fits arrays' s' = true.
Proof.
  apply fits_spec in Hfits as [Hlen Hcap]. apply fits_spec.
  rewrite written_length. simpl. lia.
Qed.

Lemma written_elements_cut :
  Slice.elements arrays' s' = delete i (Slice.elements arrays s).
Proof.
  apply fits_spec in Hfits as Hf. destruct Hf as [Hlen Hcap].
  apply list_eq. intros j. rewrite elements_lookup. simpl.
  rewrite written_lookup.
  destruct (decide (j < i)%nat) as [Hji|Hji].
  - rewrite list_lookup_delete_lt by done. rewrite elements_lookup.
    repeat case_decide; first [lia | done].
  - rewrite list_lookup_delete_ge by lia. rewrite elements_lookup.
    repeat case_decide; first [lia | done | f_equal; lia].
Qed.

Lemma written_elements_apart t :
  Slice.apart s t = true →
  Slice.elements arrays' t = Slice.elements arrays t.
Proof.
  intros Hap%apart_spec. apply list_eq. intros j.
  rewrite !elements_lookup. case_decide as Hj; [|done].
  destruct (decide (Slice.array t = Slice.array s)) as [Heq|Hne].
  - rewrite Heq, written_lookup. rewrite decide_False; [done|].
    destruct Hap as [?|[?|?]]; [congruence|lia..].
  - unfold Slice.content, arrays'. by rewrite lookup_insert_ne.
Qed.
End Written.
End SliceFacts.

Section HeapCascade.
Variable entityFile : EntityType → string → string.
Implicit Types (st : Heap.state) (n name : string) (p : nat) (g : Heap.group).

Lemma entries_elem st n p g :
  (n, p, g) ∈ Heap.entries st
  ↔ Heap.groups st !! n = Some p ∧ Heap.objects st !! p = Some g.
Proof.
  unfold Heap.entries. rewrite list_elem_of_omap. split.
  - intros ([n' p'] & Hin%elem_of_map_to_list & Hg). simpl in Hg.
    destruct (Heap.objects st !! p') as [g'|] eqn:Hp; [|done].
    simpl in Hg. by simplify_eq.
  - intros [Hn Hp]. exists (n, p). split; [by apply elem_of_map_to_list|].
    simpl. by rewrite Hp.
Qed.

Lemma forallb_elem {A} (f : A → bool) (l : list A) :
  forallb f l = true ↔ ∀ x, x ∈ l → f x = true.
Proof.
  rewrite forallb_forall. split; intros H x Hx; apply H;
    by apply list_elem_of_In.
Qed.

Lemma owned_of_checks st :
  Heap.well_formed st = true → Heap.unshared st = true → owned st.
Proof.
  unfold Heap.well_formed, Heap.unshared. rewrite !forallb_elem.
  intros Hwf Hun.
  assert (Hpair : ∀ n1 n2 p1 p2 g1 g2,
            Heap.groups st !! n1 = Some p1 → Heap.groups st !! n2 = Some p2 →
            Heap.objects st !! p1 = Some g1 → Heap.objects st !! p2 = Some g2 →
            Slice.apart (Heap.HostIDs g1) (Heap.ChildGroupNames g2) = true
            ∧ (n1 ≠ n2 →
               p1 ≠ p2
               ∧ Slice.apart (Heap.HostIDs g1) (Heap.HostIDs g2) = true)).
  { intros n1 n2 p1 p2 g1 g2 Hn1 Hn2 Hp1 Hp2.
    assert (H1 : (n1, p1, g1) ∈ Heap.entries st) by by apply entries_elem.
    assert (H2 : (n2, p2, g2) ∈ Heap.entries st) by by apply entries_elem.
    specialize (Hun _ H1). rewrite forallb_elem in Hun.
    specialize (Hun _ H2). simpl in Hun.
    apply andb_true_iff in Hun as [Hc Hun]. split; [done|]. intros Hne.
    rewrite bool_decide_eq_false_2 in Hun by done. simpl in Hun.
    apply andb_true_iff in Hun as [Hp%bool_decide_eq_true Ha]. done. }
  split_and!.
  - intros n p Hn. specialize (Hwf (n, p)). simpl in Hwf.
    destruct (Heap.objects st !! p) as [g|].
    + exists g. split; [done|]. apply andb_true_iff. apply Hwf.
      by apply elem_of_map_to_list.
    + discriminate Hwf. by apply elem_of_map_to_list.
  - intros n1 n2 p1 p2 g1 g2 Hne Hn1 Hn2 Hp1 Hp2.
    by apply (Hpair n1 n2 p1 p2 g1 g2).
  - intros n1 n2 p1 p2 g1 g2 Hn1 Hn2 Hp1 Hp2.
    by apply (Hpair n1 n2 p1 p2 g1 g2).
Qed.

Lemma no_repetition_spec st n (v : Group.t) :
  Heap.no_repetition st = true →
  Heap.group_at st n = Some v → NoDup (Group.HostIDs v).
Proof.
  unfold Heap.no_repetition, Heap.group_at. rewrite forallb_elem.
  intros Hnd. destruct (Heap.groups st !! n) as [p|] eqn:Hn; [|done]. simpl.
  destruct (Heap.objects st !! p) as [o|] eqn:Hp; [|done]. simpl.
  intros [= <-]. simpl.
  assert (Hin : (n, p, o) ∈ Heap.entries st) by by apply entries_elem.
  apply Hnd in Hin. by apply bool_decide_eq_true in Hin.
Qed.

Lemma group_values_lookup st n :
  Heap.group_values st !! n = Heap.group_at st n.
Proof. unfold Heap.group_values, Heap.group_at. by rewrite lookup_omap. Qed.

Lemma apart_shorter (s t : Slice.t) (k : nat) :
  (k ≤ Slice.len s)%nat → Slice.apart s t = true →
  Slice.apart (Slice.mk (Slice.array s) (Slice.offset s) k (Slice.cap s)) t
  = true
  ∧ Slice.apart t (Slice.mk (Slice.array s) (Slice.offset s) k (Slice.cap s))
    = true.
Proof.
  rewrite !apart_spec. simpl. intros Hk [?|[?|?]]; split; auto with lia.
Qed.

Lemma apart_sym (s t : Slice.t) :
  Slice.apart s t = true → Slice.apart t s = true.
Proof. rewrite !apart_spec. intros [?|[?|?]]; auto. Qed.

(** What [Group.RemoveHost] does to a group that has the host, on the
    arrays: the group's slice afterwards holds the list the method gives
    on values, the arrays keep their sizes, and a slice that shares no
    place with the group's holds what it held. *)
Lemma Group_RemoveHost_spec (arrays : gmap nat (list string)) g id :
  Slice.fits arrays (Heap.HostIDs g) = true →
  Slice.apart (Heap.HostIDs g) (Heap.ChildGroupNames g) = true →
  Heap.Group_HasHost arrays g id = true →
  ∃ arrays' s',
    Heap.Group_RemoveHost arrays g id = (arrays', Heap.set_HostIDs s' g)
    ∧ Heap.value arrays' (Heap.set_HostIDs s' g)
      = Group.RemoveHost (Heap.value arrays g) id
    ∧ Slice.fits arrays' s' = true
    ∧ (∀ t, Slice.fits arrays t = true → Slice.fits arrays' t = true)
    ∧ (∀ t, Slice.apart (Heap.HostIDs g) t = true →
            Slice.elements arrays' t = Slice.elements arrays t)
    ∧ (∀ t, Slice.apart (Heap.HostIDs g) t = true →
            Slice.apart s' t = true ∧ Slice.apart t s' = true).
Proof.
  intros Hfits Hown Hhas. unfold Heap.Group_RemoveHost, Heap.Group_HasHost in *.
  destruct (Heap.first_index (Slice.elements arrays (Heap.HostIDs g)) id)
    as [i|] eqn:Hi; last first.
  { apply first_index_None in Hi. congruence. }
  apply first_index_Some in Hi as (Hlt & Hdel & _).
  rewrite elements_length in Hlt by done.
  destruct (append_cut arrays (Heap.HostIDs g) i Hfits Hlt) as [-> _].
  eexists _, _. split; [done|]. split_and!.
  - unfold Heap.value, Group.RemoveHost. simpl. f_equal.
    + rewrite <-Hdel. by apply written_elements_cut.
    + by apply written_elements_apart.
  - by apply written_fits_cut.
  - intros t. by apply written_fits.
  - intros t. by apply written_elements_apart.
  - intros t. apply apart_shorter. lia.
Qed.

(** One turn of the loop on pointers and arrays is, for groups that
    are owned, the turn of [Manager.cascade] on values. *)
Lemma cascade_simulates id st n p g :
  owned st →
  Heap.groups st !! n = Some p → Heap.objects st !! p = Some g →
  let st' := Heap.cascade entityFile id st n in
  owned st'
  ∧ Heap.groups st' = Heap.groups st
  ∧ Heap.hosts st' = Heap.hosts st
  ∧ Heap.credentials st' = Heap.credentials st
  ∧ (Heap.group_values st', Heap.disk st')
    = Manager.cascade entityFile id (Heap.group_values st, Heap.disk st)
        (n, Heap.value (Heap.arrays st) g).
Proof.
  intros (Hwf & Hun & Hch) Hn Hp. unfold Heap.cascade, Manager.cascade. simpl.
  rewrite Hn, Hp.
  change (Group.HasHost (Heap.value (Heap.arrays st) g) id)
    with (Heap.Group_HasHost (Heap.arrays st) g id).
  destruct (Heap.Group_HasHost (Heap.arrays st) g id) eqn:Hhas; [|done].
  destruct (Hwf n p Hn) as (g0 & Hp0 & Hfits & Hfitc).
  assert (g0 = g) as -> by congruence.
  pose proof (Hch n n p p g g Hn Hn Hp Hp) as Hown.
  destruct (Group_RemoveHost_spec (Heap.arrays st) g id Hfits Hown Hhas)
    as (arrays' & s' & -> & Hval & Hfits' & Hkeep & Hsame & Hapart).
  simpl. split_and!; try done.
  - split_and!; simpl.
    + intros n' p' Hn'. destruct (decide (p' = p)) as [->|Hne].
      * rewrite lookup_insert_eq. eexists. split; [done|]. split; [done|].
        simpl. by apply Hkeep.
      * rewrite lookup_insert_ne by done.
        destruct (Hwf n' p' Hn') as (g' & Hg' & Hf' & Hc'). exists g'.
        split; [done|]. split; by apply Hkeep.
    + intros n1 n2 p1 p2 g1 g2 Hne Hn1 Hn2 Hg1 Hg2.
      destruct (decide (p1 = p)) as [->|Hp1];
        destruct (decide (p2 = p)) as [->|Hp2].
      * destruct (Hun n1 n2 p p g g Hne Hn1 Hn2 Hp Hp) as [? _]. done.
      * rewrite lookup_insert_eq in Hg1. rewrite lookup_insert_ne in Hg2 by done.
        injection Hg1 as <-.
        destruct (Hun n1 n2 p p2 g g2 Hne Hn1 Hn2 Hp Hg2) as [? Ha].
        split; [done|]. by apply Hapart.
      * rewrite lookup_insert_ne in Hg1 by done. rewrite lookup_insert_eq in Hg2.
        injection Hg2 as <-.
        destruct (Hun n1 n2 p1 p g1 g Hne Hn1 Hn2 Hg1 Hp) as [? Ha].
        split; [done|]. apply apart_sym in Ha. by apply Hapart.
      * rewrite lookup_insert_ne in Hg1, Hg2 by done.
        by apply (Hun n1 n2).
    + intros n1 n2 p1 p2 g1 g2 Hn1 Hn2 Hg1 Hg2.
      destruct (decide (p1 = p)) as [->|Hp1];
        destruct (decide (p2 = p)) as [->|Hp2].
      * rewrite lookup_insert_eq in Hg1, Hg2.
        injection Hg1 as <-. injection Hg2 as <-. simpl.
        by apply Hapart.
      * rewrite lookup_insert_eq in Hg1. rewrite lookup_insert_ne in Hg2 by done.
        injection Hg1 as <-. simpl. apply Hapart.
        by apply (Hch n1 n2 p p2 g g2).
      * rewrite lookup_insert_ne in Hg1 by done. rewrite lookup_insert_eq in Hg2.
        injection Hg2 as <-. simpl.
        by apply (Hch n1 n2 p1 p g1 g).
      * rewrite lookup_insert_ne in Hg1, Hg2 by done.
        by apply (Hch n1 n2 p1 p2).
  - rewrite Hval. f_equal. apply map_eq. intros k.
    unfold Heap.group_values. rewrite lookup_omap. simpl.
    destruct (decide (k = n)) as [->|Hk].
    + rewrite lookup_insert_eq, Hn. simpl. rewrite lookup_insert_eq. simpl.
      by rewrite Hval.
    + rewrite lookup_insert_ne by done. rewrite lookup_omap.
      destruct (Heap.groups st !! k) as [p'|] eqn:Hk'; [|done]. simpl.
      destruct (Hwf k p' Hk') as (g' & Hg' & Hf' & Hc').
      destruct (Hun k n p' p g' g Hk Hk' Hn Hg' Hp) as [Hpp Ha].
      rewrite lookup_insert_ne by done. rewrite Hg'. simpl.
      unfold Heap.value.
      rewrite (Hsame (Heap.HostIDs g')) by by apply apart_sym.
      by rewrite (Hsame (Heap.ChildGroupNames g'))
        by by apply (Hch n k p p' g g').
Qed.
End HeapCascade.

Section CascadeFiles.
Variable entityFile : EntityType → string → string.
Implicit Types (fs : gmap string entry) (l : list (string * Group.t)).

Lemma Write_at f v fs :
  (Repository.Write f v fs).1 !! f
  = match (Repository.Write f v fs).2 with
    | None => Some (Regular (Yaml.Marshal v))
    | Some _ => fs !! f
    end.
Proof.
  unfold Repository.Write, os.WriteFile.
  destruct (fs !! f) as [[]|] eqn:Hf; simpl; by rewrite ?lookup_insert_eq.
Qed.

Lemma Write_other f f' v fs :
  f' ≠ f → (Repository.Write f v fs).1 !! f' = fs !! f'.
Proof.
  intros Hne. unfold Repository.Write, os.WriteFile.
  destruct (fs !! f) as [[]|]; simpl; by rewrite ?lookup_insert_ne.
Qed.

Lemma Write_error_local f v fs1 fs2 :
  fs1 !! f = fs2 !! f →
  (Repository.Write f v fs1).2 = (Repository.Write f v fs2).2.
Proof.
  intros Heq. unfold Repository.Write, os.WriteFile. rewrite Heq.
  by destruct (fs2 !! f) as [[]|].
Qed.

(** The files after the loop of [RemoveHost], when the groups it meets
    have files of their own: the file of a group that had the host holds
    the group without it if the write was accepted and is as before if
    not; every other file is as before. *)
Lemma cascade_files id l (acc : gmap string Group.t) fs :
  NoDup l.*1 →
  (∀ n1 g1 n2 g2, (n1, g1) ∈ l → (n2, g2) ∈ l → n1 ≠ n2 →
                  entityFile EntityTypeGroup (Group.Name g1)
                  ≠ entityFile EntityTypeGroup (Group.Name g2)) →
  let fs' := (foldl (Manager.cascade entityFile id) (acc, fs) l).2 in
  (∀ n g, (n, g) ∈ l → Group.HasHost g id = true →
     fs' !! entityFile EntityTypeGroup (Group.Name g)
     = match (Manager.Group_Save entityFile (Group.RemoveHost g id) fs).2 with
       | None => Some (Regular (Yaml.Marshal (EGroup (Group.RemoveHost g id))))
       | Some _ => fs !! entityFile EntityTypeGroup (Group.Name g)
       end)
  ∧ (∀ f, (∀ n g, (n, g) ∈ l → Group.HasHost g id = true →
                  f ≠ entityFile EntityTypeGroup (Group.Name g)) →
          fs' !! f = fs !! f).
Proof.
  revert acc fs. induction l as [|[n0 g0] l IH]; intros acc fs Hnd Hfiles.
  { simpl. split; [intros n g []%elem_of_nil|done]. }
  rewrite fmap_cons in Hnd. inversion Hnd as [|? ? Hn0 Hnd']; subst.
  cbn [foldl].
  destruct (Manager.cascade entityFile id (acc, fs) (n0, g0)) as [acc1 fs1] eqn:Hs.
  assert (Hfs1 : fs1 = if Group.HasHost g0 id
                       then (Manager.Group_Save entityFile
                               (Group.RemoveHost g0 id) fs).1
                       else fs).
  { revert Hs. unfold Manager.cascade. simpl.
    destruct (Group.HasHost g0 id); by intros [= _ <-]. }
  clear Hs.
  destruct (IH acc1 fs1 Hnd') as [IH1 IH2].
  { intros n1 g1 n2 g2 H1 H2. apply Hfiles; by right. }
  assert (Hother : ∀ f, (Group.HasHost g0 id = true →
                         f ≠ entityFile EntityTypeGroup (Group.Name g0)) →
                        fs1 !! f = fs !! f).
  { intros f Hf. rewrite Hfs1. destruct (Group.HasHost g0 id); [|done].
    unfold Manager.Group_Save. apply Write_other. by apply Hf. }
  assert (Hrest : ∀ n g, (n, g) ∈ l → n ≠ n0).
  { intros n g Hin ->. apply Hn0. apply list_elem_of_fmap. by exists (n0, g). }
  simpl. split.
  - intros n g [[= -> ->]|Hin]%elem_of_cons Hhas.
    + rewrite IH2.
      * rewrite Hfs1, Hhas. unfold Manager.Group_Save. simpl. apply Write_at.
      * intros n' g' Hin' _. apply (Hfiles n0 g0 n' g'); [left|by right|].
        intros ->. by apply (Hrest n' g').
    + assert (Hne : entityFile EntityTypeGroup (Group.Name g)
                    ≠ entityFile EntityTypeGroup (Group.Name g0)).
      { apply (Hfiles n g n0 g0); [by right|left|]. by apply (Hrest n g). }
      rewrite (IH1 n g Hin Hhas).
      unfold Manager.Group_Save. simpl.
      rewrite (Write_error_local _ _ fs1 fs) by by apply Hother.
      by rewrite Hother.
  - intros f Hf. rewrite IH2.
    + apply Hother. intros Hhas. apply (Hf n0 g0); [left|done].
    + intros n g Hin. apply (Hf n g). by right.
Qed.

(** The groups in memory after the loop, whatever the order in which it
    met them. *)
Lemma cascade_groups_in_order id l (gs : gmap string Group.t) fs :
  NoDup l.*1 →
  (∀ n g, (n, g) ∈ l ↔ gs !! n = Some g) →
  (foldl (Manager.cascade entityFile id) (gs, fs) l).1
  = without_host id <$> gs.
Proof.
  intros Hnd Hl. apply map_eq. intros k. rewrite lookup_fmap.
  destruct (gs !! k) as [g|] eqn:Hg; simpl.
  - apply cascade_lookup; [|done|by apply Hl]. intros n g'. apply Hl.
  - rewrite cascade_lookup_other; [done| |done|].
    + intros n g'. apply Hl.
    + intros ((n & g) & -> & Hin%Hl)%list_elem_of_fmap. simpl in Hg. congruence.
Qed.
End CascadeFiles.

Section HeapRemoveHost.
Variable entityFile : EntityType → string → string.
Implicit Types (st : Heap.state) (l : list (string * Group.t)).

(** The loop on pointers and arrays is the loop on values, for groups
    that are owned. *)
Lemma fold_simulates id l st :
  owned st → NoDup l.*1 →
  (∀ n v, (n, v) ∈ l → Heap.group_at st n = Some v) →
  let st' := foldl (Heap.cascade entityFile id) st l.*1 in
  owned st'
  ∧ Heap.groups st' = Heap.groups st
  ∧ Heap.hosts st' = Heap.hosts st
  ∧ Heap.credentials st' = Heap.credentials st
  ∧ (Heap.group_values st', Heap.disk st')
    = foldl (Manager.cascade entityFile id)
        (Heap.group_values st, Heap.disk st) l.
Proof.
  revert st. induction l as [|[n v] l IH]; intros st Hown Hnd Hl; [done|].
  rewrite fmap_cons in Hnd. inversion Hnd as [|? ? Hn Hnd']; subst.
  rewrite fmap_cons. cbn [foldl fst].
  assert (Hv : Heap.group_at st n = Some v) by (apply Hl; left).
  unfold Heap.group_at in Hv.
  destruct (Heap.groups st !! n) as [p|] eqn:Hp; [|done]. simpl in Hv.
  destruct (Heap.objects st !! p) as [g|] eqn:Hg; [|done].
  simpl in Hv. injection Hv as <-.
  destruct (cascade_simulates entityFile id st n p g Hown Hp Hg)
    as (Hown1 & Hg1 & Hh1 & Hc1 & Hstep).
  destruct (IH (Heap.cascade entityFile id st n) Hown1 Hnd')
    as (Hown' & Hg' & Hh' & Hc' & Hfold).
  { intros n' v' Hin. rewrite <-group_values_lookup.
    apply (f_equal fst) in Hstep. simpl in Hstep. rewrite Hstep.
    assert (n' ≠ n).
    { intros ->. apply Hn. apply list_elem_of_fmap. by exists (n, v'). }
    unfold Manager.cascade. simpl.
    destruct (Group.HasHost (Heap.value (Heap.arrays st) g) id); simpl.
    - rewrite lookup_insert_ne by done. rewrite group_values_lookup.
      apply Hl. by right.
    - rewrite group_values_lookup. apply Hl. by right. }
  simpl. split_and!; [done|congruence..|].
  by rewrite Hfold, Hstep.
Qed.

(** The names of the map in any order, with the groups they lead to. *)
Lemma order_pairs st (order : list string) :
  owned st →
  order ≡ₚ (map_to_list (Heap.groups st)).*1 →
  ∃ l, l.*1 = order ∧ NoDup l.*1
       ∧ ∀ n v, (n, v) ∈ l ↔ Heap.group_values st !! n = Some v.
Proof.
  intros [Hwf _] Hperm.
  assert (Hnd : NoDup order).
  { rewrite Hperm. apply NoDup_fst_map_to_list. }
  assert (Hkeys : ∀ n, n ∈ order ↔ is_Some (Heap.groups st !! n)).
  { intros n. rewrite Hperm, list_elem_of_fmap. split.
    - intros ([n' p] & -> & Hin%elem_of_map_to_list). by exists p.
    - intros [p Hp]. exists (n, p). split; [done|].
      by apply elem_of_map_to_list. }
  exists ((λ n, (n, default (Group.NewGroup "")
                      (Heap.group_values st !! n))) <$> order).
  assert (Hfst : ((λ n, (n, default (Group.NewGroup "")
                              (Heap.group_values st !! n))) <$> order).*1
                 = order).
  { rewrite <-list_fmap_compose. apply list_fmap_id. }
  split_and!; [done|by rewrite Hfst|].
  intros n v. rewrite list_elem_of_fmap. split.
  - intros (n' & [= -> ->] & Hin). apply Hkeys in Hin as [p Hp].
    destruct (Hwf n' p Hp) as (g & Hg & _).
    rewrite group_values_lookup. unfold Heap.group_at. rewrite Hp. simpl.
    by rewrite Hg.
  - intros Hv. exists n. rewrite Hv. split; [done|]. apply Hkeys.
    rewrite group_values_lookup in Hv. unfold Heap.group_at in Hv.
    by destruct (Heap.groups st !! n).
Qed.

Lemma distinct_files_spec (h : Host.t) st :
  Heap.distinct_files entityFile h st = true →
  (∀ n v, Heap.group_values st !! n = Some v →
          entityFile EntityTypeGroup (Group.Name v)
          ≠ entityFile EntityTypeHost (Host.ID h))
  ∧ (∀ n1 v1 n2 v2,
       Heap.group_values st !! n1 = Some v1 →
       Heap.group_values st !! n2 = Some v2 → n1 ≠ n2 →
       entityFile EntityTypeGroup (Group.Name v1)
       ≠ entityFile EntityTypeGroup (Group.Name v2)).
Proof.
  unfold Heap.distinct_files. intros [_ Hd]%andb_true_iff.
  rewrite forallb_elem in Hd.
  assert (Hentry : ∀ n v, Heap.group_values st !! n = Some v →
            ∃ p g, (n, p, g) ∈ Heap.entries st ∧ Group.Name v = Heap.Name g).
  { intros n v. rewrite group_values_lookup. unfold Heap.group_at.
    destruct (Heap.groups st !! n) as [p|] eqn:Hp; [|done]. simpl.
    destruct (Heap.objects st !! p) as [g|] eqn:Hg; [|done]. simpl.
    intros [= <-]. exists p, g. split; [by apply entries_elem|done]. }
  split.
  - intros n v (p & g & Hin & ->)%Hentry.
    apply Hd in Hin. apply andb_true_iff in Hin as [Hin _].
    apply andb_true_iff in Hin as [_ Hin].
    by apply bool_decide_eq_true in Hin.
  - intros n1 v1 n2 v2 (p1 & g1 & Hin1 & ->)%Hentry
           (p2 & g2 & Hin2 & ->)%Hentry Hne.
    apply Hd in Hin1. apply andb_true_iff in Hin1 as [_ Hin1].
    rewrite forallb_elem in Hin1. apply Hin1 in Hin2. simpl in Hin2.
    rewrite bool_decide_eq_false_2 in Hin2 by done.
    by apply bool_decide_eq_true in Hin2.
Qed.

(** [RemoveHost] on pointers and arrays, for groups that are owned, in
    terms of the loop on values: the groups in memory, the host map, and
    the files the loop leaves for the deletion of the host's file. *)
Lemma RemoveHost_run (order : list string) id (h : Host.t) st :
  Heap.hosts st !! id = Some h →
  owned st →
  order ≡ₚ (map_to_list (Heap.groups st)).*1 →
  ∃ l,
    NoDup l.*1
    ∧ (∀ n v, (n, v) ∈ l ↔ Heap.group_values st !! n = Some v)
    ∧ let fs1 := (foldl (Manager.cascade entityFile id)
                    (Heap.group_values st, Heap.disk st) l).2 in
      let r := Heap.RemoveHost entityFile order id st in
      Heap.group_values r.2 = without_host id <$> Heap.group_values st
      ∧ Heap.credentials r.2 = Heap.credentials st
      ∧ Heap.hosts r.2
        = (if r.1 is None then delete id (Heap.hosts st) else Heap.hosts st)
      ∧ (Heap.disk r.2, r.1) = Manager.Host_Delete entityFile h fs1.
Proof.
  intros Hh Hown Hperm.
  destruct (order_pairs st order Hown Hperm) as (l & <- & Hnd & Hl).
  exists l. split; [done|]. split; [done|]. simpl.
  destruct (fold_simulates id l st Hown Hnd) as (_ & Hg & Hhosts & Hc & Hfold).
  { intros n v Hin. rewrite <-group_values_lookup. by apply Hl. }
  unfold Heap.RemoveHost. rewrite Hh.
  set (st1 := foldl (Heap.cascade entityFile id) st l.*1) in *.
  assert (Hvalues : Heap.group_values st1
                    = without_host id <$> Heap.group_values st).
  { apply (f_equal fst) in Hfold. simpl in Hfold. rewrite Hfold.
    by apply cascade_groups_in_order. }
  apply (f_equal snd) in Hfold. simpl in Hfold. rewrite <-Hfold.
  destruct (Manager.Host_Delete entityFile h (Heap.disk st1)) as [fs2 [e|]];
    simpl; split_and!; try done; congruence.
Qed.
End HeapRemoveHost.

Section Refinement.
Variable entityFile : EntityType → string → string.

(** For groups that are owned, [RemoveHost] on pointers and arrays is
    [Manager.RemoveHost] on values, when the loop meets the groups in
    the order the model on values takes. *)
Lemma RemoveHost_refines (id : string) (st : Heap.state) :
  owned st →
  let r := Heap.RemoveHost entityFile
             (map_to_list (Heap.group_values st)).*1 id st in
  (r.1, Heap.lower r.2) = Manager.RemoveHost entityFile id (Heap.lower st).
Proof.
  intros Hown. unfold Heap.RemoveHost, Manager.RemoveHost. simpl.
  destruct (Heap.hosts st !! id) as [h|]; [|done].
  destruct (fold_simulates entityFile id (map_to_list (Heap.group_values st))
              st Hown) as (_ & Hg & Hh & Hc & Hfold).
  { apply NoDup_fst_map_to_list. }
  { intros n v Hin%elem_of_map_to_list. by rewrite <-group_values_lookup. }
  set (st1 := foldl (Heap.cascade entityFile id) st
                (map_to_list (Heap.group_values st)).*1) in *.
  rewrite <-Hfold.
  destruct (Manager.Host_Delete entityFile h (Heap.disk st1)) as [fs2 [e|]];
    simpl; unfold Heap.lower, Manager.set_groups, Manager.set_hosts; simpl;
    by rewrite Hh, Hc.
Qed.
End Refinement.

(** C4, as amended.  Let the host [h] be in the host map under [id], let
    every group be owned by one name of the group map (no two names lead
    to one struct, and no place of an array that is an element of the
    [HostIDs] of a group is an element of another group's [HostIDs] or
    of any [ChildGroupNames]), let no group list a host twice, and let every group have a file of
    its own that is not the host's (the file names being names of
    entries of the base directory).  After [RemoveHost(id)] returns
    successfully, in whatever order it met the groups: no group has [id]
    in its [HostIDs] and the other members of every group are as before,
    in their order; the host is absent from the host map and its file
    from the disk; and every group that listed the host has been
    persisted again, its file holding the group without the host,
    unless the write of that file was refused, in which case the file
    is as it was.  The files of the other groups are as they were. *)
Theorem RemoveHost_cascade (entityFile : EntityType → string → string)
    (order : list string) (id : string) (h : Host.t) (st : Heap.state) :
  Heap.hosts st !! id = Some h →
  order ≡ₚ (map_to_list (Heap.groups st)).*1 →
  Heap.well_formed st = true →
  Heap.unshared st = true →
  Heap.no_repetition st = true →
  Heap.distinct_files entityFile h st = true →
  (Heap.RemoveHost entityFile order id st).1 = None →
  let st' := (Heap.RemoveHost entityFile order id st).2 in
  let file (g : Group.t) := entityFile EntityTypeGroup (Group.Name g) in
  (∀ n g', Heap.group_at st' n = Some g' → id ∉ Group.HostIDs g')
  ∧ (∀ n, Heap.group_at st' n = without_host id <$> Heap.group_at st n)
  ∧ (∀ n g, Heap.group_at st n = Some g →
            Group.HostIDs (without_host id g)
            = Group.remove_first (Group.HostIDs g) id)
  ∧ Heap.hosts st' !! id = None
  ∧ Heap.disk st' !! entityFile EntityTypeHost (Host.ID h) = None
  ∧ (∀ n g, Heap.group_at st n = Some g → Group.HasHost g id = true →
       Heap.disk st' !! file g
       = match (Manager.Group_Save entityFile (Group.RemoveHost g id)
                  (Heap.disk st)).2 with
         | None => Some (Regular (Yaml.Marshal (EGroup (Group.RemoveHost g id))))
         | Some _ => Heap.disk st !! file g
         end)
  ∧ (∀ n g, Heap.group_at st n = Some g → Group.HasHost g id = false →
       Heap.disk st' !! file g = Heap.disk st !! file g).
Proof.
  intros Hh Hperm Hwf Hun Hnd Hfiles Hok. simpl.
  pose proof (owned_of_checks st Hwf Hun) as Hown.
  destruct (RemoveHost_run entityFile order id h st Hh Hown Hperm)
    as (l & Hndl & Hl & Hvalues & _ & Hhosts & Hdisk).
  destruct (distinct_files_spec entityFile h st Hfiles) as [Hhost Hgroups].
  rewrite Hok in Hhosts, Hdisk. symmetry in Hdisk.
  apply Delete_ok in Hdisk.
  destruct (cascade_files entityFile id l (Heap.group_values st) (Heap.disk st)
              Hndl) as [Hsaved Hkept].
  { intros n1 g1 n2 g2 H1%Hl H2%Hl. by apply (Hgroups n1 g1 n2 g2). }
  assert (Hat : ∀ n, Heap.group_at
                       (Heap.RemoveHost entityFile order id st).2 n
                     = without_host id <$> Heap.group_at st n).
  { intros n. by rewrite <-!group_values_lookup, Hvalues, lookup_fmap. }
  split_and!.
  - intros n g'. rewrite Hat.
    destruct (Heap.group_at st n) as [g|] eqn:Hg; [|done]. intros [= <-].
    apply without_host_not_elem. by apply (no_repetition_spec st n).
  - done.
  - intros n g _. unfold without_host, Group.HasHost.
    destruct (Group.has (Group.HostIDs g) id) eqn:Hhas; [done|].
    simpl. clear -Hhas. induction (Group.HostIDs g) as [|x ids IH]; [done|].
    simpl in *. case_decide; [done|]. by rewrite <-IH.
  - rewrite Hhosts. apply lookup_delete_eq.
  - rewrite Hdisk. apply lookup_delete_eq.
  - intros n g Hg Hhas. rewrite <-group_values_lookup in Hg.
    rewrite Hdisk, lookup_delete_ne by (intros Heq; by apply (Hhost n g)).
    apply (Hsaved n g); [by apply Hl|done].
  - intros n g Hg Hhas. rewrite <-group_values_lookup in Hg.
    rewrite Hdisk, lookup_delete_ne by (intros Heq; by apply (Hhost n g)).
    apply Hkept. intros n' g' Hin%Hl Hhas' Heq.
    destruct (decide (n = n')) as [->|Hne]; [congruence|].
    by apply (Hgroups n g n' g').
Qed.

Lemma RemoveHost_cascade_witness :
  let st' := (Heap.RemoveHost Sample.layout ["gb"; "ga"] "host1"
                Sample.st_owned).2 in
  Group.HostIDs <$> Heap.group_at st' "ga" = Some ["host2"; "host3"]
  ∧ Heap.disk st' !! Sample.layout EntityTypeGroup "ga"
    = Some (Regular (Yaml.Marshal
                       (EGroup (Group.mk "ga" "" ["host2"; "host3"] ∅ [])))).
Proof.
  assert (Hperm : ["gb"; "ga"] ≡ₚ (map_to_list (Heap.groups Sample.st_owned)).*1).
  { vm_compute. apply perm_swap. }
  destruct (RemoveHost_cascade Sample.layout ["gb"; "ga"] "host1" Sample.host1
              Sample.st_owned eq_refl Hperm eq_refl eq_refl eq_refl eq_refl
              eq_refl) as (_ & Hat & _ & _ & _ & Hsaved & _).
  split.
  - rewrite Hat. reflexivity.
  - apply (Hsaved "ga" (Group.mk "ga" "" ["host1"; "host2"; "host3"] ∅ []));
      reflexivity.
Defined.

(** C4, as stated, fails on the parenthesis: [host1] is removed
    successfully and leaves the member list of [ga] in memory, but the
    file of [ga] could not be written and still holds the document that
    lists [host1]; the group was not persisted again. *)
Lemma RemoveHost_group_not_persisted :
  let st := Sample.st_owned_blocked in
  let r := Heap.RemoveHost Sample.layout ["ga"; "gb"] "host1" st in
  let before := Group.mk "ga" "" ["host1"; "host2"; "host3"] ∅ [] in
  let after := Group.mk "ga" "" ["host2"; "host3"] ∅ [] in
  Heap.group_at st "ga" = Some before
  ∧ r.1 = None
  ∧ Heap.group_at r.2 "ga" = Some after
  ∧ Heap.disk r.2 !! Sample.layout EntityTypeGroup "ga"
    = Some (Protected (Yaml.Marshal (EGroup before)))
  ∧ Yaml.Marshal (EGroup before) ≠ Yaml.Marshal (EGroup after).
Proof.
  cbv zeta. split_and!; try reflexivity.
  intros Heq.
  apply (f_equal (λ x, match x with
                       | Mapping d => d !! "host_ids"
                       | Garbage => None
                       end)) in Heq.
  vm_compute in Heq. discriminate.
Qed.

(** Where the code departs from C4 by the way [Group.RemoveHost] cuts
    its slice: with [gb.HostIDs] cut from the slice of [ga],
    [RemoveHost("host1")] moves the elements of the one array down, so
    [gb], which never listed [host1], lists [host3] twice afterwards
    and has lost [host2], in either order of the loop; [gb] is not
    saved, its file still lists [host2] and [host3]. *)
Lemma RemoveHost_shared_array :
  let st := Sample.st_shared in
  Heap.well_formed st = true
  ∧ Heap.unshared st = false
  ∧ Group.HostIDs <$> Heap.group_at st "gb" = Some ["host2"; "host3"]
  ∧ ∀ order, order = ["ga"; "gb"] ∨ order = ["gb"; "ga"] →
      let r := Heap.RemoveHost Sample.layout order "host1" st in
      r.1 = None
      ∧ Group.HostIDs <$> Heap.group_at r.2 "ga" = Some ["host2"; "host3"]
      ∧ Group.HostIDs <$> Heap.group_at r.2 "gb" = Some ["host3"; "host3"]
      ∧ Heap.disk r.2 !! Sample.layout EntityTypeGroup "gb"
        = Heap.disk st !! Sample.layout EntityTypeGroup "gb".
Proof.
  cbv zeta. split_and!; try reflexivity.
  intros order [-> | ->]; split_and!; reflexivity.
Qed.

(** X10. [RemoveHost] and referential integrity, for groups that are
    owned (each by one name of the map, the [HostIDs] of a group sharing
    no place of an array with another group's [HostIDs] or with any
    [ChildGroupNames]) and any order of the loop.  When the host is
    in the map, the groups in memory lose the host whether or not
    [RemoveHost] then succeeds: if deleting the host's file fails, the
    error is returned and the host is still in the host map, but it has
    already been taken out of the groups.  From a manager in which every
    reference resolves, a [RemoveHost] that fails leads to one in which
    every reference resolves, and so does one that succeeds if no group
    lists a host twice. *)
Theorem RemoveHost_and_consistency (entityFile : EntityType → string → string)
    (order : list string) (id : string) (st : Heap.state) :
  consistent (Manager.mem (Heap.lower st)) →
  order ≡ₚ (map_to_list (Heap.groups st)).*1 →
  Heap.well_formed st = true →
  Heap.unshared st = true →
  let r := Heap.RemoveHost entityFile order id st in
  (is_Some (Heap.hosts st !! id) →
     Heap.group_values r.2 = without_host id <$> Heap.group_values st)
  ∧ (r.1 ≠ None →
       Heap.hosts r.2 = Heap.hosts st
       ∧ consistent (Manager.mem (Heap.lower r.2)))
  ∧ (Heap.no_repetition st = true →
     consistent (Manager.mem (Heap.lower r.2))).
Proof.
  intros [Hh Hg] Hperm Hwf Hun. simpl in Hh, Hg. cbv zeta.
  destruct (Heap.hosts st !! id) as [h|] eqn:Hid; last first.
  { unfold Heap.RemoveHost. rewrite Hid. simpl.
    split_and!; [by intros [? ?]|done|done]. }
  pose proof (owned_of_checks st Hwf Hun) as Hown.
  destruct (RemoveHost_run entityFile order id h st Hid Hown Hperm)
    as (l & _ & _ & Hvalues & Hcreds & Hhosts & _).
  assert (Hgroups : ∀ hs : gmap string Host.t,
             (∀ n g x, Heap.group_values st !! n = Some g →
                       x ∈ Group.HostIDs (without_host id g) →
                       is_Some (hs !! x)) →
             (∀ k h', hs !! k = Some h' → Heap.hosts st !! k = Some h') →
             consistent (Manager.mk (Heap.credentials st) hs
                           (without_host id <$> Heap.group_values st))).
  { intros hs Hmembers Hsub. split; simpl.
    - intros k h' Hk. apply (Hh k). by apply Hsub.
    - intros n g'. rewrite lookup_fmap.
      destruct (Heap.group_values st !! n) as [g|] eqn:Hn; [|done].
      intros [= <-]. split.
      + intros x Hx. by apply (Hmembers n g).
      + rewrite without_host_children. intros c Hc.
        rewrite lookup_fmap. apply fmap_is_Some.
        by apply (proj2 (Hg n g Hn)). }
  assert (Hlow : Manager.mem
                   (Heap.lower (Heap.RemoveHost entityFile order id st).2)
                 = Manager.mk (Heap.credentials st)
                     (Heap.hosts (Heap.RemoveHost entityFile order id st).2)
                     (without_host id <$> Heap.group_values st)).
  { unfold Heap.lower. simpl. by rewrite Hvalues, Hcreds. }
  split_and!.
  - done.
  - intros Hfail. rewrite Hlow, Hhosts.
    destruct (Heap.RemoveHost entityFile order id st).1 as [e|]; [|done].
    split; [done|]. apply Hgroups; [|done].
    intros n g x Hn Hx%without_host_subset. by apply (proj1 (Hg n g Hn)).
  - intros Hnd. rewrite Hlow, Hhosts.
    destruct (Heap.RemoveHost entityFile order id st).1 as [e|].
    + apply Hgroups; [|done].
      intros n g x Hn Hx%without_host_subset. by apply (proj1 (Hg n g Hn)).
    + apply Hgroups.
      * intros n g x Hn Hx. rewrite lookup_delete_ne.
        -- apply without_host_subset in Hx. by apply (proj1 (Hg n g Hn)).
        -- intros <-. revert Hx. apply without_host_not_elem.
           apply (no_repetition_spec st n); [done|].
           by rewrite <-group_values_lookup.
      * intros k h' [_ ?]%lookup_delete_Some. done.
Qed.

Lemma RemoveHost_and_consistency_witness :
  consistent
    (Manager.mem
       (Heap.lower (Heap.RemoveHost Sample.layout ["ga"; "gb"] "host1"
                      Sample.st_owned).2)).
Proof.
  assert (Hperm : ["ga"; "gb"] ≡ₚ (map_to_list (Heap.groups Sample.st_owned)).*1).
  { vm_compute. reflexivity. }
  apply (RemoveHost_and_consistency Sample.layout ["ga"; "gb"] "host1"
           Sample.st_owned).
  - apply validateRelationships_None. reflexivity.
  - exact Hperm.
  - reflexivity.
  - reflexivity.
  - reflexivity.
Defined.
